(** * The options system of HoloViews ([holoviews/core/options.py])

  A shallow embedding of [Cycle], [Palette], [Options], [OptionTree],
  [Compositor] and [Store], and of the cells and columns of the tables of
  [holoviews/view/tabular.py], followed by the properties of the
  options/style resolution engine and of the tables.

  Python dictionaries keyed by keyword names are finite maps
  ([gmap string _]); Python lists are lists; integers are [Z]; an
  operation that may raise returns a [result]. *)

From Stdlib Require Import ZArith String Ascii List Lia.
From stdpp Require Import base option list gmap strings sorting pretty.

Local Open Scope Z_scope.

(** ** Python values, exceptions and the few builtins the module uses *)

Module Py.

(** The keyword values that the options system stores.  A [Cycle] (or a
    [Palette], its subclass) is the only kind of value the module looks
    into ([isinstance(v, Cycle)]); it carries its two parameters. *)
#[warnings="-register-all"]
Inductive value : Type :=
| VNone
| VBool (b : bool)
| VInt (n : Z)
| VStr (s : string)
| VList (l : list value)
| VCycle (key : string) (values : list value).

(** The exceptions raised by the module, with their arguments. *)
Inductive exn : Type :=
| OptionError (invalid_keyword : string) (allowed_keywords : list string)
              (group_name : option string) (path : option string)
| ValueError (msg : string)
| KeyError (k : string)
| AttributeError (msg : string)
| TypeError (msg : string)
| ZeroDivisionError
| Exception (msg : string).

Inductive result (A : Type) : Type :=
| Ok (a : A)
| Err (e : exn).
Arguments Ok {A} a.
Arguments Err {A} e.

#[export] Instance result_ret : MRet result := fun _ a => Ok a.
#[export] Instance result_bind : MBind result := fun _ _ f m =>
  match m with Ok a => f a | Err e => Err e end.
#[export] Instance result_fmap : FMap result := fun _ _ f m =>
  match m with Ok a => Ok (f a) | Err e => Err e end.

Definition is_ok {A} (r : result A) : bool :=
  match r with Ok _ => true | Err _ => false end.

(** [for x in l: f(x)] where [f] may raise: the results in order, or the
    first exception. *)
Fixpoint for_each {A B} (f : A -> result B) (l : list A) : result (list B) :=
  match l with
  | [] => Ok []
  | x :: l' => y ← f x; ys ← for_each f l'; Ok (y :: ys)
  end.

(** [sorted(l)]: a stable sort that only asks [x < y].  The element [x],
    which stood before everything in [l], moves past [y] only when
    [y < x]. *)
Section Sorted.
Context {A : Type} (lt : A -> A -> bool).

Fixpoint insert_sorted (x : A) (l : list A) : list A :=
  match l with
  | [] => [x]
  | y :: l' => if lt y x then y :: insert_sorted x l' else x :: y :: l'
  end.

Definition sorted (l : list A) : list A := foldr insert_sorted [] l.

End Sorted.

(** [s.endswith(c)] *)
Definition endswith (s c : string) : bool :=
  bool_decide (String.length c <= String.length s)%nat &&
  String.eqb (substring (String.length s - String.length c) (String.length c) s) c.

(** [s.split(sep)] for a separator of one character. *)
Fixpoint split (sep : ascii) (s : string) : list string :=
  match s with
  | EmptyString => [EmptyString]
  | String c s' =>
      if Ascii.eqb c sep then EmptyString :: split sep s'
      else
        match split sep s' with
        | h :: t => String c h :: t
        | [] => [String c EmptyString]
        end
  end.

(** [s.strip()], for the whitespace of ASCII: space and the characters 9
    to 13. *)
Definition is_space (c : ascii) : bool :=
  let n := nat_of_ascii c in
  Nat.eqb n 32 || (Nat.leb 9 n && Nat.leb n 13).

Fixpoint lstrip (s : string) : string :=
  match s with
  | EmptyString => EmptyString
  | String c s' => if is_space c then lstrip s' else s
  end.

Fixpoint rstrip (s : string) : string :=
  match s with
  | EmptyString => EmptyString
  | String c s' =>
      match rstrip s' with
      | EmptyString => if is_space c then EmptyString else String c EmptyString
      | r => String c r
      end
  end.

Definition strip (s : string) : string := rstrip (lstrip s).

(** [dict(pairs)]: a later pair overrides an earlier one with the same key. *)
Definition dict_of_pairs {V} (l : list (string * V)) : gmap string V :=
  foldl (fun m kv => <[kv.1 := kv.2]> m) ∅ l.

(** [dict(d, **kw)]: the entries of [kw] override those of [d]. *)
Definition dict_update {V} (d kw : gmap string V) : gmap string V := kw ∪ d.

(** [zip] applied to the unpacked list of lists [ls] (non-empty): the
    tuples of the values at the same position, as long as every list has
    one. *)
Fixpoint zip_star {A} (ls : list (list A)) : list (list A) :=
  match ls with
  | [] => []
  | [l] => map (fun x => [x]) l
  | l :: rest => zip_with cons l (zip_star rest)
  end.

(** [l[start:stop]] for indices within [0 .. len(l)]. *)
Definition slice {A} (start stop : nat) (l : list A) : list A :=
  take (stop - start) (drop start l).

(** [l[:num]]: a negative [num] counts from the end, and a bound outside
    of the list is moved to its nearest end. *)
Definition slice_to {A} (num : Z) (l : list A) : list A :=
  if 0 <=? num then take (Z.to_nat num) l
  else take (Z.to_nat (Z.of_nat (length l) + num)) l.

(** [l[::step]] for a step that is not zero: every [step]-th element from
    the first one on, or, for a negative step, every [-step]-th element from
    the last one back. *)
Fixpoint every_from {A} (skip k : nat) (l : list A) : list A :=
  match l with
  | [] => []
  | x :: l' =>
      match skip with
      | O => x :: every_from k k l'
      | S skip' => every_from skip' k l'
      end
  end.

Definition slice_step {A} (step : Z) (l : list A) : list A :=
  if 0 <? step then every_from 0 (Z.to_nat step - 1) l
  else every_from 0 (Z.to_nat (- step) - 1) (rev l).

(** [str(n)] for an integer. *)
Definition str (n : Z) : string := pretty n.

End Py.
Import Py.

(** ** Cycle *)

Module Cycle.

Record t : Type := mk { key : string; values : list value }.

(** [isinstance(v, Cycle)] and the object behind it. *)
Definition of_value (v : value) : option t :=
  match v with VCycle k vs => Some (mk k vs) | _ => None end.

Definition is_cycle (v : value) : bool :=
  match v with VCycle _ _ => true | _ => false end.

Definition to_value (c : t) : value := VCycle (key c) (values c).

(** [Cycle._get_values]; [default_cycles] is the class attribute holding
    the named cycles.  A list is true when it is not empty, a string when
    it is not the empty string. *)
Definition _get_values (default_cycles : gmap string (list value)) (self : t)
  : result (list value) :=
  match values self with
  | _ :: _ => Ok (values self)
  | [] =>
      if String.eqb (key self) "" then
        Err (ValueError "Supply either a key or explicit values.")
      else
        match default_cycles !! key self with
        | Some vs => Ok vs
        | None => Err (KeyError (key self))
        end
  end.

(** [Cycle.__init__]: the parameters default to
    [key='grayscale'] and [values=[]]. *)
Definition __init__ (default_cycles : gmap string (list value))
    (key : option string) (values : option (list value)) : result t :=
  let self := mk (default "grayscale" key) (default [] values) in
  vs ← _get_values default_cycles self;
  Ok (mk (Cycle.key self) vs).

Definition __len__ (self : t) : nat := length (values self).

(** [Cycle.__call__(values=None)]: a new Cycle with the parameters of
    [self] and the given values; values that are [None] or empty are
    replaced by those of [self]. *)
Definition __call__ (default_cycles : gmap string (list value)) (self : t)
    (values : option (list value)) : result t :=
  let values :=
    match values with
    | Some ((_ :: _) as vs) => vs
    | _ => Cycle.values self
    end in
  __init__ default_cycles (Some (key self)) (Some values).

(** [Cycle.__getitem__(num)] *)
Definition __getitem__ (default_cycles : gmap string (list value)) (self : t)
    (num : Z) : result t :=
  __call__ default_cycles self (Some (slice_to num (values self))).

End Cycle.

(** ** Options *)

Module Options.

Record t : Type := mk {
  allowed_keywords : option (list string);
  key : option string;
  kwargs : gmap string value;
  _options : list (gmap string value)
}.

(** [Options._expand_options]: [filter_static] is a dictionary,
    [filter_cycles] the list of the Cycle-valued items in the order in which
    the dictionary enumerates them. *)
Definition _expand_options (kwargs : gmap string value)
  : list (gmap string value) :=
  let filter_static :=
    filter (fun kv : string * value => Cycle.is_cycle kv.2 = false) kwargs in
  let filter_cycles :=
    omap (fun kv : string * value =>
            c ← Cycle.of_value kv.2; Some (kv.1, c)) (map_to_list kwargs) in
  match filter_cycles with
  | [] => [kwargs]
  | _ :: _ =>
      let filter_names := filter_cycles.*1 in
      let filter_values := filter_cycles.*2 in
      let cyclic_tuples := zip_star (map Cycle.values filter_values) in
      map (fun tps => dict_update (dict_of_pairs (zip filter_names tps))
                                  filter_static)
          cyclic_tuples
  end.

(** A list used as a condition: [None] and the empty list are false. *)
Definition truthy (allowed_keywords : option (list string)) : bool :=
  match allowed_keywords with
  | Some (_ :: _) => true
  | _ => false
  end.

(** The loop at the head of [Options.__init__]: the first keyword, in
    sorted order, that the allow-list rejects raises. *)
Fixpoint validate (allowed_keywords : option (list string))
    (kwargs : list string) : result unit :=
  match kwargs with
  | [] => Ok ()
  | kwarg :: rest =>
      if truthy allowed_keywords
         && negb (bool_decide (kwarg ∈ default [] allowed_keywords))
      then Err (OptionError kwarg (default [] allowed_keywords) None None)
      else validate allowed_keywords rest
  end.

(** [sorted(kwargs.keys())] *)
Definition keys_of (kwargs : gmap string value) : list string :=
  sorted String.ltb (map_to_list kwargs).*1.

(** [Options.__init__(key, allowed_keywords, **kwargs)] *)
Definition __init__ (key : option string)
    (allowed_keywords : option (list string)) (kwargs : gmap string value)
  : result t :=
  _ ← validate allowed_keywords (keys_of kwargs);
  Ok {| kwargs := kwargs;
        _options := _expand_options kwargs;
        allowed_keywords :=
          if truthy allowed_keywords
          then Some (sorted String.ltb (default [] allowed_keywords))
          else None;
        key := key |}.

(** [Options.__call__(allowed_keywords=None, **kwargs)] *)
Definition __call__ (self : t) (allowed_keywords : option (list string))
    (kwargs : gmap string value) : result t :=
  let allowed_keywords :=
    match allowed_keywords with
    | None => Options.allowed_keywords self
    | Some l => Some l
    end in
  __init__ (key self) allowed_keywords (dict_update (Options.kwargs self) kwargs).

(** [Options.keys] *)
Definition keys (self : t) : list string := keys_of (kwargs self).

(** [Options.__getitem__(index)]; [%] with a positive modulus is [Z.modulo],
    with modulus zero it raises. *)
Definition __getitem__ (self : t) (index : Z) : result (gmap string value) :=
  let n := Z.of_nat (length (_options self)) in
  if Z.eqb n 0 then Err ZeroDivisionError
  else
    match _options self !! Z.to_nat (index mod n) with
    | Some d => Ok d
    | None => Err (Exception "IndexError")
    end.

(** The [options] property. *)
Definition options (self : t) : result (gmap string value) :=
  match _options self with
  | [d] => Ok d
  | _ => Err (Exception
           "The options property may only be used with non-cyclic Options.")
  end.

(** [Options.max_cycles(num)], for the Cycle objects proper, which
    [arg[num]] truncates (a [Palette] has a [__getitem__] of its own, which
    samples anew). *)
Definition max_cycles (default_cycles : gmap string (list value)) (self : t)
    (num : Z) : result t :=
  kwargs ←
    for_each
      (fun kv : string * value =>
         match Cycle.of_value kv.2 with
         | Some arg =>
             c ← Cycle.__getitem__ default_cycles arg num;
             Ok (kv.1, Cycle.to_value c)
         | None => Ok kv
         end)
      (map_to_list (kwargs self));
  __call__ self None (dict_of_pairs kwargs).

End Options.

(** ** OptionTree *)

Module OptionTree.

(** A node of the tree.  [nodes] lists the child nodes in the order of
    [AttrTree.children], each under the identifier it is stored at; the
    [parent] reference of a node is kept outside of it, as the list of its
    ancestors (parent first, root last). *)
#[warnings="-register-all"]
Inductive t : Type :=
  Node (identifier : option string) (groups : gmap string Options.t)
       (nodes : list (string * t)) (_instantiated : bool).

Definition identifier (self : t) : option string :=
  let 'Node i _ _ _ := self in i.
Definition groups (self : t) : gmap string Options.t :=
  let 'Node _ g _ _ := self in g.
Definition nodes (self : t) : list (string * t) :=
  let 'Node _ _ n _ := self in n.
Definition _instantiated (self : t) : bool :=
  let 'Node _ _ _ b := self in b.

(** What indexing a node can give: the [Options] of a group or a child. *)
Inductive item : Type :=
| IOptions (o : Options.t)
| INode (n : t).

(** Modelled from the spec: the base class [AttrTree] (core/tree.py) is not
    part of the sources.  A node has an ordered set of named children:
    [children] is the list of their identifiers. *)
Definition children (self : t) : list string := (nodes self).*1.

(** The node stored under an identifier, and the list with a node stored
    under an identifier: in the place of the one that was there, or else
    in the last place. *)
Fixpoint assoc {A} (k : string) (l : list (string * A)) : option A :=
  match l with
  | [] => None
  | (k', a) :: l' => if String.eqb k k' then Some a else assoc k l'
  end.

Fixpoint assoc_set {A} (k : string) (a : A) (l : list (string * A))
  : list (string * A) :=
  match l with
  | [] => [(k, a)]
  | (k', a') :: l' =>
      if String.eqb k k' then (k, a) :: l' else (k', a') :: assoc_set k a l'
  end.

(** Modelled from the spec: [AttrTree.__getitem__] for one identifier, the
    child of that name; an identifier that is no child is a [KeyError]. *)
Definition AttrTree_getitem (self : t) (identifier : string) : result t :=
  match assoc identifier (nodes self) with
  | Some c => Ok c
  | None => Err (KeyError identifier)
  end.

(** Modelled from the spec: [AttrTree.__setattr__], which creates the
    child [identifier] or overwrites it, keeping the order of the
    children. *)
Definition AttrTree_setattr (self : t) (identifier : string) (val : t) : t :=
  Node (OptionTree.identifier self) (groups self)
       (assoc_set identifier val (nodes self)) (_instantiated self).

(** Modelled from the spec: the name of a node in a path; a root without
    identifier goes by the name of its class. *)
Definition node_name (self : t) : string :=
  default "OptionTree" (identifier self).

(** Modelled from the spec: the [path] property of [AttrTree], the
    identifiers from the root down to the node joined by dots; [ancestors]
    has the parent first. *)
Definition path (ancestors : list t) (self : t) : string :=
  foldl (fun acc n => node_name n +:+ "." +:+ acc) (node_name self) ancestors.

(** [OptionTree.__getitem__] *)
Definition __getitem__ (self : t) (item : string) : result OptionTree.item :=
  match groups self !! item with
  | Some o => Ok (IOptions o)
  | None => INode <$> AttrTree_getitem self item
  end.

(** Attribute and index access on what [__getitem__] returned: an [Options]
    object has no [groups] or [children], and cannot be indexed by a name
    (its [__getitem__] takes the name modulo a length).  Reading
    [allowed_keywords] of a node would go through the attribute
    interception of the tree; the code reads it from what a node gives for
    the name of one of its groups, which is an [Options] object, so here a
    node has no such attribute. *)
Definition item_groups (i : item) : result (gmap string Options.t) :=
  match i with
  | INode n => Ok (groups n)
  | IOptions _ => Err (AttributeError "groups")
  end.

Definition item_getitem (i : item) (name : string) : result item :=
  match i with
  | INode n => __getitem__ n name
  | IOptions _ =>
      Err (TypeError "not all arguments converted during string formatting")
  end.

Definition item_allowed_keywords (i : item) : result (option (list string)) :=
  match i with
  | IOptions o => Ok (Options.allowed_keywords o)
  | INode _ => Err (AttributeError "allowed_keywords")
  end.

Section WithSanitizer.

(** [sanitize_identifier(_, escape=False)] of core/util.py, which is not
    part of the sources. *)
Variable sanitize_identifier : string -> string.

(** [OptionTree._inherited_options]; [path] is [self.path]. *)
Definition _inherited_options (self : t) (path : string)
    (identifier group_name : string) (options : Options.t)
  : result Options.t :=
  let override_kwargs := Options.kwargs options in
  allowed_keywords ←
    (if negb (_instantiated self) then Ok (Options.allowed_keywords options)
     else if bool_decide (identifier ∈ children self) then
       c ← __getitem__ self identifier;
       g ← item_getitem c group_name;
       item_allowed_keywords g
     else Ok None);
  if bool_decide (group_name ∉ dom (groups self)) then
    Err (KeyError ("Group " +:+ group_name +:+ " not defined on SettingTree"))
  else
    current_node ←
      (if bool_decide (identifier ∈ children self)
       then __getitem__ self identifier else Ok (INode self));
    current_groups ← item_groups current_node;
    group_options ←
      match current_groups !! group_name with
      | Some o => Ok o
      | None => Err (KeyError group_name)
      end;
    match Options.__call__ group_options allowed_keywords override_kwargs with
    | Err (OptionError invalid_keyword allowed _ _) =>
        Err (OptionError invalid_keyword allowed (Some group_name) (Some path))
    | r => r
    end.

(** The values [__setattr__] is given here: a dictionary from group names
    to [Options], or one [Options] object. *)
Inductive setval : Type :=
| SetDict (d : gmap string Options.t)
| SetOptions (o : Options.t).

(** [OptionTree.__setattr__]; returns the node [self] with the new child. *)
Definition __setattr__ (self : t) (path : string) (identifier : string)
    (val : setval) : result t :=
  let identifier := sanitize_identifier identifier in
  group_items ←
    match val with
    | SetDict d => Ok d
    | SetOptions o =>
        match Options.key o with
        | None => Err (AttributeError
                         "Options object needs to have a group name specified.")
        | Some k => Ok {[ k := o ]}
        end
    end;
  current_node ←
    (if bool_decide (identifier ∈ children self)
     then __getitem__ self identifier else Ok (INode self));
  current_groups ← item_groups current_node;
  new_groups ←
    for_each
      (fun '(group_name, current) =>
         match group_items !! group_name with
         | Some options =>
             o ← _inherited_options self path identifier group_name options;
             Ok (group_name, o)
         | None => Ok (group_name, current)
         end)
      (map_to_list current_groups);
  match new_groups with
  | [] => Err (ValueError "OptionTree only accepts a dictionary of Options.")
  | _ :: _ =>
      let new_node :=
        Node (Some identifier) (dict_of_pairs new_groups) [] true in
      Ok (AttrTree_setattr self identifier new_node)
  end.

(** [OptionTree.__getattr__], which Python calls for an [identifier] that
    is no attribute of the node yet (the tree is not [fixed]): the node,
    with the child it may have created, the identifier the value is stored
    at, and the value. *)
Definition __getattr__ (self : t) (path : string) (identifier : string)
  : result (t * string * item) :=
  if String.prefix "_" identifier then Err (AttributeError identifier)
  else
    let valid_id := sanitize_identifier identifier in
    match assoc valid_id (nodes self) with
    | Some c => Ok (self, valid_id, INode c)
    | None =>
        self' ← __setattr__ self path identifier (SetDict (groups self));
        it ← __getitem__ self' identifier;
        Ok (self', identifier, it)
    end.

(** Reading the attribute [identifier] of a node: a child stored under that
    very name is found at once, anything else goes through [__getattr__]. *)
Definition getattr (self : t) (path : string) (identifier : string)
  : result (t * string * item) :=
  match assoc identifier (nodes self) with
  | Some c => Ok (self, identifier, INode c)
  | None => __getattr__ self path identifier
  end.

(** The statement [self.a1. ... .an.identifier = val].  The child reached
    through [a1] is changed in place; here the changed child is written
    back under the identifier it is stored at. *)
Fixpoint assign (ancestors : list t) (self : t) (attrs : list string)
    (identifier : string) (val : setval) : result t :=
  match attrs with
  | [] => __setattr__ self (path ancestors self) identifier val
  | a :: rest =>
      r ← getattr self (path ancestors self) a;
      match r with
      | (self', stored_at, INode c) =>
          c' ← assign (self' :: ancestors) c rest identifier val;
          Ok (AttrTree_setattr self' stored_at c')
      | (_, _, IOptions _) => Err (AttributeError identifier)
      end
  end.

(** [OptionTree.options]: the parent of [self] is the head of [ancestors]. *)
Fixpoint options (ancestors : list t) (self : t) (group : string)
  : result (option Options.t) :=
  match groups self !! group with
  | None => Ok None
  | Some own =>
      match ancestors with
      | [] => Ok (Some own)
      | parent :: up =>
          inherited ← options up parent group;
          match inherited with
          | None => Err (AttributeError "kwargs")
          | Some inherited =>
              Some <$> Options.__init__ None None
                         (dict_update (Options.kwargs inherited)
                                      (Options.kwargs own))
          end
      end
  end.

(** One round of the loop of [OptionTree.find]; [item] is the current node
    with its ancestors. *)
Definition find_step (st : list t * item) (child : string)
  : result (list t * item) :=
  match st.2 with
  | IOptions _ => Err (AttributeError "children")
  | INode node =>
      let escaped_child := sanitize_identifier child in
      let matching_children :=
        List.filter (fun c => endswith child c || endswith escaped_child c)
                    (children node) in
      let matching_children :=
        sorted (fun x y => - Z.of_nat (String.length x)
                           <? - Z.of_nat (String.length y))
               matching_children in
      match matching_children with
      | c :: _ => it ← __getitem__ node c; Ok (node :: st.1, it)
      | [] => Ok st
      end
  end.

Fixpoint find_loop (st : list t * item) (path : list string)
  : result (list t * item) :=
  match path with
  | [] => Ok st
  | child :: rest => st' ← find_step st child; find_loop st' rest
  end.

(** The [path] of [find]: a dotted string, or a sequence of segments. *)
Inductive path_arg : Type :=
| PathStr (s : string)
| PathSeq (l : list string).

(** [path.split('.') if isinstance(path, str) else list(path)] *)
Definition segments (path : path_arg) : list string :=
  match path with
  | PathStr s => split "." s
  | PathSeq l => l
  end.

(** [OptionTree.find(path, mode='node')]: the node found, with its
    ancestors. *)
Definition find (ancestors : list t) (self : t) (path : path_arg)
  : result (list t * item) :=
  find_loop (ancestors, INode self) (segments path).

(** [OptionTree.find(path, mode='path')] *)
Definition find_path (ancestors : list t) (self : t) (path : path_arg)
  : result string :=
  st ← find ancestors self path;
  match st.2 with
  | INode n => Ok (OptionTree.path st.1 n)
  | IOptions _ => Err (AttributeError "path")
  end.

(** [OptionTree.closest] on the three components of an object. *)
Definition closest (self : t) (components : list string) (group : string)
  : result (option Options.t) :=
  st ← find [] self (PathSeq components);
  match st.2 with
  | INode n => options st.1 n group
  | IOptions _ => Err (AttributeError "options")
  end.

End WithSanitizer.

(** [OptionTree(groups=groups)]: a root without items. *)
Definition __init__ (groups : gmap string Options.t) : t :=
  Node None groups [] true.

(** [OptionTree(items, groups=groups)]: a root with items, each a name and
    a dictionary of Options.  Modelled from the spec: the loop of
    [AttrTree.__init__], which is not part of the sources, stores every item
    under its name, as the assignment [self.name = item] does, while the
    tree does not yet count as constructed. *)
Definition __init__with_items (sanitize_identifier : string -> string)
    (items : list (string * gmap string Options.t))
    (groups : gmap string Options.t) : result t :=
  self ←
    foldl (fun acc (item : string * gmap string Options.t) =>
             self ← acc;
             __setattr__ sanitize_identifier self (path [] self) item.1
                         (SetDict item.2))
          (Ok (Node None groups [] false)) items;
  Ok (Node (identifier self) (OptionTree.groups self) (nodes self) true).

End OptionTree.

(** ** Elements and overlays *)

Module Element.

(** Modelled from the spec: the elements of core/element.py are not part of
    the sources.  An element has a type name ([type(el).__name__]), a group
    and a label, and data of its own. *)
Record t : Type := mk {
  type_name : string;
  group : string;
  label : string;
  data : value
}.

(** Modelled from the spec: [relabel(group=group)], the element under
    another group. *)
Definition relabel (self : t) (group : string) : t :=
  mk (type_name self) group (label self) (data self).

End Element.

Module Overlay.

(** Modelled from the spec: the [Overlay] class (core/overlay.py) is not
    part of the sources.  An overlay is an ordered sequence of elements,
    sliceable and reconstructible, with an optional identity number. *)
Record t : Type := mk {
  values : list Element.t;
  id : option Z
}.

(** Modelled from the spec: [Overlay.from_values], the overlay of a list
    of elements, in their order. *)
Definition from_values (val : list Element.t) : t := mk val None.

(** Modelled from the spec: [len(overlay)], the number of its elements. *)
Definition __len__ (self : t) : nat := length (values self).

(** The assignment [output.id = id]. *)
Definition set_id (self : t) (id : option Z) : t := mk (values self) id.

End Overlay.

(** ** Compositor *)

Module Compositor.

(** What an operation is applied to: an overlay, or a bare element. *)
Inductive operand : Type :=
| OfOverlay (o : Overlay.t)
| OfElement (e : Element.t).

(** An [ElementOperation]: an object with an identity ([op_id], what [==]
    compares), that can be called on an operand, or instantiated and asked
    to [process_element] with a key. *)
Record Operation : Type := {
  op_id : nat;
  op_call : operand -> value -> gmap string value -> Element.t;
  op_process_element :
    value -> gmap string value -> operand -> value -> Element.t
}.

(** A compositor; [_pattern_spec] is the parsed pattern, one non-empty
    tuple of names (the first name, and the others) per element; [mode] is
    ['data'] or ['display']. *)
Record t : Type := mk {
  mode : string;
  operation : Operation;
  pattern : string;
  group : string;
  kwargs : gmap string value;
  _pattern_spec : list (string * list string);
  label : string
}.

(** The class attributes [definitions] and [operations]. *)
Record registry : Type := {
  definitions : list t;
  operations : list Operation
}.

Definition empty_registry : registry :=
  {| definitions := []; operations := [] |}.

(** [l.index(x)] *)
Fixpoint index (x : string) (l : list string) : option nat :=
  match l with
  | [] => None
  | y :: l' => if String.eqb x y then Some 0%nat else S <$> index x l'
  end.

(** [Compositor.register] *)
Definition register (cls : registry) (compositor : t) : registry :=
  let defined_groups := map group (definitions cls) in
  let definitions1 :=
    if bool_decide (group compositor ∈ defined_groups) then
      match index (group compositor) defined_groups with
      | Some i => delete i (definitions cls)
      | None => definitions cls
      end
    else definitions cls in
  let definitions2 := definitions1 ++ [compositor] in
  let operations1 :=
    if negb (existsb (fun o => Nat.eqb (op_id (operation compositor)) (op_id o))
                     (operations cls))
    then operations cls ++ [operation compositor]
    else operations cls in
  {| definitions := definitions2; operations := operations1 |}.

(** The tuple of the names of one element of a pattern:
    [tuple(el.strip() for el in path.strip().split('.'))]. *)
Definition path_tuple (path : string) : string * list string :=
  match map strip (split "." (strip path)) with
  | first :: others => (first, others)
  | [] => (EmptyString, [])
  end.

(** [Compositor.__init__(pattern, operation, group, mode, **kwargs)] *)
Definition __init__ (pattern : string) (operation : Operation)
    (group mode : string) (kwargs : gmap string value) : result t :=
  let _pattern_spec := map path_tuple (split "*" pattern) in
  let labels :=
    omap (fun spec : string * list string =>
            match spec.2 with
            | [_; l] => Some l
            | _ => None
            end) _pattern_spec in
  match labels with
  | l0 :: _ :: _ =>
      if forallb (String.eqb l0) labels
      then Ok (mk mode operation pattern group kwargs _pattern_spec "")
      else Err (KeyError "Mismatched labels not allowed in compositor patterns")
  | [l] => Ok (mk mode operation pattern group kwargs _pattern_spec l)
  | [] => Ok (mk mode operation pattern group kwargs _pattern_spec "")
  end.

(** A match: the level, the compositor and the slice. *)
Definition match_tuple : Type := nat * t * option (nat * nat).

Section WithRuntime.

(** [sanitize_identifier(_, escape=False)] of core/util.py. *)
Variable sanitize_identifier : string -> string.

(** How the runtime orders two match tuples of the same level: by their
    compositor objects and then their slices. *)
Variable rest_lt : t * option (nat * nat) -> t * option (nat * nat) -> bool.

(** The body of the loop of [Compositor._slice_match_level] for one pair:
    the increment of the level, or [None]. *)
Definition spec_match_level (spec : string * list string) (el : Element.t)
  : option nat :=
  if negb (String.eqb spec.1 (Element.type_name el)) then None
  else
    match spec.2 with
    | [] => Some 1%nat
    | spec1 :: others =>
        let group := [Element.group el;
                      sanitize_identifier (Element.group el)] in
        if bool_decide (spec1 ∈ group) then
          match others with
          | [spec2] =>
              let group := [Element.label el;
                            sanitize_identifier (Element.label el)] in
              if bool_decide (spec2 ∈ group) then Some 3%nat else None
          | _ => Some 2%nat
          end
        else None
    end.

Fixpoint _slice_match_level_loop (level : nat)
    (pairs : list ((string * list string) * Element.t)) : option nat :=
  match pairs with
  | [] => Some level
  | (spec, el) :: rest =>
      match spec_match_level spec el with
      | None => None
      | Some n => _slice_match_level_loop (level + n) rest
      end
  end.

(** [Compositor._slice_match_level] *)
Definition _slice_match_level (self : t) (overlay_items : list Element.t)
  : option nat :=
  _slice_match_level_loop 0 (zip (_pattern_spec self) overlay_items).

(** One round of the loop of [Compositor.match_level]. *)
Definition match_level_step (self : t) (overlay : Overlay.t)
    (slice_width : nat) (st : nat * option (nat * nat)) (i : nat)
  : nat * option (nat * nat) :=
  let overlay_slice := slice i (i + slice_width) (Overlay.values overlay) in
  match _slice_match_level self overlay_slice with
  | None => st
  | Some lvl =>
      if (st.1 <? lvl)%nat then (lvl, Some (i, (i + slice_width)%nat)) else st
  end.

(** [Compositor.match_level] *)
Definition match_level (self : t) (overlay : Overlay.t)
  : option (nat * option (nat * nat)) :=
  let slice_width := length (_pattern_spec self) in
  if (Overlay.__len__ overlay <? slice_width)%nat then None
  else
    let st :=
      foldl (match_level_step self overlay slice_width) (0%nat, None)
            (seq 0 (Overlay.__len__ overlay - slice_width + 1)) in
    if negb (Nat.eqb st.1 0) then Some st else None.

(** Tuples compare by their first components when these differ. *)
Definition match_lt (a b : match_tuple) : bool :=
  if Nat.eqb a.1.1 b.1.1 then rest_lt (a.1.2, a.2) (b.1.2, b.2)
  else (a.1.1 <? b.1.1)%nat.

(** The list [matches] of [Compositor.strongest_match]. *)
Definition matches (definitions : list t) (overlay : Overlay.t)
    (mode : string) : list match_tuple :=
  let match_strength :=
    map (fun op => (match_level op overlay, op))
        (List.filter (fun op => String.eqb (Compositor.mode op) mode)
                     definitions) in
  omap (fun mo : option (nat * option (nat * nat)) * t =>
          m ← mo.1; Some (m.1, mo.2, m.2)) match_strength.

(** [Compositor.strongest_match] *)
Definition strongest_match (definitions : list t) (overlay : Overlay.t)
    (mode : string) : option match_tuple :=
  match matches definitions overlay mode with
  | [] => None
  | ms => head (sorted match_lt ms)
  end.

(** [Compositor.apply] *)
Definition apply (self : t) (val : Overlay.t) (input_ranges : value)
    (key : option value) : Element.t :=
  let val :=
    match Overlay.values val with
    | [e] => OfElement e
    | _ => OfOverlay val
    end in
  match key with
  | None => op_call (operation self) val input_ranges (kwargs self)
  | Some key =>
      op_process_element (operation self) input_ranges (kwargs self) val key
  end.

(** [Compositor.collapse_element] *)
Definition collapse_element (definitions : list t) (overlay : Overlay.t)
    (key : option value) (ranges : value) (mode : string)
  : result Overlay.t :=
  match strongest_match definitions overlay mode with
  | None => Ok overlay
  | Some (_, applicable_op, Some (start, stop)) =>
      let values := Overlay.values overlay in
      let sliced := Overlay.from_values (slice start stop values) in
      let result := apply applicable_op sliced ranges key in
      let result := Element.relabel result (group applicable_op) in
      let output :=
        Overlay.from_values (take start values ++ [result] ++ drop stop values) in
      Ok (Overlay.set_id output (Overlay.id overlay))
  | Some (_, _, None) => Err (TypeError "'NoneType' object is not iterable")
  end.

End WithRuntime.

End Compositor.

(** ** Palette *)

Module Palette.

Section WithNumbers.

(** The numbers of a range, with the two of the default range [(0, 1)],
    and [np.linspace], the default of [sample_fn]; a sampling function
    returns the samples or raises. *)
Variable num : Type.
Variables zero one : num.
Variable linspace : num -> num -> Z -> result (list num).

Record t : Type := mk {
  key : string;
  values : list value;
  range : num * num;
  samples : Z;
  sample_fn : num -> num -> Z -> result (list num);
  reverse : bool
}.

(** [Palette._get_values]; [colormaps] is the class attribute. *)
Definition _get_values (colormaps : gmap string (num -> value)) (self : t)
  : result (list value) :=
  match colormaps !! key self with
  | None => Err (KeyError (key self))
  | Some cmap =>
      let '(start, stop) := range self in
      let steps := samples self in
      ns ← sample_fn self start stop steps;
      let samples := map cmap ns in
      Ok (if reverse self then rev samples else samples)
  end.

(** [Palette.__init__(key, **params)]: the parameters that are not given
    take their defaults; the values are computed whatever [values] was
    given. *)
Definition __init__ (colormaps : gmap string (num -> value)) (key : string)
    (values : option (list value)) (range : option (num * num))
    (samples : option Z)
    (sample_fn : option (num -> num -> Z -> result (list num)))
    (reverse : option bool) : result t :=
  let self :=
    mk key (default [] values) (default (zero, one) range)
       (default 32 samples) (default linspace sample_fn)
       (default false reverse) in
  vs ← _get_values colormaps self;
  let 'mk _ _ self_range self_samples self_sample_fn self_reverse := self in
  Ok (mk key vs self_range self_samples self_sample_fn self_reverse).

(** [Cycle.__call__], which [Palette] inherits, called with the keywords
    [range] and [samples]: the parameters of [self], overridden by the
    given ones. *)
Definition __call__ (colormaps : gmap string (num -> value)) (self : t)
    (values : option (list value)) (range : option (num * num))
    (samples : option Z) : result t :=
  let 'mk self_key self_values self_range self_samples self_sample_fn
          self_reverse := self in
  let values :=
    match values with
    | Some ((_ :: _) as vs) => vs
    | _ => self_values
    end in
  __init__ colormaps self_key (Some values)
    (Some (default self_range range)) (Some (default self_samples samples))
    (Some self_sample_fn) (Some self_reverse).

(** What a Palette is indexed by: a slice or an integer. *)
Inductive index : Type :=
| Slice (start stop : option num) (step : option Z)
| Index (n : Z).

(** [Palette.__getitem__(slc)] *)
Definition __getitem__ (colormaps : gmap string (num -> value)) (self : t)
    (slc : index) : result t :=
  let '(start, stop) := range self in
  let step := samples self in
  let '(start, stop, step) :=
    match slc with
    | Slice slc_start slc_stop slc_step =>
        (default start slc_start, default stop slc_stop,
         default step slc_step)
    | Index n => (start, stop, n)
    end in
  __call__ colormaps self None (Some (start, stop)) (Some step).

End WithNumbers.

End Palette.

(** ** Store *)

Module Store.

(** The class attributes of the Store that the lookups read. *)
Record t : Type := mk {
  options : OptionTree.t;
  custom_options : gmap Z OptionTree.t
}.

(** Modelled from the spec: what the lookups read of an object, the name
    of its class, its group and label, and its [id], the identity of its
    custom tree or [None]. *)
Record obj : Type := {
  class_name : string;
  group : string;
  label : string;
  id : option Z
}.

Section WithSanitizer.

Variable sanitize_identifier : string -> string.

(** [Store.lookup_options] *)
Definition lookup_options (cls : t) (obj : Store.obj) (group : string)
  : result (option Options.t) :=
  let components := [class_name obj; Store.group obj; label obj] in
  match id obj with
  | None =>
      OptionTree.closest sanitize_identifier (options cls) components group
  | Some i =>
      match custom_options cls !! i with
      | Some tree =>
          OptionTree.closest sanitize_identifier tree components group
      | None =>
          Err (KeyError ("No custom settings defined for object with id "
                         +:+ str i))
      end
  end.

End WithSanitizer.

(** [Store.lookup]; [traversed] is the list [obj.traverse(lambda x: x.id)]
    of the ids of the object and of what it contains. *)
Definition lookup (cls : t) (traversed : list (option Z))
  : result OptionTree.t :=
  let ids : gset Z := list_to_set (omap (fun el => el) traversed) in
  if Nat.eqb (size ids) 0 then
    Err (Exception "Object does not own a custom options tree")
  else if negb (Nat.eqb (size ids) 1) then
    let idlist := String.concat "," (map str (sorted Z.ltb (elements ids))) in
    Err (Exception ("Object contains elements combined across "
                    +:+ "multiple custom trees (ids " +:+ idlist +:+ ")"))
  else
    match elements ids with
    | i :: _ =>
        match custom_options cls !! i with
        | Some tree => Ok tree
        | None => Err (KeyError (str i))
        end
    | [] => Err (Exception "IndexError")
    end.

(** A plotting class: the names of its parameters, [plot.params().keys()],
    and its attribute [style_opts], when it has one. *)
Record plot_class : Type := {
  params : list string;
  style_opts : option (list string)
}.

(** An item of [Store.defaults]: the name of the element class, what
    [isinstance(view_class, CompositeOverlay)] gives for it, and its
    plotting class. *)
Record default_item : Type := {
  name : string;
  isinstance_CompositeOverlay : bool;
  plot : plot_class
}.

(** The body of the loop of [Store.register_plots]: the name and the
    [opt_groups] of one item. *)
Definition opt_groups (item : default_item)
  : result (string * gmap string Options.t) :=
  let name := Store.name item in
  let plot_opts :=
    List.filter (fun k => negb (bool_decide (k ∈ ["name"])))
                (params (plot item)) in
  style_opts ←
    match Store.style_opts (plot item) with
    | Some l => Ok l
    | None => Err (AttributeError "style_opts")
    end;
  plot_options ← Options.__init__ None (Some plot_opts) ∅;
  let opt_groups : gmap string Options.t := {[ "plot" := plot_options ]} in
  let hasattr_style_opts :=
    match Store.style_opts (plot item) with
    | Some _ => true
    | None => false
    end in
  if negb (isinstance_CompositeOverlay item) || hasattr_style_opts then
    style_options ← Options.__init__ None (Some style_opts) ∅;
    norm_options ←
      Options.__init__ None (Some ["framewise"; "axiswise"])
        {[ "framewise" := VBool false; "axiswise" := VBool false ]};
    Ok (name,
        dict_update opt_groups
          {[ "style" := style_options; "norm" := norm_options ]})
  else Ok (name, opt_groups).

(** [Store.register_plots]; [defaults] lists the items of [Store.defaults]
    in the order of the dictionary; the tree returned is the new
    [Store.options].  The sorted items have different names, which decide
    their order. *)
Definition register_plots (sanitize_identifier : string -> string)
    (defaults : list default_item) : result OptionTree.t :=
  path_items ← for_each opt_groups defaults;
  let path_items := dict_of_pairs path_items in
  style ← Options.__init__ None None ∅;
  plot ← Options.__init__ None None ∅;
  norm ← Options.__init__ None None ∅;
  OptionTree.__init__with_items sanitize_identifier
    (sorted (fun a b : string * gmap string Options.t => String.ltb a.1 b.1)
            (map_to_list path_items))
    {[ "style" := style; "plot" := plot; "norm" := norm ]}.

End Store.

(** * The tables ([holoviews/view/tabular.py]) *)

Module ItemTable.

Section WithDimensions.

(** The [Dimension] objects of core/dimension.py. *)
Variable Dimension : Type.

(** The attributes of an [ItemTable] that [cell_value] reads: the number
    [ndims] of its dimensions, the ordered dictionary [dim_dict] from the
    headings to their dimensions, and the dictionary [data]. *)
Record t : Type := mk {
  ndims : Z;
  dim_dict : list (string * Dimension);
  data : gmap string value
}.

(** The [rows] and [cols] properties. *)
Definition rows (self : t) : Z := ndims self.
Definition cols (self : t) : Z := 2.

(** A cell holds a dimension or a value. *)
Inductive cell : Type :=
| OfDimension (d : Dimension)
| OfValue (v : value).

(** [l[i]] for an integer [i]: a negative index counts from the end. *)
Definition list_getitem {A} (l : list A) (i : Z) : result A :=
  let n := Z.of_nat (length l) in
  let j := if i <? 0 then i + n else i in
  if (j <? 0) || (n <=? j) then Err (Exception "IndexError")
  else
    match l !! Z.to_nat j with
    | Some a => Ok a
    | None => Err (Exception "IndexError")
    end.

(** [ItemTable.cell_value(row, col)].  In the second branch the message is
    formatted first and [1] is subtracted from the string, which raises. *)
Definition cell_value (self : t) (row col : Z) : result cell :=
  if 2 <? col then
    Err (Exception "Only two columns available in a ItemTable.")
  else if rows self <=? row then
    Err (TypeError "unsupported operand type(s) for -: 'str' and 'int'")
  else if col =? 0 then
    OfDimension <$> list_getitem (dim_dict self).*2 row
  else
    heading ← list_getitem (dim_dict self).*1 row;
    match data self !! heading with
    | Some v => Ok (OfValue v)
    | None => Err (KeyError heading)
    end.

(** [ItemTable.cell_type(row, col)] *)
Definition cell_type (self : t) (row col : Z) : string :=
  if col =? 0 then "heading" else "data".

End WithDimensions.

End ItemTable.

Module Table.

(** The last index of a Table: a slice over the column names, or one
    name. *)
Inductive index : Type :=
| Slice (start stop : option string) (step : option Z)
| Name (name : string).

(** A bound of a slice used as a condition: [None] and the empty string
    are false. *)
Definition bound (b : option string) : option string :=
  match b with
  | Some ((String _ _) as s) => Some s
  | _ => None
  end.

(** [Table._filter_columns(index, col_names)]; the message of the first
    [KeyError] holds the [repr] of the name, written here for a name
    without quotes or escapes. *)
Definition _filter_columns (index : Table.index) (col_names : list string)
  : result (list string) :=
  cols ←
    match index with
    | Slice start stop step =>
        let cols := sorted String.ltb col_names in
        let cols :=
          match bound start with
          | Some start => List.filter (fun col => String.ltb start col) cols
          | None => cols
          end in
        let cols :=
          match bound stop with
          | Some stop => List.filter (fun col => String.ltb col stop) cols
          | None => cols
          end in
        Ok (match step with
            | Some step => if step =? 0 then cols else slice_step step cols
            | None => cols
            end)
    | Name name =>
        if bool_decide (name ∉ col_names) then
          Err (KeyError ("No column with dimension label '" +:+ name +:+ "'"))
        else Ok [name]
    end;
  match cols with
  | [] => Err (KeyError "No columns selected in the given slice")
  | _ :: _ => Ok cols
  end.

(** [Table.cell_type(row, col)] *)
Definition cell_type (row col : Z) : string :=
  if row =? 0 then "heading" else "data".

End Table.

(** * The vocabulary of the properties *)

(** ** Cycle and Options *)

(** The spec's [ConfigurationError] is what [_get_values] raises: the
    [ValueError] of the last branch, or the [KeyError] of the catalog
    lookup. *)
Definition ConfigurationError (e : exn) : Prop :=
  match e with
  | ValueError _ | KeyError _ => True
  | _ => False
  end.

(** The keywords an allow-list accepts: all of them when the list is [None]
    or empty. *)
Definition accepted (allowed : option (list string))
    (kwargs : gmap string value) : Prop :=
  Options.truthy allowed = true →
  ∀ k, is_Some (kwargs !! k) → k ∈ default [] allowed.

(** The Cycle-valued items of a dictionary, as [_expand_options] lists
    them. *)
Definition filter_cycles (kwargs : gmap string value)
  : list (string * Cycle.t) :=
  omap (fun kv : string * value => c ← Cycle.of_value kv.2; Some (kv.1, c))
       (map_to_list kwargs).

(** The value of the keyword [k] in the [i]-th expanded dictionary. *)
Definition value_at (i : nat) (v : value) : option value :=
  match v with
  | VCycle _ values => values !! i
  | _ => Some v
  end.

(** An example: two Cycles of three and of two values, and one static
    keyword. *)
Definition example_kwargs : gmap string value :=
  {[ "color" := VCycle "" [VStr "r"; VStr "g"; VStr "b"];
     "marker" := VCycle "" [VStr "o"; VStr "x"];
     "lw" := VInt 2 ]}.

Definition example_options : Options.t :=
  Options.mk None None example_kwargs (Options._expand_options example_kwargs).

(** ** Compositor *)

(** The distinct elements of a list, each at the place of its first
    occurrence. *)
Fixpoint first_seen (l : list nat) : list nat :=
  match l with
  | [] => []
  | x :: l' => x :: filter (fun y => y ≠ x) (first_seen l')
  end.

(** The group labels and the operation identities of a registry. *)
Definition groups_of (defs : list Compositor.t) : list string :=
  map Compositor.group defs.

Definition ids_of (ops : list Compositor.Operation) : list nat :=
  map Compositor.op_id ops.

Definition other_group (g : string) (d : Compositor.t) : Prop :=
  Compositor.group d ≠ g.

(** The registry after the calls [register(c)] for the [c] of a list, in
    order, starting from the empty class attributes. *)
Definition registered (cs : list Compositor.t) : Compositor.registry :=
  foldl Compositor.register Compositor.empty_registry cs.


(** What the loop of [match_level] maintains: no level and no slice yet, or
    a positive level and the window, inside the overlay, that has it. *)
Definition window_state (sanitize_identifier : string → string)
    (self : Compositor.t) (overlay : Overlay.t)
    (st : nat * option (nat * nat)) : Prop :=
  (st = (0%nat, None))
  ∨ (0 < st.1)%nat
    ∧ ∃ i, st.2 = Some (i, (i + length (Compositor._pattern_spec self))%nat)
           ∧ (i + length (Compositor._pattern_spec self)
              ≤ length (Overlay.values overlay))%nat
           ∧ Compositor._slice_match_level sanitize_identifier self
               (slice i (i + length (Compositor._pattern_spec self))
                      (Overlay.values overlay)) = Some st.1.

(** An example: the pattern [Image.R * Image.G * Image.B], with an
    operation that gathers the data of its operand, and an overlay of a
    curve and the three channels. *)
Definition channel (group : string) (n : Z) : Element.t :=
  Element.mk "Image" group "" (VInt n).

Definition operand_data (v : Compositor.operand) : list value :=
  match v with
  | Compositor.OfOverlay o => map Element.data (Overlay.values o)
  | Compositor.OfElement e => [Element.data e]
  end.

Definition rgb_operation : Compositor.Operation :=
  {| Compositor.op_id := 1;
     Compositor.op_call := fun v _ _ =>
       Element.mk "RGB" "Image" "" (VList (operand_data v));
     Compositor.op_process_element := fun _ _ v _ =>
       Element.mk "RGB" "Image" "" (VList (operand_data v)) |}.

Definition rgb_compositor : Compositor.t :=
  Compositor.mk "data" rgb_operation "Image.R * Image.G * Image.B" "RGB" ∅
    [("Image", ["R"]); ("Image", ["G"]); ("Image", ["B"])] "".

Definition rgb_overlay : Overlay.t :=
  Overlay.mk [Element.mk "Curve" "Curve" "" VNone;
              channel "R" 1; channel "G" 2; channel "B" 3]
             (Some 7).

(** A second compositor, for any [Image], of the same mode. *)
Definition image_operation : Compositor.Operation :=
  {| Compositor.op_id := 2;
     Compositor.op_call := fun v _ _ =>
       Element.mk "Image" "Image" "" (VList (operand_data v));
     Compositor.op_process_element := fun _ _ v _ =>
       Element.mk "Image" "Image" "" (VList (operand_data v)) |}.

Definition image_compositor : Compositor.t :=
  Compositor.mk "data" image_operation "Image" "Any" ∅ [("Image", [])] "".

(** The parameters of the examples: a sanitizer that changes nothing, and
    a runtime in which no tuple is less than another of the same level. *)
Definition no_sanitizer (s : string) : string := s.

Definition unordered
    (a b : Compositor.t * option (nat * nat)) : bool := false.

(** ** OptionTree *)

(** An Options object without allow-list and group name. *)
Definition plain (kwargs : gmap string value) : Options.t :=
  Options.mk None None kwargs (Options._expand_options kwargs).

(** The node whose Options an assignment to [identifier] starts from: the
    child of that name when there is one, the node itself otherwise. *)
Definition current_node (self : OptionTree.t) (identifier : string)
  : OptionTree.t :=
  default self (OptionTree.assoc identifier (OptionTree.nodes self)).

(** The step of the loop of [__setattr__] for one group. *)
Definition new_group (self : OptionTree.t) (path identifier : string)
    (group_items : gmap string Options.t) (kv : string * Options.t)
  : result (string * Options.t) :=
  match group_items !! kv.1 with
  | Some options =>
      o ← OptionTree._inherited_options self path identifier kv.1 options;
      Ok (kv.1, o)
  | None => Ok (kv.1, kv.2)
  end.

(** The value of the keyword [k] for a group along a chain of nodes,
    nearest node first: that of the first node whose Options for the group
    define the keyword. *)
Fixpoint inherited_value (chain : list OptionTree.t) (group k : string)
  : option value :=
  match chain with
  | [] => None
  | n :: up =>
      match OptionTree.groups n !! group ≫= (fun o => Options.kwargs o !! k)
      with
      | Some v => Some v
      | None => inherited_value up group k
      end
  end.

(** An example: a root with the one group [plot]. *)
Definition plot_root : OptionTree.t :=
  OptionTree.__init__ {[ "plot" := plain ∅ ]}.

Definition set_plot (kwargs : gmap string value) : OptionTree.setval :=
  OptionTree.SetDict {[ "plot" := plain kwargs ]}.

(** The value of a result that is not an exception. *)
Definition value_of {A} (d : A) (r : result A) : A :=
  match r with Ok a => a | Err _ => d end.

(** The tree after [root.A = {'plot': Options(x=1)}] and then after
    [root.A.B = {'plot': Options(y=2)}]. *)
Definition tree_A : OptionTree.t :=
  value_of plot_root
    (OptionTree.assign no_sanitizer [] plot_root [] "A"
       (set_plot {[ "x" := VInt 1 ]})).

Definition tree_AB : OptionTree.t :=
  value_of tree_A
    (OptionTree.assign no_sanitizer [] tree_A ["A"] "B"
       (set_plot {[ "y" := VInt 2 ]})).

Definition node_A : OptionTree.t :=
  value_of plot_root (OptionTree.AttrTree_getitem tree_AB "A").

Definition node_AB : OptionTree.t :=
  value_of plot_root (OptionTree.AttrTree_getitem node_A "B").

(** For every group, the Options [new] of the assigned child against the
    Options [current] that the assignment started from and the assigned
    dictionary [d]. *)
Definition merged_into (current d new : gmap string Options.t) : Prop :=
  ∀ g,
    match current !! g with
    | None => new !! g = None
    | Some co =>
        match d !! g with
        | None => new !! g = Some co
        | Some o =>
            ∃ o', new !! g = Some o'
                  ∧ Options.kwargs o' = Options.kwargs o ∪ Options.kwargs co
        end
    end.

(** The name [c] of a child matches a segment of a path when it is a
    suffix of the segment or of the sanitized segment. *)
Definition suffix_match (sanitize_identifier : string → string)
    (segment c : string) : Prop :=
  (∃ p, segment = p +:+ c) ∨ (∃ p, sanitize_identifier segment = p +:+ c).

(** The greedy walk of the spec: at every segment, down into a child with
    a longest matching name, or on the spot when no child matches. *)
Inductive greedy_walk (sanitize_identifier : string → string)
  : OptionTree.t → list string → OptionTree.t → Prop :=
| walk_done n : greedy_walk sanitize_identifier n [] n
| walk_skip n segment rest n' :
    (∀ c, c ∈ OptionTree.children n →
          ¬ suffix_match sanitize_identifier segment c) →
    greedy_walk sanitize_identifier n rest n' →
    greedy_walk sanitize_identifier n (segment :: rest) n'
| walk_descend n segment rest c child n' :
    OptionTree.assoc c (OptionTree.nodes n) = Some child →
    suffix_match sanitize_identifier segment c →
    (∀ c', c' ∈ OptionTree.children n →
           suffix_match sanitize_identifier segment c' →
           (String.length c' ≤ String.length c)%nat) →
    greedy_walk sanitize_identifier child rest n' →
    greedy_walk sanitize_identifier n (segment :: rest) n'.

(** No child, anywhere in the tree, goes by the name of a group of its
    parent. *)
Fixpoint no_shadowing (t : OptionTree.t) : Prop :=
  let 'OptionTree.Node _ groups nodes _ := t in
  (∀ c, c ∈ nodes.*1 → groups !! c = None)
  ∧ (fix all (l : list (string * OptionTree.t)) : Prop :=
       match l with
       | [] => True
       | (_, n) :: l' => no_shadowing n ∧ all l'
       end) nodes.

(** The test of the list comprehension of [find]. *)
Definition matching (sanitize_identifier : string → string)
    (segment c : string) : bool :=
  endswith segment c || endswith (sanitize_identifier segment) c.

(** The key of the sort of [find]. *)
Definition by_length (x y : string) : bool :=
  - Z.of_nat (String.length x) <? - Z.of_nat (String.length y).

(** A tree of the three groups of the Store whose only child is [Image]. *)
Definition store_root : OptionTree.t :=
  OptionTree.__init__
    {[ "plot" := plain ∅; "style" := plain ∅; "norm" := plain ∅ ]}.

Definition image_tree : OptionTree.t :=
  value_of store_root
    (OptionTree.assign no_sanitizer [] store_root [] "Image"
       (set_plot {[ "cmap" := VStr "gray" ]})).

Definition image_node : OptionTree.t :=
  value_of store_root (OptionTree.AttrTree_getitem image_tree "Image").

(** A tree with a group [Plot] and, after [root.Plot = {'Plot':
    Options(x=1)}], a child [Plot]. *)
Definition shadow_root : OptionTree.t :=
  OptionTree.__init__ {[ "Plot" := plain ∅ ]}.

Definition shadow_tree : OptionTree.t :=
  value_of shadow_root
    (OptionTree.assign no_sanitizer [] shadow_root [] "Plot"
       (OptionTree.SetDict {[ "Plot" := plain {[ "x" := VInt 1 ]} ]})).

(** ** Further vocabulary *)

(** A keyword value with its Cycle cut down to its first [n] values. *)
Definition truncated (n : nat) (v : value) : value :=
  match v with
  | VCycle key values => VCycle key (take n values)
  | _ => v
  end.


(** An Options object that [Options.__init__] has returned. *)
Definition constructed (o : Options.t) : Prop :=
  ∃ key allowed kwargs, Options.__init__ key allowed kwargs = Ok o.

(** An example: a root whose one group [style] allows the keyword
    [color] only, and an Options object of that group with another
    keyword. *)
Definition style_root : OptionTree.t :=
  OptionTree.__init__ {[ "style" := Options.mk (Some ["color"]) None ∅ [∅] ]}.

Definition bogus_style : Options.t :=
  Options.mk None (Some "style") {[ "bogus" := VInt 1 ]}
             [ {[ "bogus" := VInt 1 ]} ].

(** Every node of a tree, the tree itself included, defines the group. *)
Fixpoint defined_everywhere (group : string) (t : OptionTree.t) : Prop :=
  let 'OptionTree.Node _ groups nodes _ := t in
  is_Some (groups !! group)
  ∧ (fix all (l : list (string * OptionTree.t)) : Prop :=
       match l with
       | [] => True
       | (_, n) :: l' => defined_everywhere group n ∧ all l'
       end) nodes.

(** ** Compositor: levels and windows *)

(** The level that one tuple of a pattern adds when it matches: the number
    of its names that are compared, the type and the group and, when it has
    exactly three names, the label. *)
Definition spec_weight (spec : string * list string) : nat :=
  match spec.2 with
  | [] => 1
  | [_; _] => 3
  | _ => 2
  end.

(** The level of a pattern. *)
Definition pattern_level (self : Compositor.t) : nat :=
  list_sum (map spec_weight (Compositor._pattern_spec self)).

(** The [i]-th window of an overlay, as wide as the pattern, and whether it
    matches the pattern. *)
Definition window (self : Compositor.t) (overlay : Overlay.t) (i : nat)
  : list Element.t :=
  slice i (i + length (Compositor._pattern_spec self)) (Overlay.values overlay).

Definition window_matches (sanitize_identifier : string → string)
    (self : Compositor.t) (overlay : Overlay.t) (i : nat) : Prop :=
  is_Some (Compositor._slice_match_level sanitize_identifier self
             (window self overlay i)).


(** ** Tables *)

(** A column name lies between the bounds of a slice when it is above the
    start and below the stop, each of them when it is given and not
    empty. *)
Definition between (start stop : option string) (col : string) : Prop :=
  (∀ s, Table.bound start = Some s → String.ltb s col = true)
  ∧ (∀ s, Table.bound stop = Some s → String.ltb col s = true).

(** The columns of a slice before the step is taken. *)
Definition columns_between (start stop : option string)
    (col_names : list string) : list string :=
  let cols := sorted String.ltb col_names in
  let cols :=
    match Table.bound start with
    | Some start => List.filter (fun col => String.ltb start col) cols
    | None => cols
    end in
  match Table.bound stop with
  | Some stop => List.filter (fun col => String.ltb col stop) cols
  | None => cols
  end.

(** ** Palettes *)

(** An example over the integers: a sampling function that gives the two
    bounds and the number of samples asked for, the colormap [grayscale],
    and the Palette constructed with the defaults. *)
Definition example_sample_fn (start stop steps : Z) : result (list Z) :=
  Ok [start; stop; steps].

Definition example_colormaps : gmap string (Z → value) :=
  {[ "grayscale" := fun val => VList [VInt val; VInt val; VInt val; VInt 1] ]}.

Definition example_palette : Palette.t Z :=
  Palette.mk Z "grayscale"
    [VList [VInt 0; VInt 0; VInt 0; VInt 1];
     VList [VInt 1; VInt 1; VInt 1; VInt 1];
     VList [VInt 32; VInt 32; VInt 32; VInt 1]]
    (0, 1) 32 example_sample_fn false.

(** ** Store: the registered plots *)

(** The allow-list that [Options.__init__] stores for a list. *)
Definition stored_keywords (l : list string) : option (list string) :=
  if Options.truthy (Some l) then Some (sorted String.ltb l) else None.

(** The Options without keywords that allow the keywords of a list. *)
Definition allowing (l : list string) : Options.t :=
  Options.mk (stored_keywords l) None ∅ [∅].

(** The defaults of the normalization. *)
Definition norm_defaults : gmap string value :=
  {[ "framewise" := VBool false; "axiswise" := VBool false ]}.

(** The groups of the node of a registered type whose plotting class has
    the style keywords [style_opts]. *)
Definition registered_groups (item : Store.default_item)
    (style_opts : list string) : gmap string Options.t :=
  {[ "plot" :=
       allowing (List.filter (fun k => negb (bool_decide (k ∈ ["name"])))
                             (Store.params (Store.plot item)));
     "style" := allowing style_opts;
     "norm" :=
       Options.mk (Some ["axiswise"; "framewise"]) None norm_defaults
                  [norm_defaults] ]}.

(** The groups of the root of the global tree. *)
Definition store_groups : gmap string Options.t :=
  {[ "style" := plain ∅; "plot" := plain ∅; "norm" := plain ∅ ]}.

(** The node of a registered type. *)
Definition registered_node (sanitize_identifier : string → string)
    (item : Store.default_item) (style_opts : list string) : OptionTree.t :=
  OptionTree.Node (Some (sanitize_identifier (Store.name item)))
                  (registered_groups item style_opts) [] true.

(** The style keywords of the plotting class of an item, and the item of
    [path_items] that [register_plots] makes of it. *)
Definition style_opts_of (item : Store.default_item) : list string :=
  default [] (Store.style_opts (Store.plot item)).

Definition path_item (item : Store.default_item)
  : string * gmap string Options.t :=
  (Store.name item, registered_groups item (style_opts_of item)).

(** An example: an element class with style keywords, and a composite
    class whose plotting class has only the parameter [name] and an empty
    list of style keywords. *)
Definition example_defaults : list Store.default_item :=
  [ {| Store.name := "Image";
       Store.isinstance_CompositeOverlay := false;
       Store.plot := {| Store.params := ["name"; "colorbar"];
                        Store.style_opts := Some ["cmap"; "alpha"] |} |};
    {| Store.name := "Overlay";
       Store.isinstance_CompositeOverlay := true;
       Store.plot := {| Store.params := ["name"];
                        Store.style_opts := Some [] |} |} ].

(** * Properties *)

(** ** The builtins *)

Section SortedFacts.
Context {A : Type} (lt : A -> A -> bool).

Lemma insert_sorted_perm (x : A) (l : list A) :
  insert_sorted lt x l ≡ₚ x :: l.
Proof.
  induction l as [|y l IH]; simpl; [done|].
  destruct (lt y x); [|done].
  rewrite IH. apply Permutation_swap.
Qed.

Lemma sorted_perm (l : list A) : sorted lt l ≡ₚ l.
Proof.
  induction l as [|x l IH]; simpl; [done|].
  rewrite insert_sorted_perm. by f_equiv.
Qed.

Lemma sorted_elem_of (x : A) (l : list A) : x ∈ sorted lt l ↔ x ∈ l.
Proof. by rewrite sorted_perm. Qed.

Lemma sorted_length (l : list A) : length (sorted lt l) = length l.
Proof. by rewrite sorted_perm. Qed.

Lemma sorted_nil_inv (l : list A) : sorted lt l = [] → l = [].
Proof.
  intros H. apply nil_length_inv. rewrite <- sorted_length, H. done.
Qed.

(** When [lt] refines a strict comparison of keys, the head of the sorted
    list has a least key. *)
Lemma insert_sorted_head (key : A → Z) (x h : A) (l t : list A) :
  (∀ a b, key a < key b → lt a b = true) →
  (∀ a b, lt a b = true → key a <= key b) →
  insert_sorted lt x l = h :: t →
  (∀ h' t', l = h' :: t' → ∀ y, y ∈ l → key h' <= key y) →
  ∀ y, y ∈ x :: l → key h <= key y.
Proof.
  intros Hlt Hle Hins Hl y Hy.
  destruct l as [|h' t']; simpl in Hins.
  - simplify_eq. apply list_elem_of_singleton in Hy. subst. lia.
  - specialize (Hl h' t' eq_refl).
    destruct (lt h' x) eqn:E; simplify_eq.
    + apply Hle in E. apply elem_of_cons in Hy as [->|Hy]; [done|].
      by apply Hl.
    + assert (key h <= key h').
      { destruct (Z_lt_le_dec (key h') (key h)) as [Hc|Hc]; [|done].
        apply Hlt in Hc. congruence. }
      apply elem_of_cons in Hy as [->|Hy]; [lia|].
      specialize (Hl y Hy). lia.
Qed.

Lemma sorted_head_least (key : A → Z) (l : list A) (h : A) (t : list A) :
  (∀ a b, key a < key b → lt a b = true) →
  (∀ a b, lt a b = true → key a <= key b) →
  sorted lt l = h :: t →
  ∀ y, y ∈ l → key h <= key y.
Proof.
  intros Hlt Hle. revert h t.
  induction l as [|x l IH]; intros h t Hs y Hy; [by apply elem_of_nil in Hy|].
  simpl in Hs.
  eapply (insert_sorted_head key x h (sorted lt l) t Hlt Hle Hs).
  - intros h' t' E z Hz. eapply IH; [exact E|]. by apply sorted_elem_of.
  - apply elem_of_cons in Hy as [->|Hy]; [left|right; by apply sorted_elem_of].
Qed.



End SortedFacts.


(** ** Cycle *)

(** C9: resolving the values of a Cycle fails, with a [ValueError] or a
    [KeyError], exactly when it has no explicit values and its key is empty
    or is not in the catalog of named cycles; a Cycle with explicit values
    resolves to them. *)
Theorem Cycle_get_values_fails_iff
    (default_cycles : gmap string (list value)) (self : Cycle.t) :
  ((∃ e, Cycle._get_values default_cycles self = Err e ∧ ConfigurationError e)
   ↔ Cycle.values self = []
     ∧ (Cycle.key self = "" ∨ default_cycles !! Cycle.key self = None))
  ∧ (∀ e, Cycle._get_values default_cycles self = Err e → ConfigurationError e)
  ∧ (Cycle.values self ≠ [] →
     Cycle._get_values default_cycles self = Ok (Cycle.values self)).
Proof.
  unfold Cycle._get_values.
  destruct (Cycle.values self) as [|v vs] eqn:Hv.
  - destruct (String.eqb_spec (Cycle.key self) "") as [Hk|Hk].
    + split_and!; [|by intros e [= <-]|done].
      split; [intros _; split; [done|by left]|].
      intros _. eexists. split; [done|]. exact I.
    + destruct (default_cycles !! Cycle.key self) as [vs|] eqn:Hd.
      * split_and!; [|by intros e [=]|done].
        split; [by intros (e & [=] & _)|].
        by intros (_ & [?|[=]]).
      * split_and!; [|by intros e [= <-]|done].
        split; [intros _; split; [done|by right]|].
        intros _. eexists. split; [done|]. exact I.
  - split_and!; [|by intros e [=]|done].
    split; [by intros (e & [=] & _)|by intros ([=] & _)].
Qed.

Lemma Cycle_get_values_fails_iff_witness :
  Cycle._get_values ∅ (Cycle.mk "grayscale" [VInt 1; VInt 2])
  = Ok [VInt 1; VInt 2].
Proof.
  apply (Cycle_get_values_fails_iff ∅ (Cycle.mk "grayscale" [VInt 1; VInt 2])).
  simpl. discriminate.
Defined.

(** ** Options: validation *)

Lemma keys_of_map {V} (m : gmap string V) (k : string) :
  k ∈ (map_to_list m).*1 ↔ is_Some (m !! k).
Proof.
  rewrite list_elem_of_fmap. split.
  - intros ([k' v] & -> & H). apply elem_of_map_to_list in H. by exists v.
  - intros [v H]. exists (k, v). split; [done|]. by apply elem_of_map_to_list.
Qed.

Lemma validate_falsy (allowed : option (list string)) (l : list string) :
  Options.truthy allowed = false → Options.validate allowed l = Ok ().
Proof. intros H. induction l as [|k l IH]; simpl; [done|]. by rewrite H. Qed.

Lemma validate_accepts (allowed : option (list string)) (l : list string) :
  (∀ k, k ∈ l → k ∈ default [] allowed) →
  Options.validate allowed l = Ok ().
Proof.
  induction l as [|k l IH]; intros H; simpl; [done|].
  rewrite bool_decide_true by (apply H; left).
  rewrite andb_false_r. apply IH. intros k' Hk'. apply H. by right.
Qed.

Lemma validate_rejects (allowed : list string) (l : list string) (k : string) :
  allowed ≠ [] → k ∈ l → k ∉ allowed →
  ∃ kw before after,
    Options.validate (Some allowed) l = Err (OptionError kw allowed None None)
    ∧ l = before ++ kw :: after
    ∧ (∀ k', k' ∈ before → k' ∈ allowed)
    ∧ kw ∉ allowed.
Proof.
  intros Hne Hk Hnot.
  destruct allowed as [|a0 allowed0] eqn:Ea; [done|]. rewrite <- Ea in *.
  assert (Options.truthy (Some allowed) = true) as Ht by (by rewrite Ea).
  clear Ea a0 allowed0 Hne.
  induction l as [|k' l IH]; [by apply elem_of_nil in Hk|].
  cbn [Options.validate default]. rewrite Ht.
  destruct (decide (k' ∈ allowed)) as [Hin|Hout].
  - rewrite bool_decide_true by done. simpl.
    apply elem_of_cons in Hk as [->|Hk]; [done|].
    destruct (IH Hk) as (kw & before & after & ? & -> & Hbefore & ?).
    exists kw, (k' :: before), after. split_and!; [done|done| |done].
    intros k'' [->|?]%elem_of_cons; [done|by apply Hbefore].
  - rewrite bool_decide_false by done. simpl.
    exists k', [], l. split_and!; [done|done| |done].
    by intros k'' ?%elem_of_nil.
Qed.

Lemma Options_init_accepted (key : option string)
    (allowed : option (list string)) (kwargs : gmap string value) :
  accepted allowed kwargs →
  ∃ o, Options.__init__ key allowed kwargs = Ok o
       ∧ Options.kwargs o = kwargs
       ∧ Options.key o = key
       ∧ Options._options o = Options._expand_options kwargs
       ∧ Options.allowed_keywords o
         = (if Options.truthy allowed
            then Some (sorted String.ltb (default [] allowed)) else None).
Proof.
  intros Hacc. unfold Options.__init__.
  assert (Options.validate allowed (Options.keys_of kwargs) = Ok ()) as ->.
  { destruct (Options.truthy allowed) eqn:Ht; [|by apply validate_falsy].
    apply validate_accepts. intros k Hk.
    apply sorted_elem_of, keys_of_map in Hk. by apply Hacc. }
  simpl. eexists. split; [done|]. by simpl.
Qed.

(** C5 (as amended): with a non-empty allow-list, a keyword that is not in
    the list makes the construction of an Options object fail with an
    [OptionError] that carries the allow-list and a keyword that is not in
    it, the first such keyword among the sorted keywords;
    [Options(allowed_keywords=['a'], b=1)] fails naming [b]. *)
Theorem Options_init_rejects (key : option string) (allowed : list string)
    (kwargs : gmap string value) (k : string) :
  allowed ≠ [] → is_Some (kwargs !! k) → k ∉ allowed →
  (∃ kw before after,
     Options.__init__ key (Some allowed) kwargs
     = Err (OptionError kw allowed None None)
     ∧ is_Some (kwargs !! kw)
     ∧ (kw ∉ allowed)
     ∧ Options.keys_of kwargs = before ++ kw :: after
     ∧ (∀ k', k' ∈ before → k' ∈ allowed))
  ∧ Options.__init__ None (Some ["a"]) {[ "b" := VInt 1 ]}
    = Err (OptionError "b" ["a"] None None).
Proof.
  intros Hne Hk Hnot. split; [|by vm_compute].
  unfold Options.__init__.
  destruct (validate_rejects allowed (Options.keys_of kwargs) k)
    as (kw & before & after & -> & Hsplit & Hbefore & Hkw'); [done| |done|].
  { by apply sorted_elem_of, keys_of_map. }
  exists kw, before, after. split_and!; [done| |done|done|done].
  apply keys_of_map, (sorted_elem_of String.ltb).
  change (kw ∈ Options.keys_of kwargs).
  rewrite Hsplit. apply elem_of_app. right. left.
Qed.

Lemma Options_init_rejects_witness :
  ∃ kw before after,
    Options.__init__ None (Some ["a"; "c"]) {[ "b" := VInt 1 ]}
    = Err (OptionError kw ["a"; "c"] None None)
    ∧ is_Some (({[ "b" := VInt 1 ]} : gmap string value) !! kw)
    ∧ (kw ∉ ["a"; "c"])
    ∧ Options.keys_of {[ "b" := VInt 1 ]} = before ++ kw :: after
    ∧ (∀ k', k' ∈ before → k' ∈ ["a"; "c"]).
Proof.
  apply (Options_init_rejects None ["a"; "c"] {[ "b" := VInt 1 ]} "b").
  - discriminate.
  - by eexists.
  - intros H.
    by repeat (apply elem_of_cons in H as [[=]|H]); apply elem_of_nil in H.
Defined.

(** C5, as stated, fails for the empty allow-list, which is not [None] but
    validates nothing. *)
Lemma Options_init_empty_allow_list :
  Options.__init__ None (Some []) {[ "b" := VInt 1 ]}
  = Ok (Options.mk None None {[ "b" := VInt 1 ]} [ {[ "b" := VInt 1 ]} ]).
Proof. by vm_compute. Qed.

(** ** Options: the expansion of cycles *)

Lemma dict_of_pairs_foldl {V} (l : list (string * V)) (m : gmap string V) :
  NoDup l.*1 →
  foldl (fun m kv => <[kv.1 := kv.2]> m) m l = list_to_map l ∪ m.
Proof.
  revert m. induction l as [|[k v] l IH]; intros m Hnd; simpl.
  - by rewrite (left_id_L ∅ (∪)).
  - apply NoDup_cons in Hnd as [Hk Hnd]. rewrite IH by done.
    rewrite <- insert_union_l, insert_union_r; [done|].
    by apply not_elem_of_list_to_map_1.
Qed.

Lemma dict_of_pairs_list_to_map {V} (l : list (string * V)) :
  NoDup l.*1 → dict_of_pairs l = list_to_map l.
Proof.
  intros Hnd. unfold dict_of_pairs.
  rewrite dict_of_pairs_foldl by done. by rewrite (right_id_L ∅ (∪)).
Qed.

Lemma zip_star_lookup {A} (ls : list (list A)) (i : nat) :
  ls ≠ [] → zip_star ls !! i = mapM (fun l => l !! i) ls.
Proof.
  induction ls as [|l ls IH]; [done|]. intros _.
  destruct ls as [|l' ls].
  - simpl. rewrite list_lookup_fmap. by destruct (l !! i).
  - change (zip_star (l :: l' :: ls))
      with (zip_with cons l (zip_star (l' :: ls))).
    rewrite lookup_zip_with, IH by done.
    change (mapM (fun l => l !! i) (l :: l' :: ls))
      with (y ← l !! i; k ← mapM (fun l => l !! i) (l' :: ls); mret (y :: k)).
    done.
Qed.

Lemma zip_star_length_le {A} (ls : list (list A)) (l : list A) :
  l ∈ ls → (length (zip_star ls) ≤ length l)%nat.
Proof.
  induction ls as [|l0 ls IH]; [by intros ?%elem_of_nil|].
  intros Hl. destruct ls as [|l' ls].
  - apply list_elem_of_singleton in Hl as ->. simpl. by rewrite length_map.
  - change (zip_star (l0 :: l' :: ls))
      with (zip_with cons l0 (zip_star (l' :: ls))).
    rewrite length_zip_with.
    apply elem_of_cons in Hl as [->|Hl]; [lia|].
    specialize (IH Hl). lia.
Qed.

Lemma zip_star_length_attained {A} (ls : list (list A)) :
  ls ≠ [] → ∃ l, l ∈ ls ∧ length (zip_star ls) = length l.
Proof.
  induction ls as [|l0 ls IH]; [done|]. intros _.
  destruct ls as [|l' ls].
  - exists l0. split; [left|]. simpl. by rewrite length_map.
  - change (zip_star (l0 :: l' :: ls))
      with (zip_with cons l0 (zip_star (l' :: ls))).
    rewrite length_zip_with.
    destruct IH as (l & Hl & Hlen); [done|].
    destruct (Nat.min_spec (length l0) (length (zip_star (l' :: ls))))
      as [[_ ->]|[_ ->]].
    + exists l0. split; [left|done].
    + exists l. split; [by right|done].
Qed.

Lemma elem_of_filter_cycles (kwargs : gmap string value) k c :
  (k, c) ∈ filter_cycles kwargs ↔ kwargs !! k = Some (Cycle.to_value c).
Proof.
  unfold filter_cycles. rewrite list_elem_of_omap. split.
  - intros ([k' v] & Hin & Hf). apply elem_of_map_to_list in Hin.
    destruct v; simplify_eq/=. done.
  - intros H. exists (k, Cycle.to_value c). split.
    + by apply elem_of_map_to_list.
    + by destruct c.
Qed.

Lemma filter_cycles_sublist (l : list (string * value)) :
  (omap (fun kv : string * value =>
           c ← Cycle.of_value kv.2; Some (kv.1, c)) l).*1 `sublist_of` l.*1.
Proof.
  induction l as [|[k v] l IH]; simpl; [done|].
  destruct (Cycle.of_value v); simpl.
  - by apply sublist_skip.
  - by apply sublist_cons.
Qed.

Lemma filter_cycles_NoDup (kwargs : gmap string value) :
  NoDup (filter_cycles kwargs).*1.
Proof.
  eapply sublist_NoDup; [|apply (filter_cycles_sublist (map_to_list kwargs))].
  apply NoDup_fst_map_to_list.
Qed.

Lemma filter_cycles_nil (kwargs : gmap string value) :
  filter_cycles kwargs = [] ↔
  ∀ k v, kwargs !! k = Some v → Cycle.is_cycle v = false.
Proof.
  split.
  - intros Hnil k v Hk. destruct v; try done.
    assert ((k, Cycle.mk key values) ∈ filter_cycles kwargs) as Hin
      by (by apply elem_of_filter_cycles).
    rewrite Hnil in Hin. by apply elem_of_nil in Hin.
  - intros H. destruct (filter_cycles kwargs) as [|[k c] l] eqn:E; [done|].
    assert ((k, c) ∈ filter_cycles kwargs) as Hin by (rewrite E; left).
    apply elem_of_filter_cycles in Hin. apply H in Hin. by destruct c.
Qed.

Lemma cyclic_row_lookup (L : list (string * Cycle.t)) (row : list value)
    (i : nat) (k : string) :
  NoDup L.*1 →
  Forall2 (fun l y => l !! i = Some y) (map Cycle.values L.*2) row →
  dict_of_pairs (zip L.*1 row) !! k
  = (c ← (list_to_map L : gmap string Cycle.t) !! k; Cycle.values c !! i).
Proof.
  intros Hnd HF.
  assert (length L.*1 = length row) as Hlen.
  { apply Forall2_length in HF. by rewrite length_map, !length_fmap in *. }
  rewrite dict_of_pairs_list_to_map by (by rewrite fst_zip by lia).
  clear Hlen. revert row HF.
  induction L as [|[k' c] L IH]; intros row HF.
  - apply Forall2_nil_inv_l in HF as ->. simpl. by rewrite !lookup_empty.
  - apply NoDup_cons in Hnd as [Hk' Hnd].
    simpl in HF. apply Forall2_cons_inv_l in HF as (y & row' & Hy & HF & ->).
    simpl. destruct (decide (k = k')) as [->|Hne].
    + by rewrite !lookup_insert_eq.
    + rewrite !lookup_insert_ne by done. by apply IH.
Qed.

(** Every expanded dictionary takes, at its position, the value of each
    Cycle, and keeps the other keywords. *)
Lemma expand_options_lookup (kwargs : gmap string value) (i : nat)
    (d : gmap string value) (k : string) :
  filter_cycles kwargs ≠ [] →
  Options._expand_options kwargs !! i = Some d →
  d !! k = kwargs !! k ≫= value_at i.
Proof.
  intros Hne Hd. unfold Options._expand_options in Hd.
  fold (filter_cycles kwargs) in Hd.
  destruct (filter_cycles kwargs) as [|p L'] eqn:EL; [done|].
  rewrite <- EL in *. clear EL p L'.
  rewrite list_lookup_fmap in Hd.
  destruct (zip_star _ !! i) as [row|] eqn:Hrow; [|done].
  simpl in Hd. injection Hd as <-.
  rewrite zip_star_lookup in Hrow
    by (destruct (filter_cycles kwargs); [done|by simpl]).
  apply mapM_Some_1 in Hrow.
  unfold dict_update. rewrite lookup_union, map_lookup_filter.
  rewrite (cyclic_row_lookup _ _ i k (filter_cycles_NoDup kwargs) Hrow).
  destruct (kwargs !! k) as [v|] eqn:Hk; simpl.
  - destruct (Cycle.is_cycle v) eqn:Hc.
    + destruct v; try done. simpl.
      assert ((list_to_map (filter_cycles kwargs) : gmap string Cycle.t) !! k
              = Some (Cycle.mk key values)) as ->.
      { apply elem_of_list_to_map; [apply filter_cycles_NoDup|].
        by apply elem_of_filter_cycles. }
      simpl. by destruct (values !! i).
    + rewrite option_guard_True by done. simpl.
      assert ((list_to_map (filter_cycles kwargs) : gmap string Cycle.t) !! k
              = None) as ->.
      { apply not_elem_of_list_to_map_1. intros Hin.
        apply list_elem_of_fmap in Hin as ([k' c] & -> & Hin).
        apply elem_of_filter_cycles in Hin. simpl in Hk.
        rewrite Hk in Hin. injection Hin as ->. by destruct c. }
      simpl. by destruct v.
  - assert ((list_to_map (filter_cycles kwargs) : gmap string Cycle.t) !! k
            = None) as ->; [|done].
    apply not_elem_of_list_to_map_1. intros Hin.
    apply list_elem_of_fmap in Hin as ([k' c] & -> & Hin).
    apply elem_of_filter_cycles in Hin. simpl in Hk. congruence.
Qed.

Lemma expand_options_static (kwargs : gmap string value) :
  filter_cycles kwargs = [] → Options._expand_options kwargs = [kwargs].
Proof.
  intros H. unfold Options._expand_options. fold (filter_cycles kwargs).
  by rewrite H.
Qed.

Lemma expand_options_length (kwargs : gmap string value) :
  filter_cycles kwargs ≠ [] →
  length (Options._expand_options kwargs)
  = length (zip_star (map Cycle.values (filter_cycles kwargs).*2)).
Proof.
  intros H. unfold Options._expand_options. fold (filter_cycles kwargs).
  destruct (filter_cycles kwargs) as [|p L]; [done|]. by rewrite length_map.
Qed.

Lemma expand_options_length_le (kwargs : gmap string value) k key vs :
  kwargs !! k = Some (VCycle key vs) →
  (length (Options._expand_options kwargs) ≤ length vs)%nat.
Proof.
  intros Hk.
  assert ((k, Cycle.mk key vs) ∈ filter_cycles kwargs) as Hin
    by (by apply elem_of_filter_cycles).
  rewrite expand_options_length by (intros E; rewrite E in Hin;
                                    by apply elem_of_nil in Hin).
  apply zip_star_length_le.
  apply list_elem_of_In, in_map_iff. exists (Cycle.mk key vs). split; [done|].
  apply list_elem_of_In, list_elem_of_fmap. by exists (k, Cycle.mk key vs).
Qed.

Lemma expand_options_length_attained (kwargs : gmap string value) :
  filter_cycles kwargs ≠ [] →
  ∃ k key vs, kwargs !! k = Some (VCycle key vs)
              ∧ length (Options._expand_options kwargs) = length vs.
Proof.
  intros Hne. rewrite expand_options_length by done.
  destruct (zip_star_length_attained
              (map Cycle.values (filter_cycles kwargs).*2))
    as (l & Hl & Hlen).
  { destruct (filter_cycles kwargs); [done|by simpl]. }
  apply list_elem_of_In, in_map_iff in Hl as (c & <- & Hc).
  apply list_elem_of_In, list_elem_of_fmap in Hc as ([k c'] & -> & Hin).
  apply elem_of_filter_cycles in Hin.
  exists k, (Cycle.key c'), (Cycle.values c'). split; [by destruct c'|done].
Qed.

Lemma filter_cycles_not_nil (kwargs : gmap string value) k v :
  kwargs !! k = Some v → Cycle.is_cycle v = true → filter_cycles kwargs ≠ [].
Proof.
  intros Hk Hc Hnil.
  pose proof (proj1 (filter_cycles_nil kwargs) Hnil k v Hk). congruence.
Qed.

Lemma Options_init_inv (key : option string) (allowed : option (list string))
    (kwargs : gmap string value) (o : Options.t) :
  Options.__init__ key allowed kwargs = Ok o →
  Options.kwargs o = kwargs
  ∧ Options._options o = Options._expand_options kwargs
  ∧ Options.key o = key.
Proof.
  unfold Options.__init__.
  destruct (Options.validate _ _); simpl; [|done]. by intros [= <-].
Qed.

Lemma expand_options_cases (kwargs : gmap string value) :
  ((∀ k v, kwargs !! k = Some v → Cycle.is_cycle v = false) →
   Options._expand_options kwargs = [kwargs])
  ∧ ((∃ k v, kwargs !! k = Some v ∧ Cycle.is_cycle v = true) →
     (∀ k ck vs, kwargs !! k = Some (VCycle ck vs) →
                 (length (Options._expand_options kwargs) ≤ length vs)%nat)
     ∧ (∃ k ck vs, kwargs !! k = Some (VCycle ck vs)
                   ∧ length (Options._expand_options kwargs) = length vs)
     ∧ (∀ i d, Options._expand_options kwargs !! i = Some d →
               ∀ k, d !! k = kwargs !! k ≫= value_at i)).
Proof.
  split.
  - intros H. by apply expand_options_static, filter_cycles_nil.
  - intros (k & v & Hk & Hc).
    pose proof (filter_cycles_not_nil kwargs k v Hk Hc) as Hne.
    split_and!.
    + intros. by eapply expand_options_length_le.
    + by apply expand_options_length_attained.
    + intros i d Hd k'. by apply expand_options_lookup.
Qed.

(** C3: the concrete mappings of an Options object are the one original
    mapping when no value is a Cycle; otherwise there are as many as the
    shortest Cycle has values, and the mapping at position [i] gives every
    Cycle-valued keyword the [i]-th value of its Cycle and every other
    keyword its own value. *)
Theorem Options_expand_options_zip (key : option string)
    (allowed : option (list string)) (kwargs : gmap string value)
    (o : Options.t) :
  Options.__init__ key allowed kwargs = Ok o →
  ((∀ k v, kwargs !! k = Some v → Cycle.is_cycle v = false) →
   Options._options o = [kwargs])
  ∧ ((∃ k v, kwargs !! k = Some v ∧ Cycle.is_cycle v = true) →
     (∀ k ck vs, kwargs !! k = Some (VCycle ck vs) →
                 (length (Options._options o) ≤ length vs)%nat)
     ∧ (∃ k ck vs, kwargs !! k = Some (VCycle ck vs)
                   ∧ length (Options._options o) = length vs)
     ∧ (∀ i d, Options._options o !! i = Some d →
               ∀ k, d !! k = kwargs !! k ≫= value_at i)).
Proof.
  intros (_ & -> & _)%Options_init_inv. apply expand_options_cases.
Qed.

Lemma example_options_init :
  Options.__init__ None None example_kwargs = Ok example_options.
Proof. by vm_compute. Qed.

Lemma Options_expand_options_zip_witness :
  (length (Options._options example_options) ≤ 2)%nat.
Proof.
  refine (proj1 (proj2 (Options_expand_options_zip None None example_kwargs
                          example_options _) _)
            "marker" "" [VStr "o"; VStr "x"] _).
  - by vm_compute.
  - exists "marker", (VCycle "" [VStr "o"; VStr "x"]). by vm_compute.
  - by vm_compute.
Defined.

(** C10: an Options object with two Cycle-valued keywords of unequal
    lengths is constructed without error; its concrete mappings are as many
    as the shortest Cycle has values, every mapping takes the value of each
    Cycle at its own position, and so the last values of a longer Cycle are
    never used. *)
Theorem Options_unequal_cycles_truncate (key : option string)
    (allowed : option (list string)) (kwargs : gmap string value)
    (k1 k2 ck1 ck2 : string) (vs1 vs2 : list value) :
  accepted allowed kwargs →
  kwargs !! k1 = Some (VCycle ck1 vs1) →
  kwargs !! k2 = Some (VCycle ck2 vs2) →
  length vs1 ≠ length vs2 →
  ∃ o, Options.__init__ key allowed kwargs = Ok o
       ∧ (∀ k ck vs, kwargs !! k = Some (VCycle ck vs) →
                     (length (Options._options o) ≤ length vs)%nat)
       ∧ (∃ k ck vs, kwargs !! k = Some (VCycle ck vs)
                     ∧ length (Options._options o) = length vs)
       ∧ (length (Options._options o) < max (length vs1) (length vs2))%nat
       ∧ (∀ i d k ck vs, Options._options o !! i = Some d →
                         kwargs !! k = Some (VCycle ck vs) →
                         d !! k = vs !! i).
Proof.
  intros Hacc H1 H2 Hlen.
  destruct (Options_init_accepted key allowed kwargs Hacc)
    as (o & Hinit & _ & _ & Hopts & _).
  exists o. split; [done|].
  rewrite Hopts.
  destruct (expand_options_cases kwargs) as [_ H].
  destruct H as (Hle & Hatt & Hlook); [by exists k1, (VCycle ck1 vs1)|].
  split_and!; [done|done| |].
  - pose proof (Hle _ _ _ H1). pose proof (Hle _ _ _ H2). lia.
  - intros i d k ck vs Hd Hk. rewrite (Hlook i d Hd k), Hk. done.
Qed.

Lemma Options_unequal_cycles_truncate_witness :
  ∃ o, Options.__init__ None None example_kwargs = Ok o
       ∧ (∀ k ck vs, example_kwargs !! k = Some (VCycle ck vs) →
                     (length (Options._options o) ≤ length vs)%nat)
       ∧ (∃ k ck vs, example_kwargs !! k = Some (VCycle ck vs)
                     ∧ length (Options._options o) = length vs)
       ∧ (length (Options._options o) < 3)%nat
       ∧ (∀ i d k ck vs, Options._options o !! i = Some d →
                         example_kwargs !! k = Some (VCycle ck vs) →
                         d !! k = vs !! i).
Proof.
  apply (Options_unequal_cycles_truncate None None example_kwargs
           "color" "marker" "" ""
           [VStr "r"; VStr "g"; VStr "b"] [VStr "o"; VStr "x"]).
  - intros Ht. discriminate Ht.
  - by vm_compute.
  - by vm_compute.
  - simpl. lia.
Defined.

(** ** Options: indexing *)

Lemma Options_getitem_periodic (o : Options.t) (i : Z) :
  Options.__getitem__ o (i + Z.of_nat (length (Options._options o)))
  = Options.__getitem__ o i.
Proof.
  unfold Options.__getitem__.
  destruct (Z.eqb_spec (Z.of_nat (length (Options._options o))) 0) as [E|E];
    [done|].
  replace (i + Z.of_nat (length (Options._options o)))
    with (i + 1 * Z.of_nat (length (Options._options o))) by lia.
  by rewrite Z_mod_plus_full.
Qed.

Lemma Options_getitem_lookup (o : Options.t) (i : Z) :
  Options._options o ≠ [] →
  ∃ d, Options.__getitem__ o i = Ok d
       ∧ Options._options o
         !! Z.to_nat (i mod Z.of_nat (length (Options._options o))) = Some d.
Proof.
  intros Hne. unfold Options.__getitem__.
  assert (0 < Z.of_nat (length (Options._options o))) as Hpos.
  { destruct (Options._options o); [done|]. simpl. lia. }
  destruct (Z.eqb_spec (Z.of_nat (length (Options._options o))) 0) as [E|E];
    [lia|].
  pose proof (Z.mod_pos_bound i _ Hpos) as Hb.
  destruct (lookup_lt_is_Some_2 (Options._options o)
              (Z.to_nat (i mod Z.of_nat (length (Options._options o)))))
    as [d Hd]; [lia|].
  exists d. by rewrite Hd.
Qed.

(** C4: indexing an Options object by an integer [i] gives the mapping at
    position [i mod] the number of its concrete mappings (with no mapping
    at all, when a Cycle has no values, there is no such position and the
    modulus raises); an Options object with one Cycle of length [n] gives
    the same at [i] and at [i + n]; an Options object without Cycle gives
    at every integer its one mapping, the value of the [options]
    property. *)
Theorem Options_getitem_cyclic (key : option string)
    (allowed : option (list string)) (kwargs : gmap string value)
    (o : Options.t) (i : Z) :
  Options.__init__ key allowed kwargs = Ok o →
  (Options._options o ≠ [] →
   ∃ d, Options.__getitem__ o i = Ok d
        ∧ Options._options o
          !! Z.to_nat (i mod Z.of_nat (length (Options._options o)))
          = Some d)
  ∧ (Options._options o = [] →
     Options.__getitem__ o i = Err ZeroDivisionError)
  ∧ (∀ k ck vs,
       kwargs !! k = Some (VCycle ck vs) →
       (∀ k' v, k' ≠ k → kwargs !! k' = Some v → Cycle.is_cycle v = false) →
       length (Options._options o) = length vs
       ∧ Options.__getitem__ o (i + Z.of_nat (length vs))
         = Options.__getitem__ o i
       ∧ (vs ≠ [] → is_ok (Options.__getitem__ o i) = true))
  ∧ ((∀ k v, kwargs !! k = Some v → Cycle.is_cycle v = false) →
     Options.__getitem__ o i = Ok kwargs
     ∧ Options.options o = Ok kwargs).
Proof.
  intros Hinit. split_and!.
  - apply Options_getitem_lookup.
  - intros E. unfold Options.__getitem__. by rewrite E.
  - intros k ck vs Hk Hothers.
    pose proof (Options_init_inv _ _ _ _ Hinit) as (_ & Ho & _).
    assert (length (Options._options o) = length vs) as Hlen.
    { rewrite Ho.
      destruct (expand_options_length_attained kwargs)
        as (k' & ck' & vs' & Hk' & ->).
      { by eapply filter_cycles_not_nil. }
      destruct (decide (k' = k)) as [->|Hne]; [congruence|].
      by specialize (Hothers k' _ Hne Hk'). }
    split_and!; [done| |].
    + rewrite <- Hlen. apply Options_getitem_periodic.
    + intros Hvs.
      destruct (Options_getitem_lookup o i) as (d & -> & _); [|done].
      intros E. rewrite E in Hlen. by destruct vs.
  - intros Hstatic.
    pose proof (Options_init_inv _ _ _ _ Hinit) as (_ & Ho & _).
    destruct (expand_options_cases kwargs) as [Hone _].
    specialize (Hone Hstatic).
    unfold Options.__getitem__, Options.options. rewrite Ho, Hone. simpl.
    by rewrite Z.mod_1_r.
Qed.

Lemma Options_getitem_cyclic_witness :
  ∃ d, Options.__getitem__ example_options (-1) = Ok d
       ∧ Options._options example_options
         !! Z.to_nat
              (-1 mod Z.of_nat (length (Options._options example_options)))
         = Some d.
Proof.
  apply (Options_getitem_cyclic None None example_kwargs example_options (-1)).
  - vm_compute. reflexivity.
  - intros H. apply (f_equal length) in H. vm_compute in H. discriminate H.
Defined.

(** ** Compositor: the registry *)

Lemma first_seen_elem_of (l : list nat) (x : nat) :
  x ∈ first_seen l ↔ x ∈ l.
Proof.
  induction l as [|y l IH]; simpl; [done|].
  rewrite !elem_of_cons, list_elem_of_filter, IH.
  destruct (decide (x = y)); tauto.
Qed.

Lemma first_seen_NoDup (l : list nat) : NoDup (first_seen l).
Proof.
  induction l as [|y l IH]; simpl; [constructor|].
  apply NoDup_cons. split.
  - rewrite list_elem_of_filter. by intros [? _].
  - by apply NoDup_filter.
Qed.

Lemma index_head (x : string) (l : list string) :
  Compositor.index x (x :: l) = Some 0%nat.
Proof. simpl. by rewrite String.eqb_refl. Qed.

Lemma index_tail (x y : string) (l : list string) :
  x ≠ y → Compositor.index x (y :: l) = S <$> Compositor.index x l.
Proof. intros H. simpl. by apply String.eqb_neq in H as ->. Qed.

Lemma filter_other_group_all (g : string) (defs : list Compositor.t) :
  g ∉ groups_of defs → filter (other_group g) defs = defs.
Proof.
  induction defs as [|d defs IH]; intros Hnot; [done|].
  apply not_elem_of_cons in Hnot as [Hne Hnot].
  rewrite filter_cons_True by (unfold other_group; congruence).
  by rewrite IH.
Qed.

Lemma pop_group_filter (g : string) (defs : list Compositor.t) :
  NoDup (groups_of defs) →
  (if bool_decide (g ∈ groups_of defs) then
     match Compositor.index g (groups_of defs) with
     | Some i => delete i defs
     | None => defs
     end
   else defs)
  = filter (other_group g) defs.
Proof.
  induction defs as [|d defs IH]; intros Hnd; [done|].
  apply NoDup_cons in Hnd as [Hd Hnd]. specialize (IH Hnd).
  change (groups_of (d :: defs))
    with (Compositor.group d :: groups_of defs) in *.
  destruct (decide (g = Compositor.group d)) as [->|E].
  - rewrite bool_decide_true by left.
    rewrite index_head. simpl.
    rewrite filter_cons_False by (unfold other_group; congruence).
    symmetry. by apply filter_other_group_all.
  - rewrite filter_cons_True by (unfold other_group; congruence).
    rewrite index_tail by done.
    destruct (decide (g ∈ groups_of defs)) as [Hin|Hout].
    + rewrite bool_decide_true in IH by done.
      rewrite bool_decide_true by (by right).
      destruct (Compositor.index _ _) as [i|]; simpl; by rewrite <- IH.
    + rewrite bool_decide_false in IH by done.
      rewrite bool_decide_false
        by (intros [?|?]%elem_of_cons; [congruence|done]).
      by rewrite <- IH.
Qed.

Lemma register_definitions (cls : Compositor.registry) (c : Compositor.t) :
  NoDup (groups_of (Compositor.definitions cls)) →
  Compositor.definitions (Compositor.register cls c)
  = filter (other_group (Compositor.group c)) (Compositor.definitions cls)
    ++ [c].
Proof.
  intros Hnd. unfold Compositor.register. simpl. f_equal.
  by apply pop_group_filter.
Qed.

Lemma register_groups_NoDup (cls : Compositor.registry) (c : Compositor.t) :
  NoDup (groups_of (Compositor.definitions cls)) →
  NoDup (groups_of (Compositor.definitions (Compositor.register cls c))).
Proof.
  intros Hnd. rewrite register_definitions by done.
  unfold groups_of. rewrite map_app. simpl. apply NoDup_app. split_and!.
  - eapply sublist_NoDup; [exact Hnd|].
    change (map Compositor.group) with (fmap (M:=list) Compositor.group).
    apply fmap_sublist, sublist_filter.
  - intros g Hg Hc. apply list_elem_of_singleton in Hc as ->.
    apply list_elem_of_In, in_map_iff in Hg as (d & Hgd & Hd).
    apply list_elem_of_In, list_elem_of_filter in Hd as [Hother _].
    by apply Hother.
  - apply NoDup_singleton.
Qed.

Lemma register_operations (cls : Compositor.registry) (c : Compositor.t) :
  ids_of (Compositor.operations (Compositor.register cls c))
  = (let x := Compositor.op_id (Compositor.operation c) in
     if decide (x ∈ ids_of (Compositor.operations cls))
     then ids_of (Compositor.operations cls)
     else ids_of (Compositor.operations cls) ++ [x]).
Proof.
  unfold Compositor.register. simpl.
  destruct (existsb _ _) eqn:E; simpl.
  - apply existsb_exists in E as (o & Ho & Heq). apply Nat.eqb_eq in Heq.
    rewrite decide_True; [done|].
    rewrite Heq. apply list_elem_of_In, in_map. done.
  - rewrite decide_False.
    + unfold ids_of. by rewrite map_app.
    + intros Hin. apply list_elem_of_In, in_map_iff in Hin as (o & Ho & Hin).
      assert (existsb (fun o => Compositor.op_id (Compositor.operation c)
                                =? Compositor.op_id o)%nat
                (Compositor.operations cls) = true) as E'; [|congruence].
      apply existsb_exists. exists o. split; [done|].
      apply Nat.eqb_eq. done.
Qed.

Lemma fold_first_seen (acc l : list nat) :
  foldl (fun acc x => if decide (x ∈ acc) then acc else acc ++ [x]) acc l
  = acc ++ filter (fun y => y ∉ acc) (first_seen l).
Proof.
  revert acc. induction l as [|x l IH]; intros acc; simpl.
  - by rewrite app_nil_r.
  - rewrite IH. destruct (decide (x ∈ acc)) as [Hin|Hout].
    + rewrite filter_cons_False by (intros H; by apply H).
      rewrite list_filter_filter. f_equal.
      apply list_filter_iff. intros y. split; [|by intros [? _]].
      intros Hy. split; [done|]. intros ->. by apply Hy.
    + rewrite filter_cons_True by done.
      rewrite <- app_assoc. simpl. do 2 f_equal.
      rewrite list_filter_filter. apply list_filter_iff. intros y.
      rewrite not_elem_of_app, list_elem_of_singleton. done.
Qed.

Lemma foldl_register_groups_NoDup (cs : list Compositor.t)
    (cls : Compositor.registry) :
  NoDup (groups_of (Compositor.definitions cls)) →
  NoDup (groups_of (Compositor.definitions (foldl Compositor.register cls cs))).
Proof.
  revert cls. induction cs as [|c cs IH]; intros cls Hnd; simpl; [done|].
  by apply IH, register_groups_NoDup.
Qed.

Lemma foldl_register_operations (cs : list Compositor.t)
    (cls : Compositor.registry) :
  ids_of (Compositor.operations (foldl Compositor.register cls cs))
  = foldl (fun acc x => if decide (x ∈ acc) then acc else acc ++ [x])
          (ids_of (Compositor.operations cls))
          (map (fun c => Compositor.op_id (Compositor.operation c)) cs).
Proof.
  revert cls. induction cs as [|c cs IH]; intros cls; simpl; [done|].
  by rewrite IH, register_operations.
Qed.

Lemma filter_not_in_nil (l : list nat) : filter (fun y => y ∉ []) l = l.
Proof.
  induction l as [|x l IH]; [done|].
  rewrite filter_cons_True by apply not_elem_of_nil. by rewrite IH.
Qed.

(** C7: after any sequence of [register] calls no two registered
    compositors have the same group; one more call removes the compositor
    of the same group, if there is one, keeps the others in their order and
    puts the new one last; and the operations are the distinct operations
    of the calls, each once, in the order in which they were first seen. *)
Theorem Compositor_register_invariant (cs : list Compositor.t)
    (c : Compositor.t) :
  NoDup (groups_of (Compositor.definitions (registered cs)))
  ∧ Compositor.definitions (Compositor.register (registered cs) c)
    = filter (other_group (Compositor.group c))
             (Compositor.definitions (registered cs)) ++ [c]
  ∧ ids_of (Compositor.operations (registered cs))
    = first_seen (map (fun c => Compositor.op_id (Compositor.operation c)) cs)
  ∧ NoDup (ids_of (Compositor.operations (registered cs))).
Proof.
  assert (NoDup (groups_of (Compositor.definitions (registered cs)))) as Hnd.
  { apply foldl_register_groups_NoDup. simpl. constructor. }
  assert (ids_of (Compositor.operations (registered cs))
          = first_seen
              (map (fun c => Compositor.op_id (Compositor.operation c)) cs))
    as Hops.
  { unfold registered. rewrite foldl_register_operations. simpl.
    rewrite fold_first_seen. simpl. apply filter_not_in_nil. }
  split_and!; [done| |done|].
  - by apply register_definitions.
  - rewrite Hops. apply first_seen_NoDup.
Qed.

(** ** Compositor: matching *)

Section Matching.
Variable sanitize_identifier : string -> string.
Variable rest_lt :
  Compositor.t * option (nat * nat) → Compositor.t * option (nat * nat) → bool.

Local Abbreviation match_level := (Compositor.match_level sanitize_identifier).
Local Abbreviation matches := (Compositor.matches sanitize_identifier).
Local Abbreviation strongest_match :=
  (Compositor.strongest_match sanitize_identifier rest_lt).
Local Abbreviation collapse_element :=
  (Compositor.collapse_element sanitize_identifier rest_lt).







End Matching.

(** ** Compositor: collapsing an overlay *)

Section Collapse.
Variable sanitize_identifier : string -> string.
Variable rest_lt :
  Compositor.t * option (nat * nat) → Compositor.t * option (nat * nat) → bool.

Local Abbreviation match_level := (Compositor.match_level sanitize_identifier).
Local Abbreviation slice_match_level :=
  (Compositor._slice_match_level sanitize_identifier).
Local Abbreviation strongest_match :=
  (Compositor.strongest_match sanitize_identifier rest_lt).
Local Abbreviation collapse_element :=
  (Compositor.collapse_element sanitize_identifier rest_lt).

Lemma match_level_step_state (self : Compositor.t) (overlay : Overlay.t)
    (st : nat * option (nat * nat)) (i : nat) :
  (i + length (Compositor._pattern_spec self)
   ≤ length (Overlay.values overlay))%nat →
  window_state sanitize_identifier self overlay st →
  window_state sanitize_identifier self overlay
    (Compositor.match_level_step sanitize_identifier self overlay
       (length (Compositor._pattern_spec self)) st i).
Proof.
  intros Hi Hst. unfold Compositor.match_level_step.
  destruct (Compositor._slice_match_level _ _ _) as [lvl|] eqn:Hlvl; [|done].
  destruct (Nat.ltb_spec st.1 lvl) as [Hlt|Hge]; [|done].
  right. simpl. split; [lia|]. exists i. done.
Qed.

Lemma match_level_loop_state (self : Compositor.t) (overlay : Overlay.t)
    (l : list nat) (st : nat * option (nat * nat)) :
  (∀ i, i ∈ l → (i + length (Compositor._pattern_spec self)
                 ≤ length (Overlay.values overlay))%nat) →
  window_state sanitize_identifier self overlay st →
  window_state sanitize_identifier self overlay
    (foldl (Compositor.match_level_step sanitize_identifier self overlay
              (length (Compositor._pattern_spec self))) st l).
Proof.
  revert st. induction l as [|i l IH]; intros st Hl Hst; simpl; [done|].
  apply IH.
  - intros j Hj. apply Hl. by right.
  - apply match_level_step_state; [|done]. apply Hl. left.
Qed.

Lemma slice_match_level_nil (self : Compositor.t) (items : list Element.t) :
  Compositor._pattern_spec self = [] →
  slice_match_level self items = Some 0%nat.
Proof. unfold Compositor._slice_match_level. by intros ->. Qed.

(** A match of [match_level] has a positive level and the slice of a window
    of the width of the pattern, inside the overlay; the window has that
    level. *)
Lemma match_level_Some (self : Compositor.t) (overlay : Overlay.t)
    (lvl : nat) (sl : option (nat * nat)) :
  match_level self overlay = Some (lvl, sl) →
  (0 < lvl)%nat
  ∧ (0 < length (Compositor._pattern_spec self))%nat
  ∧ ∃ start, sl = Some (start,
                        (start + length (Compositor._pattern_spec self))%nat)
             ∧ (start + length (Compositor._pattern_spec self)
                ≤ length (Overlay.values overlay))%nat
             ∧ slice_match_level self
                 (slice start
                    (start + length (Compositor._pattern_spec self))
                    (Overlay.values overlay)) = Some lvl.
Proof.
  unfold Compositor.match_level, Overlay.__len__.
  destruct (Nat.ltb_spec (length (Overlay.values overlay))
              (length (Compositor._pattern_spec self))) as [Hlt|Hge]; [done|].
  match goal with |- context [foldl ?f ?s ?l] =>
    pose proof (match_level_loop_state self overlay l s) as Hst end.
  destruct Hst as [Hst|(Hpos & i & Hsl & Hi & Hlvl)].
  - intros i Hi. apply list_elem_of_In, in_seq in Hi. lia.
  - by left.
  - rewrite Hst. done.
  - destruct (foldl _ _ _) as [best ms]. simpl in *.
    destruct (Nat.eqb_spec best 0) as [?|_]; [lia|]. simpl.
    intros [= -> ->]. split; [done|]. split.
    + destruct (Compositor._pattern_spec self) eqn:E; [|simpl; lia].
      rewrite slice_match_level_nil in Hlvl by done. injection Hlvl. lia.
    + by exists i.
Qed.

Lemma slice_decompose {A} (start width : nat) (l : list A) :
  (start + width ≤ length l)%nat →
  l = take start l ++ slice start (start + width) l ++ drop (start + width) l
  ∧ length (take start l) = start
  ∧ length (slice start (start + width) l) = width.
Proof.
  intros H. unfold slice.
  replace (start + width - start)%nat with width by lia. split_and!.
  - rewrite <- (take_drop start l) at 1. f_equal.
    rewrite <- (take_drop width (drop start l)) at 1. f_equal.
    by rewrite drop_drop.
  - rewrite length_take. lia.
  - rewrite length_take, length_drop. lia.
Qed.


End Collapse.

(** ** An example: three channels composed into an RGB element *)

Example rgb_compositor_init :
  Compositor.__init__ "Image.R * Image.G * Image.B" rgb_operation "RGB" "data"
    ∅ = Ok rgb_compositor.
Proof. vm_compute. reflexivity. Qed.

Lemma rgb_strongest_match :
  Compositor.strongest_match no_sanitizer unordered [rgb_compositor]
    rgb_overlay "data"
  = Some (6%nat, rgb_compositor, Some (1%nat, 4%nat)).
Proof. by vm_compute. Qed.



(** With both compositors registered the match of the lowest level is
    selected: the one of the pattern [Image], of level 1. *)
Example lowest_level_selected :
  Compositor.strongest_match no_sanitizer unordered
    [rgb_compositor; image_compositor] rgb_overlay "data"
  = Some (1%nat, image_compositor, Some (1%nat, 2%nat)).
Proof. by vm_compute. Qed.

Example rgb_collapse_element :
  Compositor.collapse_element no_sanitizer unordered [rgb_compositor]
    rgb_overlay None VNone "data"
  = Ok (Overlay.mk
          [Element.mk "Curve" "Curve" "" VNone;
           Element.mk "RGB" "RGB" "" (VList [VInt 1; VInt 2; VInt 3])]
          (Some 7)).
Proof. by vm_compute. Qed.

(** ** OptionTree: children *)

Lemma assoc_None {A} (k : string) (l : list (string * A)) :
  OptionTree.assoc k l = None ↔ k ∉ l.*1.
Proof.
  induction l as [|[k' a] l IH]; simpl.
  - split; [intros _; apply not_elem_of_nil|done].
  - destruct (String.eqb_spec k k') as [->|Hne].
    + split; [done|]. intros H. exfalso. apply H. left.
    + rewrite IH, not_elem_of_cons. tauto.
Qed.

Lemma assoc_is_Some {A} (k : string) (l : list (string * A)) :
  is_Some (OptionTree.assoc k l) ↔ k ∈ l.*1.
Proof.
  destruct (OptionTree.assoc k l) eqn:E.
  - split; [intros _|by eexists].
    destruct (decide (k ∈ l.*1)) as [|Hn]; [done|].
    apply assoc_None in Hn. congruence.
  - split; [by intros [? [=]]|]. intros Hin. by apply assoc_None in E.
Qed.

Lemma assoc_set_same {A} (k : string) (a : A) (l : list (string * A)) :
  OptionTree.assoc k (OptionTree.assoc_set k a l) = Some a.
Proof.
  induction l as [|[k' a'] l IH]; simpl.
  - by rewrite String.eqb_refl.
  - destruct (String.eqb_spec k k') as [->|Hne]; simpl.
    + by rewrite String.eqb_refl.
    + by apply String.eqb_neq in Hne as ->.
Qed.

Lemma assoc_set_other {A} (k k' : string) (a : A) (l : list (string * A)) :
  k' ≠ k →
  OptionTree.assoc k' (OptionTree.assoc_set k a l) = OptionTree.assoc k' l.
Proof.
  intros Hne. induction l as [|[k0 a0] l IH]; simpl.
  - by apply String.eqb_neq in Hne as ->.
  - destruct (String.eqb_spec k k0) as [->|Hne0]; simpl.
    + by apply String.eqb_neq in Hne as ->.
    + by rewrite IH.
Qed.

(** Setting a child keeps the order of the children: an existing child
    stays in its place, a new one comes last. *)
Lemma assoc_set_keys {A} (k : string) (a : A) (l : list (string * A)) :
  (OptionTree.assoc_set k a l).*1
  = if bool_decide (k ∈ l.*1) then l.*1 else l.*1 ++ [k].
Proof.
  induction l as [|[k' a'] l IH].
  - rewrite bool_decide_false; [done|]. apply not_elem_of_nil.
  - cbn [OptionTree.assoc_set].
    destruct (String.eqb_spec k k') as [->|Hne].
    + rewrite bool_decide_true; [done|]. rewrite fmap_cons. left.
    + rewrite !fmap_cons, IH. cbn [fst].
      destruct (decide (k ∈ l.*1)) as [Hin|Hout].
      * rewrite !bool_decide_true; [done|by right|done].
      * rewrite !bool_decide_false; [done| |done].
        intros [?|?]%elem_of_cons; done.
Qed.

(** ** The loop over the groups *)

Lemma for_each_Ok {A B} (f : A → result B) (l : list A) (r : list B) :
  for_each f l = Ok r → Forall2 (fun x y => f x = Ok y) l r.
Proof.
  revert r. induction l as [|x l IH]; intros r; simpl.
  - intros [= <-]. constructor.
  - destruct (f x) as [y|e] eqn:Hy; simpl; [|done].
    destruct (for_each f l) as [ys|e] eqn:Hys; simpl; [|done].
    intros [= <-]. constructor; [done|]. by apply IH.
Qed.

Lemma for_each_total {A B} (f : A → result B) (l : list A) :
  (∀ x, x ∈ l → ∃ y, f x = Ok y) → ∃ r, for_each f l = Ok r.
Proof.
  induction l as [|x l IH]; intros H; simpl; [by eexists|].
  destruct (H x) as [y ->]; [left|].
  destruct IH as [r ->]; [intros x' Hx'; apply H; by right|].
  simpl. by eexists.
Qed.

(** ** Options: inheritance *)

Lemma Options_init_plain (kwargs : gmap string value) :
  Options.__init__ None None kwargs = Ok (plain kwargs).
Proof.
  unfold Options.__init__. by rewrite validate_falsy by done.
Qed.

Lemma Options_call_kwargs (self : Options.t)
    (allowed : option (list string)) (kwargs : gmap string value)
    (o : Options.t) :
  Options.__call__ self allowed kwargs = Ok o →
  Options.kwargs o = kwargs ∪ Options.kwargs self.
Proof.
  unfold Options.__call__. intros H%Options_init_inv. by destruct H as [-> _].
Qed.

(** ** OptionTree: assignment *)

Lemma children_assoc (self : OptionTree.t) (identifier : string) :
  identifier ∈ OptionTree.children self
  ↔ is_Some (OptionTree.assoc identifier (OptionTree.nodes self)).
Proof. unfold OptionTree.children. by rewrite assoc_is_Some. Qed.

(** What [self[identifier] if identifier in self.children else self] and
    its [groups] evaluate to, when they evaluate. *)
Lemma current_groups_Ok (self : OptionTree.t) (identifier : string)
    (cg : gmap string Options.t) :
  (if bool_decide (identifier ∈ OptionTree.children self)
   then OptionTree.__getitem__ self identifier
   else Ok (OptionTree.INode self)) ≫= OptionTree.item_groups = Ok cg →
  cg = OptionTree.groups (current_node self identifier)
  ∧ (identifier ∈ OptionTree.children self →
     OptionTree.groups self !! identifier = None).
Proof.
  unfold current_node. case_bool_decide as Hin.
  - apply children_assoc in Hin as [c Hc]. rewrite Hc. simpl.
    unfold OptionTree.__getitem__, OptionTree.AttrTree_getitem.
    destruct (OptionTree.groups self !! identifier); simpl; [done|].
    rewrite Hc. simpl. by intros [= <-].
  - simpl. intros [= <-].
    destruct (OptionTree.assoc _ _) eqn:E; [|done].
    exfalso. apply Hin, children_assoc. by eexists.
Qed.

Lemma current_groups_total (self : OptionTree.t) (identifier : string) :
  (identifier ∈ OptionTree.children self →
   OptionTree.groups self !! identifier = None) →
  (if bool_decide (identifier ∈ OptionTree.children self)
   then OptionTree.__getitem__ self identifier
   else Ok (OptionTree.INode self)) ≫= OptionTree.item_groups
  = Ok (OptionTree.groups (current_node self identifier)).
Proof.
  intros Hfree. unfold current_node. case_bool_decide as Hin.
  - rewrite (Hfree Hin) || (unfold OptionTree.__getitem__;
                            rewrite (Hfree Hin)).
    apply children_assoc in Hin as [c Hc].
    unfold OptionTree.AttrTree_getitem. rewrite Hc. done.
  - destruct (OptionTree.assoc _ _) eqn:E; [|done].
    exfalso. apply Hin, children_assoc. by eexists.
Qed.

Lemma inherited_options_Ok (self : OptionTree.t) (path : string)
    (identifier group_name : string) (options o' : Options.t) :
  OptionTree._inherited_options self path identifier group_name options
  = Ok o' →
  ∃ co, OptionTree.groups (current_node self identifier) !! group_name
        = Some co
        ∧ Options.kwargs o' = Options.kwargs options ∪ Options.kwargs co.
Proof.
  unfold OptionTree._inherited_options.
  match goal with |- context [mbind _ ?m] => destruct m as [allowed|e] end;
    simpl; [|done].
  case_bool_decide as Hg; [done|].
  match goal with |- context [mbind _ ?m] =>
    destruct m as [it|e] eqn:Hit end; simpl; [|done].
  destruct (OptionTree.item_groups it) as [cg|e] eqn:Hcg; simpl; [|done].
  assert (cg = OptionTree.groups (current_node self identifier)) as ->.
  { eapply current_groups_Ok. rewrite Hit. simpl. exact Hcg. }
  destruct (_ !! group_name) as [co|] eqn:Hco; simpl; [|done].
  destruct (Options.__call__ co allowed (Options.kwargs options))
    as [o|e] eqn:Hcall.
  - intros [= <-]. exists co. split; [done|].
    by apply Options_call_kwargs in Hcall.
  - by destruct e.
Qed.

Lemma Options_call_accepted (co : Options.t)
    (allowed : option (list string)) (kwargs : gmap string value) :
  (allowed = None ∨ allowed = Options.allowed_keywords co) →
  accepted (Options.allowed_keywords co) (kwargs ∪ Options.kwargs co) →
  ∃ o, Options.__call__ co allowed kwargs = Ok o.
Proof.
  intros Hallowed Hacc. unfold Options.__call__.
  assert (match allowed with
          | Some l => Some l
          | None => Options.allowed_keywords co
          end = Options.allowed_keywords co) as ->.
  { destruct Hallowed as [->| ->]; [done|].
    by destruct (Options.allowed_keywords co). }
  destruct (Options_init_accepted (Options.key co)
              (Options.allowed_keywords co)
              (dict_update (Options.kwargs co) kwargs) Hacc) as (o & -> & _).
  by exists o.
Qed.

Lemma inherited_options_total (self : OptionTree.t) (path : string)
    (identifier group_name : string) (options co : Options.t) :
  OptionTree._instantiated self = true →
  (identifier ∈ OptionTree.children self →
   OptionTree.groups self !! identifier = None) →
  is_Some (OptionTree.groups self !! group_name) →
  OptionTree.groups (current_node self identifier) !! group_name = Some co →
  accepted (Options.allowed_keywords co)
           (Options.kwargs options ∪ Options.kwargs co) →
  ∃ o', OptionTree._inherited_options self path identifier group_name options
        = Ok o'.
Proof.
  intros Hinst Hfree Hg Hco Hacc. unfold OptionTree._inherited_options.
  rewrite Hinst. simpl.
  match goal with |- ∃ _, ?m ≫= _ = _ =>
    assert (∃ allowed,
      m = Ok allowed
      ∧ (allowed = None ∨ allowed = Options.allowed_keywords co))
      as (allowed & -> & Hallowed) end.
  { case_bool_decide as Hin; [|by exists None; split; [|left]].
    unfold OptionTree.__getitem__ at 1. rewrite (Hfree Hin).
    unfold current_node in Hco.
    apply children_assoc in Hin as [c Hc]. rewrite Hc in Hco. simpl in Hco.
    unfold OptionTree.AttrTree_getitem. rewrite Hc. simpl.
    unfold OptionTree.__getitem__. rewrite Hco. simpl.
    eexists. split; [done|by right]. }
  simpl. rewrite bool_decide_false by (intros H; by apply H, elem_of_dom).
  pose proof (current_groups_total self identifier Hfree) as Hcur.
  destruct (if bool_decide (identifier ∈ OptionTree.children self)
            then OptionTree.__getitem__ self identifier
            else Ok (OptionTree.INode self)) as [it|e]; simpl in *; [|done].
  rewrite Hcur. simpl. rewrite Hco. simpl.
  destruct (Options_call_accepted co allowed (Options.kwargs options)
              Hallowed Hacc) as [o ->].
  by exists o.
Qed.

Lemma Forall2_elem_of_left {A B} (P : A → B → Prop) (l : list A)
    (k : list B) (x : A) :
  Forall2 P l k → x ∈ l → ∃ y, y ∈ k ∧ P x y.
Proof.
  induction 1 as [|x' y' l k HP HF IH]; [by intros ?%elem_of_nil|].
  intros [->|Hx]%elem_of_cons.
  - exists y'. split; [left|done].
  - destruct (IH Hx) as (y & Hy & HPy). exists y. split; [by right|done].
Qed.

Section TreeFacts.
Variable sanitize_identifier : string -> string.

Local Abbreviation setattr := (OptionTree.__setattr__ sanitize_identifier).

Lemma new_group_key (self : OptionTree.t) (path identifier : string)
    (group_items : gmap string Options.t) (kv y : string * Options.t) :
  new_group self path identifier group_items kv = Ok y → y.1 = kv.1.
Proof.
  unfold new_group. destruct (group_items !! kv.1); [|by intros [= <-]].
  destruct (OptionTree._inherited_options _ _ _ _ _); simpl; [|done].
  by intros [= <-].
Qed.

Lemma new_groups_keys (self : OptionTree.t) (path identifier : string)
    (group_items : gmap string Options.t)
    (l ng : list (string * Options.t)) :
  Forall2 (fun x y => new_group self path identifier group_items x = Ok y)
          l ng →
  ng.*1 = l.*1.
Proof.
  induction 1 as [|x y l ng Hxy HF IH]; [done|].
  rewrite !fmap_cons, IH. f_equal. by eapply new_group_key.
Qed.

Lemma setattr_unfold (self : OptionTree.t) (path identifier : string)
    (d : gmap string Options.t) :
  setattr self path identifier (OptionTree.SetDict d)
  = (current_groups ←
       (if bool_decide (sanitize_identifier identifier
                        ∈ OptionTree.children self)
        then OptionTree.__getitem__ self (sanitize_identifier identifier)
        else Ok (OptionTree.INode self)) ≫= OptionTree.item_groups;
     new_groups ←
       for_each (new_group self path (sanitize_identifier identifier) d)
                (map_to_list current_groups);
     match new_groups with
     | [] => Err (ValueError
                    "OptionTree only accepts a dictionary of Options.")
     | _ :: _ =>
         Ok (OptionTree.AttrTree_setattr self (sanitize_identifier identifier)
               (OptionTree.Node (Some (sanitize_identifier identifier))
                  (dict_of_pairs new_groups) [] true))
     end).
Proof.
  unfold OptionTree.__setattr__. simpl.
  destruct (if bool_decide _ then _ else _) as [it|e]; simpl; [|done].
  destruct (OptionTree.item_groups it) as [cg|e]; simpl; [|done].
  assert (for_each
            (fun '(group_name, current) =>
               match d !! group_name with
               | Some options =>
                   OptionTree._inherited_options self path
                     (sanitize_identifier identifier) group_name options
                   ≫= (fun o => Ok (group_name, o))
               | None => Ok (group_name, current)
               end) (map_to_list cg)
          = for_each (new_group self path (sanitize_identifier identifier) d)
                     (map_to_list cg)) as ->; [|done].
  induction (map_to_list cg) as [|[g co] l IH]; [done|].
  simpl. by rewrite IH.
Qed.

(** Whenever an assignment of a dictionary of Options to [identifier]
    returns, the node has a child of that name without children of its own,
    in the place of the former child of that name or else in the last
    place; for every group the child holds the Options that the assignment
    started from, with the keywords of the assigned Options merged in. *)
Lemma setattr_Ok (self : OptionTree.t) (path identifier : string)
    (d : gmap string Options.t) (self' : OptionTree.t) :
  setattr self path identifier (OptionTree.SetDict d) = Ok self' →
  ∃ new,
    OptionTree.assoc (sanitize_identifier identifier) (OptionTree.nodes self')
    = Some new
    ∧ OptionTree.identifier new = Some (sanitize_identifier identifier)
    ∧ OptionTree.nodes new = []
    ∧ OptionTree.groups self' = OptionTree.groups self
    ∧ OptionTree.children self'
      = (if bool_decide (sanitize_identifier identifier
                         ∈ OptionTree.children self)
         then OptionTree.children self
         else OptionTree.children self ++ [sanitize_identifier identifier])
    ∧ (∀ other, other ≠ sanitize_identifier identifier →
         OptionTree.assoc other (OptionTree.nodes self')
         = OptionTree.assoc other (OptionTree.nodes self))
    ∧ ∀ g,
        match OptionTree.groups
                (current_node self (sanitize_identifier identifier)) !! g with
        | None => OptionTree.groups new !! g = None
        | Some co =>
            match d !! g with
            | None => OptionTree.groups new !! g = Some co
            | Some o =>
                ∃ o', OptionTree.groups new !! g = Some o'
                      ∧ Options.kwargs o'
                        = Options.kwargs o ∪ Options.kwargs co
            end
        end.
Proof.
  rewrite setattr_unfold. set (id := sanitize_identifier identifier).
  destruct (_ ≫= OptionTree.item_groups) as [cg|e] eqn:Hcg; simpl; [|done].
  apply current_groups_Ok in Hcg as [-> Hfree].
  destruct (for_each _ _) as [ng|e] eqn:Hng; simpl; [|done].
  apply for_each_Ok in Hng.
  destruct ng as [|p ng'] eqn:Eng; [done|]. rewrite <- Eng in *.
  intros [= <-]. eexists. split_and!.
  - simpl. apply assoc_set_same.
  - done.
  - done.
  - done.
  - unfold OptionTree.children. simpl. apply assoc_set_keys.
  - intros other Hother. simpl. by apply assoc_set_other.
  - intros g. simpl.
    pose proof (new_groups_keys _ _ _ _ _ _ Hng) as Hkeys.
    assert (NoDup ng.*1) as Hnd
      by (rewrite Hkeys; apply NoDup_fst_map_to_list).
    rewrite dict_of_pairs_list_to_map by done.
    destruct (OptionTree.groups (current_node self id) !! g) as [co|] eqn:Hco.
    + assert ((g, co) ∈ map_to_list
                (OptionTree.groups (current_node self id))) as Hin
        by (by apply elem_of_map_to_list).
      destruct (Forall2_elem_of_left _ _ _ _ Hng Hin) as ([g' o'] & Hy & Hf).
      pose proof (new_group_key _ _ _ _ _ _ Hf) as Hg'. simpl in Hg'.
      subst g'. unfold new_group in Hf. simpl in Hf.
      destruct (d !! g) as [o|] eqn:Hd.
      * destruct (OptionTree._inherited_options _ _ _ _ _) as [o''|e] eqn:Hi;
          simpl in Hf; [|done].
        injection Hf as ->.
        apply inherited_options_Ok in Hi as (co' & Hco' & Hkw).
        rewrite Hco in Hco'. injection Hco' as <-.
        exists o'. split; [|done]. by apply elem_of_list_to_map.
      * injection Hf as ->. by apply elem_of_list_to_map.
    + apply not_elem_of_list_to_map_1. rewrite Hkeys.
      intros Hin%keys_of_map. rewrite Hco in Hin. by destruct Hin.
Qed.

(** An assignment returns when the tree is constructed, the name of an
    existing child is not also the name of a group, the node it starts from
    has groups, all of them groups of [self], and every merged set of
    keywords passes the allow-list of the Options it is merged into. *)
Lemma setattr_total (self : OptionTree.t) (path identifier : string)
    (d : gmap string Options.t) :
  OptionTree._instantiated self = true →
  (sanitize_identifier identifier ∈ OptionTree.children self →
   OptionTree.groups self !! sanitize_identifier identifier = None) →
  OptionTree.groups (current_node self (sanitize_identifier identifier)) ≠ ∅ →
  (∀ g co o,
     OptionTree.groups (current_node self (sanitize_identifier identifier))
       !! g = Some co →
     d !! g = Some o →
     is_Some (OptionTree.groups self !! g)
     ∧ accepted (Options.allowed_keywords co)
                (Options.kwargs o ∪ Options.kwargs co)) →
  ∃ self', setattr self path identifier (OptionTree.SetDict d) = Ok self'.
Proof.
  intros Hinst Hfree Hne Hd. rewrite setattr_unfold.
  rewrite current_groups_total by done. simpl.
  destruct (for_each_total
              (new_group self path (sanitize_identifier identifier) d)
              (map_to_list (OptionTree.groups
                 (current_node self (sanitize_identifier identifier)))))
    as [ng Hng].
  { intros [g co] Hin%elem_of_map_to_list. unfold new_group. simpl.
    destruct (d !! g) as [o|] eqn:Hdg; [|by eexists].
    destruct (Hd g co o Hin Hdg) as [Hg Hacc].
    destruct (inherited_options_total self path
                (sanitize_identifier identifier) g o co) as [o' ->];
      try done.
    simpl. by eexists. }
  rewrite Hng. simpl.
  destruct ng as [|p ng]; [|by eexists].
  apply for_each_Ok, Forall2_length in Hng. simpl in Hng.
  apply nil_length_inv, map_to_list_empty_iff in Hng. done.
Qed.

End TreeFacts.

(** ** OptionTree: resolution *)

Lemma options_Ok (ancestors : list OptionTree.t) (self : OptionTree.t)
    (group : string) (o : Options.t) :
  OptionTree.options ancestors self group = Ok (Some o) →
  ∀ k, Options.kwargs o !! k = inherited_value (self :: ancestors) group k.
Proof.
  revert self o. induction ancestors as [|parent up IH]; intros self o; simpl.
  - destruct (OptionTree.groups self !! group) as [own|]; [|done].
    intros [= <-] k. simpl. by destruct (Options.kwargs own !! k).
  - destruct (OptionTree.groups self !! group) as [own|] eqn:Hown; [|done].
    destruct (OptionTree.options up parent group) as [[po|]|e] eqn:Hpo;
      simpl; [|done|done].
    rewrite Options_init_plain. simpl. intros [= <-] k. simpl.
    unfold dict_update. rewrite lookup_union.
    specialize (IH parent po Hpo k). simpl in IH. rewrite <- IH.
    by destruct (Options.kwargs own !! k), (Options.kwargs po !! k).
Qed.

Lemma options_total (ancestors : list OptionTree.t) (self : OptionTree.t)
    (group : string) :
  Forall (fun n => is_Some (OptionTree.groups n !! group))
         (self :: ancestors) →
  ∃ o, OptionTree.options ancestors self group = Ok (Some o).
Proof.
  revert self. induction ancestors as [|parent up IH]; intros self H.
  - apply Forall_cons in H as [[own Hown] _]. simpl. rewrite Hown.
    by eexists.
  - apply Forall_cons in H as [[own Hown] H]. simpl. rewrite Hown.
    destruct (IH parent H) as [po ->]. simpl.
    rewrite Options_init_plain. by eexists.
Qed.

(** ** The sanitizer matters only at the names it is applied to *)

Lemma setattr_ext (f g : string → string) (self : OptionTree.t)
    (path identifier : string) (val : OptionTree.setval) :
  f identifier = g identifier →
  OptionTree.__setattr__ f self path identifier val
  = OptionTree.__setattr__ g self path identifier val.
Proof. intros H. unfold OptionTree.__setattr__. by rewrite H. Qed.

Lemma getattr_ext (f g : string → string) (self : OptionTree.t)
    (path identifier : string) :
  f identifier = g identifier →
  OptionTree.getattr f self path identifier
  = OptionTree.getattr g self path identifier.
Proof.
  intros H. unfold OptionTree.getattr, OptionTree.__getattr__.
  by rewrite H, (setattr_ext f g _ _ _ _ H).
Qed.

Lemma assign_ext (f g : string → string) (ancestors : list OptionTree.t)
    (self : OptionTree.t) (attrs : list string) (identifier : string)
    (val : OptionTree.setval) :
  (∀ s, s ∈ identifier :: attrs → f s = g s) →
  OptionTree.assign f ancestors self attrs identifier val
  = OptionTree.assign g ancestors self attrs identifier val.
Proof.
  revert ancestors self.
  induction attrs as [|a attrs IH]; intros ancestors self H; simpl.
  - apply setattr_ext, H. left.
  - rewrite (getattr_ext f g) by (apply H; right; left).
    destruct (OptionTree.getattr g self _ a) as [[[self' stored] [o|c]]|e];
      simpl; [done| |done].
    rewrite IH; [done|]. intros s [->|Hs]%elem_of_cons; apply H.
    + left.
    + by do 2 right.
Qed.

(** ** The example of the two assignments *)

(** C2: an assignment of a group->Options dictionary to a child, whenever
    it returns, leaves a child whose Options are, for every group, those
    currently at that path (of the child if it exists, of the node if not)
    with the new keywords merged in, the new ones winning; it returns when
    the merged keywords are allowed.  The Options resolved for a group at a
    node give every keyword the value of the nearest node, from the node up
    to the root, that defines it.  After [root.A = {'plot': Options(x=1)}]
    and [root.A.B = {'plot': Options(y=2)}], group [plot] resolves to
    [{'x': 1, 'y': 2}] at [A.B] and to [{'x': 1}] at [A]. *)
Theorem OptionTree_assignment_merges (sanitize_identifier : string → string) :
  (∀ self path identifier d self',
     OptionTree.__setattr__ sanitize_identifier self path identifier
       (OptionTree.SetDict d) = Ok self' →
     ∃ new,
       OptionTree.AttrTree_getitem self' (sanitize_identifier identifier)
       = Ok new
       ∧ merged_into
           (OptionTree.groups
              (current_node self (sanitize_identifier identifier)))
           d (OptionTree.groups new))
  ∧ (∀ self path identifier d,
       OptionTree._instantiated self = true →
       (sanitize_identifier identifier ∈ OptionTree.children self →
        OptionTree.groups self !! sanitize_identifier identifier = None) →
       OptionTree.groups
         (current_node self (sanitize_identifier identifier)) ≠ ∅ →
       (∀ g co o,
          OptionTree.groups
            (current_node self (sanitize_identifier identifier)) !! g
          = Some co →
          d !! g = Some o →
          is_Some (OptionTree.groups self !! g)
          ∧ accepted (Options.allowed_keywords co)
                     (Options.kwargs o ∪ Options.kwargs co)) →
       ∃ self',
         OptionTree.__setattr__ sanitize_identifier self path identifier
           (OptionTree.SetDict d) = Ok self')
  ∧ (∀ ancestors self group o,
       OptionTree.options ancestors self group = Ok (Some o) →
       ∀ k, Options.kwargs o !! k
            = inherited_value (self :: ancestors) group k)
  ∧ (∀ ancestors self group,
       Forall (fun n => is_Some (OptionTree.groups n !! group))
              (self :: ancestors) →
       ∃ o, OptionTree.options ancestors self group = Ok (Some o))
  ∧ (sanitize_identifier "A" = "A" → sanitize_identifier "B" = "B" →
     OptionTree.assign sanitize_identifier [] plot_root [] "A"
       (set_plot {[ "x" := VInt 1 ]}) = Ok tree_A
     ∧ OptionTree.assign sanitize_identifier [] tree_A ["A"] "B"
         (set_plot {[ "y" := VInt 2 ]}) = Ok tree_AB
     ∧ OptionTree.AttrTree_getitem tree_AB "A" = Ok node_A
     ∧ OptionTree.AttrTree_getitem node_A "B" = Ok node_AB
     ∧ OptionTree.options [node_A; tree_AB] node_AB "plot"
       = Ok (Some (plain {[ "x" := VInt 1; "y" := VInt 2 ]}))
     ∧ OptionTree.options [tree_AB] node_A "plot"
       = Ok (Some (plain {[ "x" := VInt 1 ]}))).
Proof.
  split_and!.
  - intros self path identifier d self' H.
    apply setattr_Ok in H as (new & Hnew & _ & _ & _ & _ & _ & Hg).
    exists new. split; [|exact Hg].
    unfold OptionTree.AttrTree_getitem. by rewrite Hnew.
  - apply setattr_total.
  - apply options_Ok.
  - apply options_total.
  - intros HA HB. split_and!.
    + rewrite (assign_ext sanitize_identifier no_sanitizer).
      * by vm_compute.
      * intros s [->|Hs]%elem_of_cons; [done|by apply elem_of_nil in Hs].
    + rewrite (assign_ext sanitize_identifier no_sanitizer).
      * by vm_compute.
      * intros s [->|[->|Hs]%elem_of_cons]%elem_of_cons;
          [done|done|by apply elem_of_nil in Hs].
    + by vm_compute.
    + by vm_compute.
    + by vm_compute.
    + by vm_compute.
Qed.

Lemma OptionTree_assignment_merges_witness :
  (∃ self',
     OptionTree.__setattr__ no_sanitizer plot_root "OptionTree" "A"
       (OptionTree.SetDict {[ "plot" := plain {[ "x" := VInt 1 ]} ]})
     = Ok self')
  ∧ OptionTree.assign no_sanitizer [] plot_root [] "A"
      (set_plot {[ "x" := VInt 1 ]}) = Ok tree_A
  ∧ OptionTree.assign no_sanitizer [] tree_A ["A"] "B"
      (set_plot {[ "y" := VInt 2 ]}) = Ok tree_AB
  ∧ OptionTree.AttrTree_getitem tree_AB "A" = Ok node_A
  ∧ OptionTree.AttrTree_getitem node_A "B" = Ok node_AB
  ∧ OptionTree.options [node_A; tree_AB] node_AB "plot"
    = Ok (Some (plain {[ "x" := VInt 1; "y" := VInt 2 ]}))
  ∧ OptionTree.options [tree_AB] node_A "plot"
    = Ok (Some (plain {[ "x" := VInt 1 ]})).
Proof.
  destruct (OptionTree_assignment_merges no_sanitizer)
    as (_ & Htotal & _ & _ & Hexample).
  split; [|apply Hexample; reflexivity].
  apply Htotal.
  - reflexivity.
  - intros H. by apply elem_of_nil in H.
  - apply (map_non_empty_singleton (M:=gmap string)).
  - intros g co o Hco Hd.
    change (({[ "plot" := plain ∅ ]} : gmap string Options.t) !! g = Some co)
      in Hco.
    apply lookup_singleton_Some in Hco as [<- <-]. split.
    + eexists. apply lookup_singleton_eq.
    + intros Ht. discriminate Ht.
Defined.

(** ** OptionTree: find *)

Lemma substring_all (s : string) : substring 0 (String.length s) s = s.
Proof. induction s as [|a s IH]; simpl; [done|]. by rewrite IH. Qed.

Lemma substring_split (s : string) (n : nat) :
  (n ≤ String.length s)%nat →
  s = substring 0 n s +:+ substring n (String.length s - n) s.
Proof.
  revert n. induction s as [|a s IH]; intros n Hn; simpl in *.
  - by destruct n.
  - destruct n as [|n]; simpl.
    + by rewrite substring_all.
    + change (String a s
              = String a (substring 0 n s
                          +:+ substring n (String.length s - n) s)).
      f_equal. apply IH. lia.
Qed.

Lemma substring_suffix (p c : string) :
  substring (String.length p) (String.length c) (p +:+ c) = c.
Proof.
  induction p as [|a p IH]; [apply substring_all|].
  change (substring (String.length p) (String.length c) (p +:+ c) = c).
  done.
Qed.

Lemma length_app_string (p c : string) :
  String.length (p +:+ c) = (String.length p + String.length c)%nat.
Proof.
  induction p as [|a p IH]; [done|].
  change (S (String.length (p +:+ c))
          = S (String.length p + String.length c)).
  by rewrite IH.
Qed.

(** [s.endswith(c)] holds exactly when [c] is a suffix of [s]. *)
Lemma endswith_spec (s c : string) :
  endswith s c = true ↔ ∃ p, s = p +:+ c.
Proof.
  unfold endswith. rewrite andb_true_iff, bool_decide_eq_true, String.eqb_eq.
  split.
  - intros [Hlen Hsub].
    exists (substring 0 (String.length s - String.length c) s).
    pose proof (substring_split s (String.length s - String.length c))
      as Hsplit.
    replace (String.length s - (String.length s - String.length c))%nat
      with (String.length c) in Hsplit by lia.
    rewrite Hsub in Hsplit. apply Hsplit. lia.
  - intros [p ->]. rewrite length_app_string. split; [lia|].
    replace (String.length p + String.length c - String.length c)%nat
      with (String.length p) by lia.
    apply substring_suffix.
Qed.

Lemma no_shadowing_child (t child : OptionTree.t) (c : string) :
  no_shadowing t →
  OptionTree.assoc c (OptionTree.nodes t) = Some child →
  OptionTree.groups t !! c = None ∧ no_shadowing child.
Proof.
  destruct t as [i g ns b]. simpl. intros [Hfree Hall] Hc. split.
  - apply Hfree, assoc_is_Some. by eexists.
  - clear Hfree. induction ns as [|[k n] ns IH]; [done|].
    simpl in Hc. destruct Hall as [Hn Hall].
    destruct (String.eqb c k); [by injection Hc as <-|by apply IH].
Qed.

Section FindFacts.
Variable sanitize_identifier : string -> string.

Local Abbreviation find_step := (OptionTree.find_step sanitize_identifier).
Local Abbreviation find_loop := (OptionTree.find_loop sanitize_identifier).
Local Abbreviation find := (OptionTree.find sanitize_identifier).

Lemma matching_spec (segment c : string) :
  matching sanitize_identifier segment c = true ↔ suffix_match sanitize_identifier segment c.
Proof.
  unfold matching, suffix_match.
  by rewrite orb_true_iff, !endswith_spec.
Qed.

Lemma find_step_unfold (ancestors : list OptionTree.t) (node : OptionTree.t)
    (segment : string) :
  find_step (ancestors, OptionTree.INode node) segment
  = match sorted by_length
            (List.filter (matching sanitize_identifier segment) (OptionTree.children node)) with
    | c :: _ =>
        it ← OptionTree.__getitem__ node c; Ok (node :: ancestors, it)
    | [] => Ok (ancestors, OptionTree.INode node)
    end.
Proof. done. Qed.

Lemma find_step_skip (ancestors : list OptionTree.t) (node : OptionTree.t)
    (segment : string) :
  (∀ c, c ∈ OptionTree.children node →
        ¬ suffix_match sanitize_identifier segment c) →
  find_step (ancestors, OptionTree.INode node) segment
  = Ok (ancestors, OptionTree.INode node).
Proof.
  intros Hnone. rewrite find_step_unfold.
  destruct (sorted _ _) as [|c t] eqn:E; [done|].
  assert (c ∈ List.filter (matching sanitize_identifier segment) (OptionTree.children node))
    as Hc by (apply (sorted_elem_of by_length); rewrite E; left).
  apply list_elem_of_In, filter_In in Hc as [Hc Hm].
  apply list_elem_of_In in Hc. apply matching_spec in Hm.
  by destruct (Hnone c Hc).
Qed.

Lemma find_step_descend (ancestors : list OptionTree.t) (node : OptionTree.t)
    (segment c0 : string) :
  c0 ∈ OptionTree.children node →
  suffix_match sanitize_identifier segment c0 →
  ∃ c, c ∈ OptionTree.children node
       ∧ suffix_match sanitize_identifier segment c
       ∧ (∀ c', c' ∈ OptionTree.children node →
                suffix_match sanitize_identifier segment c' →
                (String.length c' ≤ String.length c)%nat)
       ∧ find_step (ancestors, OptionTree.INode node) segment
         = (it ← OptionTree.__getitem__ node c; Ok (node :: ancestors, it)).
Proof.
  intros Hc0 Hm0. rewrite find_step_unfold.
  assert (c0 ∈ List.filter (matching sanitize_identifier segment) (OptionTree.children node))
    as Hin0.
  { apply list_elem_of_In, filter_In. split; [by apply list_elem_of_In|].
    by apply matching_spec. }
  destruct (sorted _ _) as [|c t] eqn:E.
  { apply sorted_nil_inv in E. rewrite E in Hin0.
    by apply elem_of_nil in Hin0. }
  assert (c ∈ List.filter (matching sanitize_identifier segment) (OptionTree.children node))
    as Hc by (apply (sorted_elem_of by_length); rewrite E; left).
  apply list_elem_of_In, filter_In in Hc as [Hc Hm].
  apply list_elem_of_In in Hc. apply matching_spec in Hm.
  exists c. split_and!; [done|done| |done].
  intros c' Hc' Hm'.
  assert (c' ∈ List.filter (matching sanitize_identifier segment) (OptionTree.children node))
    as Hin'.
  { apply list_elem_of_In, filter_In. split; [by apply list_elem_of_In|].
    by apply matching_spec. }
  assert (- Z.of_nat (String.length c) <= - Z.of_nat (String.length c'))
    as Hleast; [|lia].
  apply (sorted_head_least by_length
           (fun x => - Z.of_nat (String.length x))
           (List.filter (matching sanitize_identifier segment) (OptionTree.children node)) c t);
    [|intros a b H%Z.ltb_lt; lia|done|done].
  intros a b H. by apply Z.ltb_lt.
Qed.

(** On a tree without shadowed children [find] returns a node, the one the
    greedy walk ends in. *)
Lemma find_loop_walk (path : list string) (ancestors : list OptionTree.t)
    (node : OptionTree.t) :
  no_shadowing node →
  ∃ ancestors' node',
    find_loop (ancestors, OptionTree.INode node) path
    = Ok (ancestors', OptionTree.INode node')
    ∧ greedy_walk sanitize_identifier node path node'.
Proof.
  revert ancestors node.
  induction path as [|segment rest IH]; intros ancestors node Hwf.
  - exists ancestors, node. split; [done|constructor].
  - cbn [OptionTree.find_loop].
    destruct (List.filter (matching sanitize_identifier segment) (OptionTree.children node))
      as [|c0 l0] eqn:Ef.
    2: { assert (In c0 (List.filter (matching sanitize_identifier segment)
                          (OptionTree.children node))) as Hin0
           by (rewrite Ef; left; done).
      apply filter_In in Hin0 as [Hc0 Hm0].
      apply list_elem_of_In in Hc0. apply matching_spec in Hm0.
      destruct (find_step_descend ancestors node segment c0 Hc0 Hm0)
        as (c & Hc & Hm & Hmax & ->).
      apply children_assoc in Hc as [child Hchild].
      destruct (no_shadowing_child node child c Hwf Hchild) as [Hfree Hwf'].
      unfold OptionTree.__getitem__, OptionTree.AttrTree_getitem.
      rewrite Hfree, Hchild. simpl.
      destruct (IH (node :: ancestors) child Hwf') as (a' & n' & -> & Hwalk).
      exists a', n'. split; [done|]. by eapply walk_descend. }
    + assert (∀ c, c ∈ OptionTree.children node →
                   ¬ suffix_match sanitize_identifier segment c) as Hn.
      { intros c Hc Hm.
        assert (In c (List.filter (matching sanitize_identifier segment)
                        (OptionTree.children node))) as Hin.
        { apply filter_In. split; [by apply list_elem_of_In|].
          by apply matching_spec. }
        by rewrite Ef in Hin. }
      rewrite find_step_skip by done. simpl.
      destruct (IH ancestors node Hwf) as (a' & n' & -> & Hwalk).
      exists a', n'. split; [done|]. by apply walk_skip.
Qed.

End FindFacts.

(** ** The examples of [find] *)

(** On a tree in which no child goes by the name of a group of its parent,
    [find] returns a node for every path, the node in which the greedy walk
    ends: at every segment the walk goes down into a child whose name is a
    suffix of the segment, raw or sanitized, and at least as long as every
    other such name, and it stays where it is when no child matches;
    finding [['Image', 'Sub']] when the only child is [Image] returns the
    [Image] node. *)
Theorem OptionTree_find_greedy (sanitize_identifier : string → string)
    (ancestors : list OptionTree.t) (self : OptionTree.t)
    (path : OptionTree.path_arg) :
  no_shadowing self →
  (∃ ancestors' node,
     OptionTree.find sanitize_identifier ancestors self path
     = Ok (ancestors', OptionTree.INode node)
     ∧ greedy_walk sanitize_identifier self (OptionTree.segments path) node)
  ∧ OptionTree.children image_tree = ["Image"]
  ∧ OptionTree.find sanitize_identifier [] image_tree
      (OptionTree.PathSeq ["Image"; "Sub"])
    = Ok ([image_tree], OptionTree.INode image_node)
  ∧ OptionTree.find sanitize_identifier [] image_tree
      (OptionTree.PathStr "Image.Sub")
    = Ok ([image_tree], OptionTree.INode image_node).
Proof.
  intros Hwf. split_and!.
  - by apply find_loop_walk.
  - by vm_compute.
  - by vm_compute.
  - by vm_compute.
Qed.

Lemma OptionTree_find_greedy_witness :
  ∃ ancestors' node,
    OptionTree.find no_sanitizer [] image_tree
      (OptionTree.PathStr "RGBImage.Sub")
    = Ok (ancestors', OptionTree.INode node)
    ∧ greedy_walk no_sanitizer image_tree
        (OptionTree.segments (OptionTree.PathStr "RGBImage.Sub")) node.
Proof.
  apply (OptionTree_find_greedy no_sanitizer [] image_tree
           (OptionTree.PathStr "RGBImage.Sub")).
  assert (∃ t, image_tree = t ∧ no_shadowing t) as (t & -> & H); [|exact H].
  eexists. split; [vm_compute; reflexivity|].
  split.
  - intros c Hc. apply list_elem_of_singleton in Hc as ->.
    vm_compute. reflexivity.
  - simpl. split; [|exact I]. split; [|exact I].
    intros c Hc. by apply elem_of_nil in Hc.
Defined.

(** C6: [find] is to go down into the existing child with the longest
    matching name and never to raise.  On a tree with a child named like a
    group it does not: where it indexes the node by the name of the child
    it gets the Options of the group, which it returns for the path
    [['Plot']], and it raises at the next segment of [['Plot', 'X']];
    reading the attribute [Plot] of the node gives the child. *)
Lemma OptionTree_find_shadowed_child :
  OptionTree.assign no_sanitizer [] shadow_root [] "Plot"
    (OptionTree.SetDict {[ "Plot" := plain {[ "x" := VInt 1 ]} ]})
  = Ok shadow_tree
  ∧ OptionTree.children shadow_tree = ["Plot"]
  ∧ OptionTree.getattr no_sanitizer shadow_tree "OptionTree" "Plot"
    = Ok (shadow_tree, "Plot",
          OptionTree.INode
            (OptionTree.Node (Some "Plot")
               {[ "Plot" := plain {[ "x" := VInt 1 ]} ]} [] true))
  ∧ OptionTree.find no_sanitizer [] shadow_tree (OptionTree.PathStr "Plot")
    = Ok ([shadow_tree], OptionTree.IOptions (plain ∅))
  ∧ OptionTree.find no_sanitizer [] shadow_tree (OptionTree.PathStr "Plot.X")
    = Err (AttributeError "children").
Proof. by vm_compute. Qed.

(** * Further properties of the code *)

(** ** The order of strings *)

Lemma ascii_compare_refl (a : ascii) : Ascii.compare a a = Eq.
Proof. unfold Ascii.compare. apply N.compare_refl. Qed.

Lemma string_compare_refl (s : string) : String.compare s s = Eq.
Proof.
  induction s as [|a s IH]; simpl; [done|]. by rewrite ascii_compare_refl.
Qed.

Lemma string_ltb_irrefl (s : string) : String.ltb s s = false.
Proof. unfold String.ltb. by rewrite string_compare_refl. Qed.

Lemma string_compare_trans (a b c : string) :
  String.compare a b = Lt → String.compare b c = Lt → String.compare a c = Lt.
Proof.
  revert b c. induction a as [|x a IH]; intros [|y b] [|z c]; simpl; try done.
  destruct (Ascii.compare x y) eqn:Exy; try done.
  - apply Ascii.compare_eq_iff in Exy as ->.
    destruct (Ascii.compare y z); try done. apply IH.
  - intros _. destruct (Ascii.compare y z) eqn:Eyz; try done.
    + apply Ascii.compare_eq_iff in Eyz as <-. by rewrite Exy.
    + intros _. unfold Ascii.compare in *.
      apply N.compare_lt_iff in Exy, Eyz.
      assert ((N_of_ascii x ?= N_of_ascii z)%N = Lt) as ->; [|done].
      apply N.compare_lt_iff. by etrans.
Qed.

Lemma string_ltb_trans (a b c : string) :
  String.ltb a b = true → String.ltb b c = true → String.ltb a c = true.
Proof.
  unfold String.ltb. intros Hab Hbc.
  destruct (String.compare a b) eqn:Eab; try done.
  destruct (String.compare b c) eqn:Ebc; try done.
  by rewrite (string_compare_trans a b c).
Qed.

Lemma string_ltb_asym (a b : string) :
  String.ltb a b = true → String.ltb b a = false.
Proof.
  intros Hab. destruct (String.ltb b a) eqn:Hba; [|done].
  pose proof (string_ltb_trans a b a Hab Hba) as H.
  by rewrite string_ltb_irrefl in H.
Qed.

Lemma string_ltb_total (a b : string) :
  String.ltb a b = false → String.ltb b a = false → a = b.
Proof.
  unfold String.ltb. rewrite (String.compare_antisym b a).
  destruct (String.compare a b) eqn:E; try done.
  intros _ _. by apply String.compare_eq_iff.
Qed.

(** What is not below is above or equal: [¬ c < b] and [¬ b < a] give
    [¬ c < a]. *)
Lemma string_ltb_neg_trans (a b c : string) :
  String.ltb c b = false → String.ltb b a = false → String.ltb c a = false.
Proof.
  intros Hcb Hba. destruct (String.ltb c a) eqn:Hca; [|done].
  destruct (String.ltb a b) eqn:Hab.
  - by rewrite (string_ltb_trans c a b) in Hcb.
  - rewrite (string_ltb_total a b Hab Hba) in Hca. by rewrite Hca in Hcb.
Qed.

(** A list is ascending when no element is below an earlier one. *)
Lemma insert_sorted_ltb_ascending (x : string) (l : list string) :
  StronglySorted (fun a b => String.ltb b a = false) l →
  StronglySorted (fun a b => String.ltb b a = false)
                 (insert_sorted String.ltb x l).
Proof.
  induction 1 as [|y l Hl IH Hy]; simpl; [repeat constructor|].
  rewrite Forall_forall in Hy.
  destruct (String.ltb y x) eqn:Hyx.
  - constructor; [done|].
    apply Forall_forall. intros z Hz.
    rewrite (insert_sorted_perm String.ltb x l) in Hz.
    apply elem_of_cons in Hz as [->|Hz]; [by apply string_ltb_asym|auto].
  - constructor; [by constructor; [|apply Forall_forall]|].
    apply Forall_forall. intros z Hz.
    apply elem_of_cons in Hz as [->|Hz]; [done|].
    apply (string_ltb_neg_trans _ y); auto.
Qed.

Lemma sorted_ltb_ascending (l : list string) :
  StronglySorted (fun a b => String.ltb b a = false) (sorted String.ltb l).
Proof.
  induction l as [|x l IH]; [constructor|].
  by apply insert_sorted_ltb_ascending.
Qed.

(** Sorting an ascending list changes nothing. *)
Lemma sorted_ltb_fixed (l : list string) :
  StronglySorted (fun a b => String.ltb b a = false) l →
  sorted String.ltb l = l.
Proof.
  induction 1 as [|x l Hl IH Hx]; [done|].
  change (insert_sorted String.ltb x (sorted String.ltb l) = x :: l).
  rewrite IH. destruct l as [|y l]; [done|].
  apply Forall_cons in Hx as [Hxy _]. simpl. by rewrite Hxy.
Qed.

Lemma sorted_ltb_idemp (l : list string) :
  sorted String.ltb (sorted String.ltb l) = sorted String.ltb l.
Proof. apply sorted_ltb_fixed, sorted_ltb_ascending. Qed.

(** Without duplicates the ascent is strict. *)
Lemma sorted_ltb_strict (l : list string) :
  NoDup l →
  StronglySorted (fun a b => String.ltb a b = true) (sorted String.ltb l).
Proof.
  intros Hnd.
  assert (NoDup (sorted String.ltb l)) as Hnd'
    by (by rewrite (sorted_perm String.ltb l)).
  pose proof (sorted_ltb_ascending l) as Hs.
  induction Hs as [|x k Hk IH Hx]; [constructor|].
  apply NoDup_cons in Hnd' as [Hxk Hndk].
  constructor; [by apply IH|].
  rewrite Forall_forall in Hx. apply Forall_forall. intros y Hy.
  destruct (String.ltb x y) eqn:Hxy; [done|].
  rewrite (string_ltb_total x y Hxy (Hx y Hy)) in Hxk. done.
Qed.

(** ** Cycle: truncation *)

Lemma Cycle_init_values (default_cycles : gmap string (list value))
    (key : string) (vs : list value) :
  vs ≠ [] →
  Cycle.__init__ default_cycles (Some key) (Some vs) = Ok (Cycle.mk key vs).
Proof. by destruct vs. Qed.

Lemma take_ne_nil {A} (n : nat) (l : list A) :
  (0 < n)%nat → l ≠ [] → take n l ≠ [].
Proof. destruct n, l; simpl; try done. lia. Qed.

Lemma Cycle_call_values (default_cycles : gmap string (list value))
    (self : Cycle.t) (vs : list value) :
  Cycle.values self ≠ [] →
  Cycle.__call__ default_cycles self (Some vs)
  = Ok (Cycle.mk (Cycle.key self)
          (match vs with [] => Cycle.values self | _ => vs end)).
Proof.
  intros Hne. unfold Cycle.__call__.
  destruct vs as [|v vs]; simpl; by rewrite Cycle_init_values.
Qed.

(** X2: indexing a Cycle that has values with [num] never fails and gives
    a Cycle of the same key that is never empty: its first [num] values
    for a positive [num], all but its last [-num] values for a negative
    [num] above minus the length, and all of its values when the slice
    is empty, as it is for [num = 0]. *)
Theorem Cycle_getitem_truncates (default_cycles : gmap string (list value))
    (self : Cycle.t) (num : Z) :
  Cycle.values self ≠ [] →
  ∃ c, Cycle.__getitem__ default_cycles self num = Ok c
       ∧ Cycle.key c = Cycle.key self
       ∧ Cycle.values c ≠ []
       ∧ (0 < num →
          Cycle.values c = take (Z.to_nat num) (Cycle.values self))
       ∧ (- Z.of_nat (length (Cycle.values self)) < num < 0 →
          Cycle.values c
          = take (Z.to_nat (Z.of_nat (length (Cycle.values self)) + num))
                 (Cycle.values self))
       ∧ (num = 0 ∨ num <= - Z.of_nat (length (Cycle.values self)) →
          Cycle.values c = Cycle.values self).
Proof.
  intros Hne. unfold Cycle.__getitem__. rewrite Cycle_call_values by done.
  eexists. split; [done|]. split; [done|]. simpl.
  unfold slice_to. split_and!.
  - destruct (0 <=? num) eqn:E.
    + destruct (take (Z.to_nat num) (Cycle.values self)) eqn:Et; done.
    + destruct (take _ (Cycle.values self)) eqn:Et; done.
  - intros Hpos. rewrite (proj2 (Z.leb_le 0 num)) by lia.
    pose proof (take_ne_nil (Z.to_nat num) (Cycle.values self)) as Ht.
    destruct (take (Z.to_nat num) (Cycle.values self)); [|done].
    exfalso. apply Ht; [lia|done|done].
  - intros [Hlo Hhi]. rewrite (proj2 (Z.leb_gt 0 num)) by lia.
    pose proof (take_ne_nil
                  (Z.to_nat (Z.of_nat (length (Cycle.values self)) + num))
                  (Cycle.values self)) as Ht.
    destruct (take _ (Cycle.values self)); [|done].
    exfalso. apply Ht; [lia|done|done].
  - intros [->|Hle]; [done|].
    destruct (0 <=? num) eqn:E.
    + apply Z.leb_le in E.
      assert (num = 0) as -> by lia. done.
    + replace (Z.to_nat (Z.of_nat (length (Cycle.values self)) + num))
        with 0%nat by lia.
      done.
Qed.

Lemma Cycle_getitem_truncates_witness :
  ∃ c, Cycle.__getitem__ ∅ (Cycle.mk "" [VInt 1; VInt 2; VInt 3]) 2 = Ok c
       ∧ Cycle.values c = [VInt 1; VInt 2].
Proof.
  destruct (Cycle_getitem_truncates ∅ (Cycle.mk "" [VInt 1; VInt 2; VInt 3]) 2)
    as (c & Hc & _ & _ & Hpos & _); [done|].
  exists c. split; [exact Hc|]. apply Hpos. lia.
Defined.

(** ** Options: inheritance and truncation *)

Lemma validate_Ok (allowed : option (list string)) (l : list string) :
  Options.validate allowed l = Ok () →
  Options.truthy allowed = true → ∀ k, k ∈ l → k ∈ default [] allowed.
Proof.
  intros Hv Ht. induction l as [|x l IH]; intros k Hk.
  - by apply elem_of_nil in Hk.
  - simpl in Hv. rewrite Ht in Hv. simpl in Hv.
    case_bool_decide as Hx; [|done]. simpl in Hv.
    apply elem_of_cons in Hk as [->|Hk]; [done|by apply IH].
Qed.

Lemma keys_of_elem_of (kwargs : gmap string value) (k : string) :
  k ∈ Options.keys_of kwargs ↔ is_Some (kwargs !! k).
Proof.
  unfold Options.keys_of.
  by rewrite (sorted_elem_of String.ltb), keys_of_map.
Qed.

(** What [Options.__init__] returns, and when. *)
Lemma Options_init_Ok (key : option string) (allowed : option (list string))
    (kwargs : gmap string value) (o : Options.t) :
  Options.__init__ key allowed kwargs = Ok o →
  accepted allowed kwargs
  ∧ o = Options.mk
          (if Options.truthy allowed
           then Some (sorted String.ltb (default [] allowed)) else None)
          key kwargs (Options._expand_options kwargs).
Proof.
  unfold Options.__init__.
  destruct (Options.validate allowed (Options.keys_of kwargs)) as [[]|e] eqn:Ev;
    [|done].
  simpl. intros [= <-]. split; [|done].
  intros Ht k Hk. apply (validate_Ok _ _ Ev Ht). by apply keys_of_elem_of.
Qed.

Lemma Options_init_rejected (key : option string) (allowed : list string)
    (kwargs : gmap string value) (k : string) :
  allowed ≠ [] → is_Some (kwargs !! k) → k ∉ allowed →
  ∃ kw, Options.__init__ key (Some allowed) kwargs
        = Err (OptionError kw allowed None None)
        ∧ is_Some (kwargs !! kw) ∧ kw ∉ allowed.
Proof.
  intros Hne Hk Hnot.
  destruct (validate_rejects allowed (Options.keys_of kwargs) k Hne)
    as (kw & before & after & Hv & Hl & _ & Hkw); [by apply keys_of_elem_of|done|].
  exists kw. unfold Options.__init__. rewrite Hv. split_and!; [done| |done].
  apply keys_of_elem_of. rewrite Hl. apply elem_of_app. right. left.
Qed.

Lemma truthy_sorted (allowed : option (list string)) :
  Options.truthy
    (if Options.truthy allowed
     then Some (sorted String.ltb (default [] allowed)) else None)
  = Options.truthy allowed.
Proof.
  destruct allowed as [[|a l]|]; try done. simpl.
  destruct (insert_sorted String.ltb a (sorted String.ltb l)) eqn:E; [|done].
  apply (f_equal length) in E.
  rewrite (Permutation_length (insert_sorted_perm String.ltb a _)) in E.
  done.
Qed.

(** The allow-list that [Options.__init__] stores is stored again as it is. *)
Lemma stored_keywords_fixed (allowed : option (list string)) :
  let stored :=
    if Options.truthy allowed
    then Some (sorted String.ltb (default [] allowed)) else None in
  (if Options.truthy stored
   then Some (sorted String.ltb (default [] stored)) else None) = stored.
Proof.
  intros stored. subst stored. rewrite truthy_sorted.
  destruct (Options.truthy allowed); [|done].
  simpl. by rewrite sorted_ltb_idemp.
Qed.

Lemma accepted_stored (allowed : option (list string))
    (kwargs : gmap string value) :
  accepted
    (if Options.truthy allowed
     then Some (sorted String.ltb (default [] allowed)) else None) kwargs
  ↔ accepted allowed kwargs.
Proof.
  unfold accepted. rewrite truthy_sorted.
  destruct (Options.truthy allowed); [|done]. simpl.
  split; intros H Ht k Hk; specialize (H Ht k Hk).
  - by apply (sorted_elem_of String.ltb k (default [] allowed)) in H.
  - by apply (sorted_elem_of String.ltb k (default [] allowed)).
Qed.



(** X4: [keys] lists every keyword of the object once, in the ascending
    order of strings. *)
Theorem Options_keys_sorted (self : Options.t) :
  (∀ k, k ∈ Options.keys self ↔ is_Some (Options.kwargs self !! k))
  ∧ NoDup (Options.keys self)
  ∧ StronglySorted (fun a b => String.ltb a b = true) (Options.keys self).
Proof.
  unfold Options.keys, Options.keys_of. split_and!.
  - intros k. apply keys_of_elem_of.
  - rewrite (sorted_perm String.ltb). apply NoDup_fst_map_to_list.
  - apply sorted_ltb_strict, NoDup_fst_map_to_list.
Qed.

Lemma for_each_map {A B} (f : A → result B) (g : A → B) (l : list A) :
  (∀ x, x ∈ l → f x = Ok (g x)) → for_each f l = Ok (map g l).
Proof.
  induction l as [|x l IH]; intros H; [done|].
  simpl. rewrite (H x) by left. simpl.
  rewrite IH; [done|]. intros y Hy. apply H. by right.
Qed.

Lemma dict_of_pairs_map_values {V} (h : V → V) (m : gmap string V) :
  dict_of_pairs (map (fun kv : string * V => (kv.1, h kv.2)) (map_to_list m))
  = h <$> m.
Proof.
  rewrite dict_of_pairs_list_to_map.
  - change (map (λ kv : string * V, (kv.1, h kv.2)) (map_to_list m))
      with (prod_map id h <$> map_to_list m).
    by rewrite list_to_map_fmap, list_to_map_to_list.
  - change (map (λ kv : string * V, (kv.1, h kv.2)) (map_to_list m))
      with ((fun kv : string * V => (kv.1, h kv.2)) <$> map_to_list m).
    rewrite <- list_fmap_compose.
    apply (NoDup_fst_map_to_list m).
Qed.

Lemma value_at_truncated (n i : nat) (v : value) :
  (i < n)%nat → value_at i (truncated n v) = value_at i v.
Proof.
  intros Hi. destruct v; simpl; try done.
  apply lookup_take_lt.
  done.
Qed.

Lemma filter_cycles_truncated (n : nat) (kwargs : gmap string value) :
  filter_cycles (truncated n <$> kwargs) = [] ↔ filter_cycles kwargs = [].
Proof.
  rewrite !filter_cycles_nil. split; intros H k v Hk.
  - specialize (H k (truncated n v)). rewrite lookup_fmap, Hk in H.
    specialize (H eq_refl). by destruct v.
  - rewrite lookup_fmap in Hk.
    destruct (kwargs !! k) as [v0|] eqn:E; [|done]. injection Hk as <-.
    specialize (H k v0 E). by destruct v0.
Qed.

(** The expansion of the truncated keywords is the head of the expansion. *)
Lemma expand_options_truncated (n : nat) (kwargs : gmap string value) :
  (0 < n)%nat →
  Options._expand_options (truncated n <$> kwargs)
  = take n (Options._expand_options kwargs).
Proof.
  intros Hn.
  destruct (decide (filter_cycles kwargs = [])) as [Hnil|Hcyc].
  { assert (truncated n <$> kwargs = kwargs) as ->.
    { apply map_eq. intros k. rewrite lookup_fmap.
      destruct (kwargs !! k) as [v|] eqn:E; [|done]. simpl. f_equal.
      pose proof (proj1 (filter_cycles_nil kwargs) Hnil k v E) as Hv.
      by destruct v. }
    rewrite expand_options_static by done. destruct n; [lia|].
    simpl. by rewrite take_nil. }
  assert (filter_cycles (truncated n <$> kwargs) ≠ []) as Hcyc'
    by (by rewrite filter_cycles_truncated).
  assert (length (Options._expand_options (truncated n <$> kwargs))
          = length (take n (Options._expand_options kwargs))) as Hlen.
  { rewrite length_take.
    destruct (expand_options_length_attained kwargs Hcyc)
      as (k & ck & vs & Hk & HL).
    destruct (expand_options_length_attained _ Hcyc')
      as (k' & ck' & vs' & Hk' & HL').
    rewrite lookup_fmap in Hk'.
    destruct (kwargs !! k') as [v0|] eqn:E0; [|done].
    destruct v0 as [| | | | |ck0 vs0]; try done.
    simpl in Hk'. injection Hk' as <- <-.
    pose proof (expand_options_length_le kwargs k' ck0 vs0 E0) as Hle.
    pose proof (expand_options_length_le (truncated n <$> kwargs) k ck
                  (take n vs)) as Hle'.
    rewrite lookup_fmap, Hk in Hle'. specialize (Hle' eq_refl).
    rewrite length_take in *. lia. }
  apply list_eq. intros i.
  destruct (Options._expand_options (truncated n <$> kwargs) !! i)
    as [d'|] eqn:Ed'.
  - pose proof (lookup_lt_Some _ _ _ Ed') as Hi.
    rewrite Hlen, length_take in Hi.
    rewrite lookup_take_lt by lia.
    destruct (lookup_lt_is_Some_2 (Options._expand_options kwargs) i)
      as [d Ed]; [lia|].
    rewrite Ed. f_equal. apply map_eq. intros k.
    rewrite (expand_options_lookup _ i d' k Hcyc' Ed').
    rewrite (expand_options_lookup _ i d k Hcyc Ed).
    rewrite lookup_fmap. destruct (kwargs !! k) as [v|]; [|done].
    simpl. apply value_at_truncated. lia.
  - symmetry. apply lookup_ge_None. rewrite <- Hlen.
    by apply lookup_ge_None.
Qed.

Lemma Cycle_getitem_values (default_cycles : gmap string (list value))
    (self : Cycle.t) (num : Z) :
  Cycle.values self ≠ [] →
  ∃ c, Cycle.__getitem__ default_cycles self num = Ok c
       ∧ Cycle.key c = Cycle.key self
       ∧ (0 < num →
          Cycle.values c = take (Z.to_nat num) (Cycle.values self))
       ∧ (num = 0 → Cycle.values c = Cycle.values self).
Proof.
  intros Hne. unfold Cycle.__getitem__. rewrite Cycle_call_values by done.
  eexists. split; [done|]. split; [done|]. simpl.
  unfold slice_to. split.
  - intros Hpos. rewrite (proj2 (Z.leb_le 0 num)) by lia.
    pose proof (take_ne_nil (Z.to_nat num) (Cycle.values self)) as Ht.
    destruct (take (Z.to_nat num) (Cycle.values self)); [|done].
    exfalso. apply Ht; [lia|done|done].
  - by intros ->.
Qed.

(** A call whose keywords are keywords of the object passes the
    validation that the object passed. *)
Lemma Options_call_same_keys (key : option string)
    (allowed : option (list string)) (kwargs : gmap string value)
    (self : Options.t) (kw : gmap string value) :
  Options.__init__ key allowed kwargs = Ok self →
  (∀ k, is_Some (kw !! k) → is_Some (kwargs !! k)) →
  ∃ o, Options.__call__ self None kw = Ok o
       ∧ Options.key o = Options.key self
       ∧ Options.allowed_keywords o = Options.allowed_keywords self
       ∧ Options.kwargs o = kw ∪ kwargs
       ∧ Options._options o = Options._expand_options (kw ∪ kwargs).
Proof.
  intros Hinit Hkeys. apply Options_init_Ok in Hinit as [Hacc ->].
  unfold Options.__call__, dict_update. simpl.
  destruct (Options_init_accepted key
              (if Options.truthy allowed
               then Some (sorted String.ltb (default [] allowed))
               else None) (kw ∪ kwargs)) as (o & -> & Hkw & Hkey & Hopts & Hal).
  { apply accepted_stored. intros Ht k Hk. apply (Hacc Ht).
    rewrite lookup_union in Hk.
    destruct (kw !! k) eqn:E1, (kwargs !! k) eqn:E2; try done.
    rewrite <- E2. apply Hkeys. by rewrite E1. }
  exists o. split_and!; try done.
  rewrite Hal. apply stored_keywords_fixed.
Qed.

(** X5: for a positive [num], on an Options object whose Cycles have values,
    [max_cycles] never fails: it gives an object of the same key and
    allow-list in which every Cycle is cut down to its first [num] values,
    and whose expanded dictionaries are the first [num] of those of the
    object; [max_cycles(0)] cuts nothing and gives an object equal to the
    one it is called on. *)
Theorem Options_max_cycles_truncates
    (default_cycles : gmap string (list value)) (key : option string)
    (allowed : option (list string)) (kwargs : gmap string value)
    (self : Options.t) (num : Z) :
  Options.__init__ key allowed kwargs = Ok self →
  (∀ k ck vs, kwargs !! k = Some (VCycle ck vs) → vs ≠ []) →
  (0 < num →
   ∃ o, Options.max_cycles default_cycles self num = Ok o
        ∧ Options.key o = Options.key self
        ∧ Options.allowed_keywords o = Options.allowed_keywords self
        ∧ Options.kwargs o = truncated (Z.to_nat num) <$> kwargs
        ∧ Options._options o
          = take (Z.to_nat num) (Options._options self))
  ∧ Options.max_cycles default_cycles self 0 = Ok self.
Proof.
  intros Hinit Hne.
  assert (∀ n : Z, 0 <= n →
            Options.max_cycles default_cycles self n
            = Options.__call__ self None
                ((if bool_decide (n = 0) then id
                  else truncated (Z.to_nat n)) <$> kwargs)) as Hmax.
  { intros n Hn. unfold Options.max_cycles.
    pose proof Hinit as Hself. apply Options_init_Ok in Hself as [_ ->].
    cbn [Options.kwargs].
    rewrite (for_each_map _
               (fun kv : string * value =>
                  (kv.1, (if bool_decide (n = 0) then id
                          else truncated (Z.to_nat n)) kv.2))).
    - simpl. by rewrite dict_of_pairs_map_values.
    - intros [k v] Hk. apply elem_of_map_to_list in Hk. simpl.
      destruct v as [| | | | |ck vs]; simpl; try by case_bool_decide.
      destruct (Cycle_getitem_values default_cycles (Cycle.mk ck vs) n)
        as (c & -> & Hkey & Hpos & Hzero); [by apply (Hne k ck)|].
      simpl. unfold Cycle.to_value. rewrite Hkey. simpl.
      case_bool_decide as Hz.
      + by rewrite Hzero.
      + rewrite Hpos by lia. done. }
  split.
  - intros Hpos. rewrite Hmax by lia.
    rewrite bool_decide_false by lia.
    destruct (Options_call_same_keys key allowed kwargs self
                (truncated (Z.to_nat num) <$> kwargs) Hinit)
      as (o & -> & Hk & Hal & Hkw & Hopts).
    { intros k. rewrite lookup_fmap. apply fmap_is_Some. }
    exists o. split_and!; try done.
    + rewrite Hkw. apply map_eq. intros k.
      rewrite lookup_union, !lookup_fmap.
      by destruct (kwargs !! k).
    + rewrite Hopts.
      assert ((truncated (Z.to_nat num) <$> kwargs) ∪ kwargs
              = truncated (Z.to_nat num) <$> kwargs) as ->.
      { apply map_eq. intros k. rewrite lookup_union, !lookup_fmap.
        by destruct (kwargs !! k). }
      rewrite expand_options_truncated by lia.
      apply Options_init_Ok in Hinit as [_ ->]. done.
  - rewrite Hmax by lia. rewrite bool_decide_true by done.
    rewrite map_fmap_id.
    destruct (Options_call_same_keys key allowed kwargs self kwargs Hinit)
      as (o & -> & Hk & Hal & Hkw & Hopts); [done|].
    assert (kwargs ∪ kwargs = kwargs) as Hid.
    { apply map_eq. intros i. rewrite lookup_union.
      by destruct (kwargs !! i). }
    rewrite Hid in Hkw, Hopts.
    f_equal. apply Options_init_Ok in Hinit as [_ ->].
    destruct o as [a k kws os]. simpl in *. by subst.
Qed.

Lemma Options_max_cycles_truncates_witness :
  ∃ o, Options.max_cycles ∅ example_options 1 = Ok o
       ∧ Options.key o = Options.key example_options
       ∧ Options.allowed_keywords o
         = Options.allowed_keywords example_options
       ∧ Options.kwargs o = truncated (Z.to_nat 1) <$> example_kwargs
       ∧ Options._options o
         = take (Z.to_nat 1) (Options._options example_options).
Proof.
  apply (Options_max_cycles_truncates ∅ None None example_kwargs
           example_options 1).
  - reflexivity.
  - intros k ck vs Hk. unfold example_kwargs in Hk.
    apply (lookup_insert_Some (M:=gmap string)) in Hk
      as [[_ [= <- <-]]|[_ Hk]]; [done|].
    apply (lookup_insert_Some (M:=gmap string)) in Hk
      as [[_ [= <- <-]]|[_ Hk]]; [done|].
    apply lookup_singleton_Some in Hk as [_ [=]].
  - lia.
Defined.

(** ** OptionTree: what an assignment keeps and what it rejects *)

Lemma for_each_Err {A B} (f : A → result B) (l : list A) (x : A) (e : exn) :
  x ∈ l → f x = Err e →
  (∀ y, y ∈ l → f y = Err e ∨ is_ok (f y) = true) →
  for_each f l = Err e.
Proof.
  induction l as [|a l IH]; intros Hx Hfx Hall; [by apply elem_of_nil in Hx|].
  simpl. destruct (Hall a) as [Ha|Ha]; [left|by rewrite Ha|].
  destruct (f a) as [b|e'] eqn:Efa; [|done]. simpl.
  rewrite IH; [done| |done|].
  - apply elem_of_cons in Hx as [->|Hx]; [|done].
    by rewrite Hfx in Efa.
  - intros y Hy. apply Hall. by right.
Qed.

Lemma constructed_stored (o : Options.t) :
  constructed o →
  (if Options.truthy (Options.allowed_keywords o)
   then Some (sorted String.ltb (default [] (Options.allowed_keywords o)))
   else None) = Options.allowed_keywords o.
Proof.
  intros (key & allowed & kwargs & [_ ->]%Options_init_Ok). simpl.
  apply stored_keywords_fixed.
Qed.

(** The allow-list that [_inherited_options] hands to the call of the
    current Options is [None] or the allow-list of these Options. *)
Lemma inherited_allowed_keywords (self : OptionTree.t)
    (identifier group_name : string) (co : Options.t)
    (allowed : option (list string)) :
  OptionTree.groups (current_node self identifier) !! group_name = Some co →
  (if bool_decide (identifier ∈ OptionTree.children self) then
     c ← OptionTree.__getitem__ self identifier;
     g ← OptionTree.item_getitem c group_name;
     OptionTree.item_allowed_keywords g
   else Ok None) = Ok allowed →
  allowed = None ∨ allowed = Options.allowed_keywords co.
Proof.
  intros Hco. case_bool_decide as Hin; [|intros [= <-]; by left].
  unfold current_node in Hco.
  apply children_assoc in Hin as [c Hc]. rewrite Hc in Hco. simpl in Hco.
  unfold OptionTree.__getitem__ at 1.
  destruct (OptionTree.groups self !! identifier) as [so|]; simpl; [done|].
  unfold OptionTree.AttrTree_getitem. rewrite Hc. simpl.
  unfold OptionTree.__getitem__. rewrite Hco. simpl.
  intros [= <-]. by right.
Qed.

Lemma effective_of_inherited (co : Options.t) (allowed : option (list string)) :
  allowed = None ∨ allowed = Options.allowed_keywords co →
  match allowed with
  | Some l => Some l
  | None => Options.allowed_keywords co
  end = Options.allowed_keywords co.
Proof.
  intros [->| ->]; [done|]. by destruct (Options.allowed_keywords co).
Qed.

(** The Options that [_inherited_options] returns on a constructed tree
    have the key and the allow-list of the Options they are derived from. *)
Lemma inherited_options_keeps (self : OptionTree.t) (path : string)
    (identifier group_name : string) (options co o' : Options.t) :
  OptionTree._instantiated self = true →
  OptionTree.groups (current_node self identifier) !! group_name = Some co →
  constructed co →
  OptionTree._inherited_options self path identifier group_name options
  = Ok o' →
  Options.key o' = Options.key co
  ∧ Options.allowed_keywords o' = Options.allowed_keywords co
  ∧ constructed o'.
Proof.
  intros Hinst Hco Hcons. unfold OptionTree._inherited_options.
  rewrite Hinst. simpl.
  match goal with |- context [mbind _ ?m] =>
    destruct m as [allowed|e] eqn:Hallowed end; simpl; [|done].
  apply (inherited_allowed_keywords _ _ _ co) in Hallowed; [|done].
  case_bool_decide as Hg; [done|].
  match goal with |- context [mbind _ ?m] =>
    destruct m as [it|e] eqn:Hit end; simpl; [|done].
  destruct (OptionTree.item_groups it) as [cg|e] eqn:Hcg; simpl; [|done].
  assert (cg = OptionTree.groups (current_node self identifier)) as ->.
  { eapply current_groups_Ok. rewrite Hit. simpl. exact Hcg. }
  rewrite Hco. simpl. unfold Options.__call__.
  rewrite (effective_of_inherited co allowed Hallowed).
  destruct (Options.__init__ _ _ _) as [o|e] eqn:Hinit; [|by destruct e].
  intros [= <-]. pose proof Hinit as Hinit'.
  apply Options_init_Ok in Hinit' as [_ ->]. simpl.
  split_and!; [done|by apply constructed_stored|].
  eexists _, _, _. exact Hinit.
Qed.

(** When the merged keywords hold one that the allow-list of the current
    Options rejects, [_inherited_options] raises the [OptionError] with the
    name of the group and the path of the node. *)
Lemma inherited_options_rejected (self : OptionTree.t) (path : string)
    (identifier group_name : string) (options co : Options.t)
    (allowed : list string) (k : string) :
  OptionTree._instantiated self = true →
  (identifier ∈ OptionTree.children self →
   OptionTree.groups self !! identifier = None) →
  is_Some (OptionTree.groups self !! group_name) →
  OptionTree.groups (current_node self identifier) !! group_name = Some co →
  Options.allowed_keywords co = Some allowed → allowed ≠ [] →
  is_Some ((Options.kwargs options ∪ Options.kwargs co) !! k) →
  k ∉ allowed →
  ∃ invalid,
    OptionTree._inherited_options self path identifier group_name options
    = Err (OptionError invalid allowed (Some group_name) (Some path))
    ∧ is_Some ((Options.kwargs options ∪ Options.kwargs co) !! invalid)
    ∧ invalid ∉ allowed.
Proof.
  intros Hinst Hfree Hg Hco Hal Hne Hk Hnot.
  unfold OptionTree._inherited_options. rewrite Hinst. simpl.
  match goal with |- ∃ _, ?m ≫= _ = _ ∧ _ =>
    assert (∃ a, m = Ok a ∧ (a = None ∨ a = Options.allowed_keywords co))
      as (a & -> & Ha) end.
  { case_bool_decide as Hin; [|by exists None; split; [|left]].
    unfold OptionTree.__getitem__ at 1. rewrite (Hfree Hin).
    unfold current_node in Hco.
    apply children_assoc in Hin as [c Hc]. rewrite Hc in Hco. simpl in Hco.
    unfold OptionTree.AttrTree_getitem. rewrite Hc. simpl.
    unfold OptionTree.__getitem__. rewrite Hco. simpl.
    eexists. split; [done|by right]. }
  simpl. rewrite bool_decide_false by (intros H; by apply H, elem_of_dom).
  pose proof (current_groups_total self identifier Hfree) as Hcur.
  destruct (if bool_decide (identifier ∈ OptionTree.children self)
            then OptionTree.__getitem__ self identifier
            else Ok (OptionTree.INode self)) as [it|e]; simpl in *; [|done].
  rewrite Hcur. simpl. rewrite Hco. simpl. unfold Options.__call__.
  rewrite (effective_of_inherited co a Ha), Hal.
  destruct (Options_init_rejected (Options.key co) allowed
              (dict_update (Options.kwargs co) (Options.kwargs options)) k)
    as (invalid & -> & Hin & Hinv); try done.
  by exists invalid.
Qed.

(** X6: assigning to a child an Options object of the group [g] whose
    keywords, merged into those the child starts from, hold a keyword that
    the allow-list of that group rejects raises an [OptionError] that
    carries such a keyword, the allow-list, the name of the group and the
    path of the node assigned on. *)
Theorem OptionTree_setattr_invalid_keyword
    (sanitize_identifier : string → string) (self : OptionTree.t)
    (path identifier g : string) (o co : Options.t)
    (allowed : list string) (k : string) :
  OptionTree._instantiated self = true →
  (sanitize_identifier identifier ∈ OptionTree.children self →
   OptionTree.groups self !! sanitize_identifier identifier = None) →
  Options.key o = Some g →
  is_Some (OptionTree.groups self !! g) →
  OptionTree.groups (current_node self (sanitize_identifier identifier)) !! g
  = Some co →
  Options.allowed_keywords co = Some allowed → allowed ≠ [] →
  is_Some ((Options.kwargs o ∪ Options.kwargs co) !! k) →
  k ∉ allowed →
  ∃ invalid,
    OptionTree.__setattr__ sanitize_identifier self path identifier
      (OptionTree.SetOptions o)
    = Err (OptionError invalid allowed (Some g) (Some path))
    ∧ is_Some ((Options.kwargs o ∪ Options.kwargs co) !! invalid)
    ∧ invalid ∉ allowed.
Proof.
  intros Hinst Hfree Hkey Hg Hco Hal Hne Hk Hnot.
  destruct (inherited_options_rejected self path
              (sanitize_identifier identifier) g o co allowed k)
    as (invalid & Herr & Hin & Hinv); try done.
  exists invalid. split; [|done].
  unfold OptionTree.__setattr__. rewrite Hkey. simpl.
  pose proof (current_groups_total self (sanitize_identifier identifier) Hfree)
    as Hcur.
  destruct (if bool_decide _ then _ else _) as [it|e]; simpl in *; [|done].
  rewrite Hcur. simpl.
  rewrite (for_each_Err _ _ (g, co)
             (OptionError invalid allowed (Some g) (Some path))); [done| | |].
  - by apply elem_of_map_to_list.
  - rewrite lookup_singleton_eq. by rewrite Herr.
  - intros [g' co'] Hin'. destruct (decide (g' = g)) as [->|Hg'].
    + left. rewrite lookup_singleton_eq. by rewrite Herr.
    + right. by rewrite lookup_singleton_ne.
Qed.

Lemma OptionTree_setattr_invalid_keyword_witness :
  ∃ invalid,
    OptionTree.__setattr__ no_sanitizer style_root "OptionTree" "Curve"
      (OptionTree.SetOptions bogus_style)
    = Err (OptionError invalid ["color"] (Some "style") (Some "OptionTree"))
    ∧ is_Some ((Options.kwargs bogus_style ∪ ∅) !! invalid)
    ∧ invalid ∉ ["color"].
Proof.
  apply (OptionTree_setattr_invalid_keyword no_sanitizer style_root
           "OptionTree" "Curve" "style" bogus_style
           (Options.mk (Some ["color"]) None ∅ [∅]) ["color"] "bogus").
  - reflexivity.
  - intros H. vm_compute in H. by apply elem_of_nil in H.
  - reflexivity.
  - eexists. vm_compute. reflexivity.
  - vm_compute. reflexivity.
  - reflexivity.
  - discriminate.
  - eexists. vm_compute. reflexivity.
  - intros H. apply list_elem_of_singleton in H. discriminate H.
Defined.

(** X7: an assignment of a dictionary of Options on a constructed node
    whose Options were constructed changes no key and no allow-list: for
    every group the Options of the assigned child have the key and the
    allow-list of the Options that the assignment started from, those of
    the former child of that name or else of the node, and they are
    constructed Options again. *)
Theorem OptionTree_setattr_keeps_allow_lists
    (sanitize_identifier : string → string) (self : OptionTree.t)
    (path identifier : string) (d : gmap string Options.t)
    (self' : OptionTree.t) :
  OptionTree._instantiated self = true →
  (∀ g co,
     OptionTree.groups (current_node self (sanitize_identifier identifier))
       !! g = Some co → constructed co) →
  OptionTree.__setattr__ sanitize_identifier self path identifier
    (OptionTree.SetDict d) = Ok self' →
  ∃ new,
    OptionTree.AttrTree_getitem self' (sanitize_identifier identifier) = Ok new
    ∧ (∀ g, Options.allowed_keywords <$> OptionTree.groups new !! g
            = Options.allowed_keywords
                <$> OptionTree.groups
                      (current_node self (sanitize_identifier identifier)) !! g)
    ∧ (∀ g, Options.key <$> OptionTree.groups new !! g
            = Options.key
                <$> OptionTree.groups
                      (current_node self (sanitize_identifier identifier)) !! g)
    ∧ (∀ g o', OptionTree.groups new !! g = Some o' → constructed o').
Proof.
  intros Hinst Hcons. rewrite setattr_unfold.
  set (id := sanitize_identifier identifier) in *.
  destruct (_ ≫= OptionTree.item_groups) as [cg|e] eqn:Hcg; simpl; [|done].
  apply current_groups_Ok in Hcg as [-> Hfree].
  destruct (for_each _ _) as [ng|e] eqn:Hng; simpl; [|done].
  apply for_each_Ok in Hng.
  destruct ng as [|p ng'] eqn:Eng; [done|]. rewrite <- Eng in *.
  intros [= <-]. eexists. split.
  { unfold OptionTree.AttrTree_getitem. simpl. by rewrite assoc_set_same. }
  simpl.
  pose proof (new_groups_keys _ _ _ _ _ _ Hng) as Hkeys.
  assert (NoDup ng.*1) as Hnd
    by (rewrite Hkeys; apply NoDup_fst_map_to_list).
  rewrite dict_of_pairs_list_to_map by done.
  assert (∀ g,
    match OptionTree.groups (current_node self id) !! g with
    | None => (list_to_map ng : gmap string Options.t) !! g = None
    | Some co =>
        ∃ o', (list_to_map ng : gmap string Options.t) !! g = Some o'
              ∧ Options.key o' = Options.key co
              ∧ Options.allowed_keywords o' = Options.allowed_keywords co
              ∧ constructed o'
    end) as Hall.
  { intros g.
    destruct (OptionTree.groups (current_node self id) !! g) as [co|] eqn:Hco.
    - assert ((g, co) ∈ map_to_list
                (OptionTree.groups (current_node self id))) as Hin
        by (by apply elem_of_map_to_list).
      destruct (Forall2_elem_of_left _ _ _ _ Hng Hin) as ([g' o'] & Hy & Hf).
      pose proof (new_group_key _ _ _ _ _ _ Hf) as Hg'. simpl in Hg'.
      subst g'. unfold new_group in Hf. simpl in Hf.
      exists o'. split; [by apply elem_of_list_to_map|].
      destruct (d !! g) as [o|] eqn:Hd.
      + destruct (OptionTree._inherited_options _ _ _ _ _) as [o''|e] eqn:Hi;
          simpl in Hf; [|done].
        injection Hf as ->.
        by apply (inherited_options_keeps self path id g o co o' Hinst Hco);
          [apply (Hcons g)|].
      + injection Hf as ->. split_and!; [done|done|by apply (Hcons g)].
    - apply not_elem_of_list_to_map_1. rewrite Hkeys.
      intros Hin%keys_of_map. rewrite Hco in Hin. by destruct Hin. }
  split_and!.
  - intros g. specialize (Hall g).
    destruct (OptionTree.groups (current_node self id) !! g);
      [|by rewrite Hall].
    destruct Hall as (o' & -> & _ & Hal & _). simpl. by rewrite Hal.
  - intros g. specialize (Hall g).
    destruct (OptionTree.groups (current_node self id) !! g);
      [|by rewrite Hall].
    destruct Hall as (o' & -> & Hk & _). simpl. by rewrite Hk.
  - intros g o' Ho'. specialize (Hall g).
    destruct (OptionTree.groups (current_node self id) !! g);
      [|by rewrite Hall in Ho'].
    destruct Hall as (o'' & Ho'' & _ & _ & Hc). rewrite Ho' in Ho''.
    by injection Ho'' as <-.
Qed.

Lemma OptionTree_setattr_keeps_allow_lists_witness :
  ∃ new,
    OptionTree.AttrTree_getitem tree_A (no_sanitizer "A") = Ok new
    ∧ (∀ g, Options.allowed_keywords <$> OptionTree.groups new !! g
            = Options.allowed_keywords
                <$> OptionTree.groups
                      (current_node plot_root (no_sanitizer "A")) !! g)
    ∧ (∀ g, Options.key <$> OptionTree.groups new !! g
            = Options.key
                <$> OptionTree.groups
                      (current_node plot_root (no_sanitizer "A")) !! g)
    ∧ (∀ g o', OptionTree.groups new !! g = Some o' → constructed o').
Proof.
  apply (OptionTree_setattr_keeps_allow_lists no_sanitizer plot_root
           "OptionTree" "A" {[ "plot" := plain {[ "x" := VInt 1 ]} ]} tree_A).
  - reflexivity.
  - intros g co Hco.
    change (({[ "plot" := plain ∅ ]} : gmap string Options.t) !! g = Some co)
      in Hco.
    apply lookup_singleton_Some in Hco as [_ <-].
    exists None, None, ∅. reflexivity.
  - vm_compute. reflexivity.
Defined.

(** ** OptionTree: resolution of the options *)

(** X8: [options] gives [None] for a group that the node does not define,
    whatever its ancestors define; at a root it gives the very Options of
    the group; below a root, when every ancestor defines the group, it gives
    new Options without key and without allow-list, whose keywords are those
    of the nearest nodes that define them and which are expanded anew; and
    when an ancestor does not define a group that the node defines it
    raises an [AttributeError]. *)
Theorem OptionTree_options_cases (ancestors : list OptionTree.t)
    (self : OptionTree.t) (group : string) :
  (OptionTree.groups self !! group = None →
   OptionTree.options ancestors self group = Ok None)
  ∧ (∀ own, OptionTree.groups self !! group = Some own →
       OptionTree.options [] self group = Ok (Some own))
  ∧ (is_Some (OptionTree.groups self !! group) →
     ancestors ≠ [] →
     Forall (fun n => is_Some (OptionTree.groups n !! group)) ancestors →
     ∃ o, OptionTree.options ancestors self group = Ok (Some o)
          ∧ Options.key o = None
          ∧ Options.allowed_keywords o = None
          ∧ (∀ k, Options.kwargs o !! k
                  = inherited_value (self :: ancestors) group k)
          ∧ Options._options o = Options._expand_options (Options.kwargs o))
  ∧ (is_Some (OptionTree.groups self !! group) →
     Exists (fun n => OptionTree.groups n !! group = None) ancestors →
     OptionTree.options ancestors self group = Err (AttributeError "kwargs")).
Proof.
  split_and!.
  - intros Hnone. destruct ancestors; simpl; by rewrite Hnone.
  - intros own Hown. simpl. by rewrite Hown.
  - intros [own Hown] Hne Hall.
    destruct ancestors as [|parent up]; [done|].
    destruct (options_total up parent group Hall) as [po Hpo].
    assert (OptionTree.options (parent :: up) self group
            = Ok (Some (plain (dict_update (Options.kwargs po)
                                           (Options.kwargs own))))) as Heq.
    { simpl. rewrite Hown, Hpo. simpl. by rewrite Options_init_plain. }
    eexists. split; [exact Heq|]. split_and!; [done|done| |done].
    by apply (options_Ok (parent :: up) self group).
  - revert self. induction ancestors as [|parent up IH]; intros self [own Hown] Hex.
    + by apply Exists_nil in Hex.
    + simpl. rewrite Hown.
      destruct (OptionTree.groups parent !! group) as [pown|] eqn:Hp.
      * apply Exists_cons in Hex as [Hex|Hex]; [by rewrite Hp in Hex|].
        rewrite IH; [done|by eexists|done].
      * assert (OptionTree.options up parent group = Ok None) as ->; [|done].
        destruct up; simpl; by rewrite Hp.
Qed.

Lemma OptionTree_options_cases_witness :
  ∃ o, OptionTree.options [tree_AB] node_A "plot" = Ok (Some o)
       ∧ Options.key o = None
       ∧ Options.allowed_keywords o = None
       ∧ (∀ k, Options.kwargs o !! k
               = inherited_value [node_A; tree_AB] "plot" k)
       ∧ Options._options o = Options._expand_options (Options.kwargs o).
Proof.
  apply (OptionTree_options_cases [tree_AB] node_A "plot").
  - eexists. vm_compute. reflexivity.
  - discriminate.
  - constructor; [|constructor]. eexists. vm_compute. reflexivity.
Defined.

Lemma defined_everywhere_here (group : string) (t : OptionTree.t) :
  defined_everywhere group t → is_Some (OptionTree.groups t !! group).
Proof. destruct t as [i g ns b]. by intros [H _]. Qed.

Lemma defined_everywhere_child (group : string) (t child : OptionTree.t)
    (c : string) :
  defined_everywhere group t →
  OptionTree.assoc c (OptionTree.nodes t) = Some child →
  defined_everywhere group child.
Proof.
  destruct t as [i g ns b]. simpl. intros [_ Hall] Hc.
  induction ns as [|[k n] ns IH]; [done|].
  simpl in Hc. destruct Hall as [Hn Hall].
  destruct (String.eqb c k); [by injection Hc as <-|by apply IH].
Qed.

Section ClosestFacts.
Variable sanitize_identifier : string -> string.

(** [find] stays inside the tree: what holds of the node and of all that
    is below it holds of the node found, and what holds of the nodes passed
    holds of its ancestors. *)
Lemma find_loop_invariant (P Q : OptionTree.t → Prop) :
  (∀ t c child, P t → OptionTree.assoc c (OptionTree.nodes t) = Some child →
                P child) →
  (∀ t, P t → Q t) →
  ∀ (path : list string) (ancestors : list OptionTree.t) (node : OptionTree.t),
    no_shadowing node → P node → Forall Q ancestors →
    ∃ ancestors' node',
      OptionTree.find_loop sanitize_identifier
        (ancestors, OptionTree.INode node) path
      = Ok (ancestors', OptionTree.INode node')
      ∧ P node' ∧ Forall Q ancestors'.
Proof.
  intros Hchild HPQ path.
  induction path as [|segment rest IH]; intros ancestors node Hwf HP HQ.
  - by exists ancestors, node.
  - cbn [OptionTree.find_loop]. rewrite find_step_unfold.
    destruct (sorted by_length _) as [|c t] eqn:E.
    + simpl. by apply IH.
    + assert (c ∈ List.filter (matching sanitize_identifier segment)
                    (OptionTree.children node)) as Hc
        by (apply (sorted_elem_of by_length); rewrite E; left).
      apply list_elem_of_In, filter_In in Hc as [Hc _].
      apply list_elem_of_In, children_assoc in Hc as [child Hchild'].
      destruct (no_shadowing_child node child c Hwf Hchild') as [Hfree Hwf'].
      unfold OptionTree.__getitem__, OptionTree.AttrTree_getitem.
      rewrite Hfree, Hchild'. simpl.
      apply IH; [done|by eapply Hchild|].
      constructor; [by apply HPQ|done].
Qed.

End ClosestFacts.

(** X9: on a tree in which no child goes by the name of a group and every
    node defines the group, [closest] never fails and never gives [None]:
    it gives the Options of the node that [find] ends in for the three
    components of the object, and every keyword of them has the value of
    the nearest node, from that node up to the root, that defines it. *)
Theorem OptionTree_closest_resolves (sanitize_identifier : string → string)
    (self : OptionTree.t) (components : list string) (group : string) :
  no_shadowing self →
  defined_everywhere group self →
  ∃ ancestors node o,
    OptionTree.find sanitize_identifier [] self (OptionTree.PathSeq components)
    = Ok (ancestors, OptionTree.INode node)
    ∧ OptionTree.closest sanitize_identifier self components group
      = Ok (Some o)
    ∧ ∀ k, Options.kwargs o !! k
           = inherited_value (node :: ancestors) group k.
Proof.
  intros Hwf Hdef.
  destruct (find_loop_invariant sanitize_identifier
              (defined_everywhere group)
              (fun n => is_Some (OptionTree.groups n !! group))
              (fun t c child => defined_everywhere_child group t child c)
              (defined_everywhere_here group)
              components [] self Hwf Hdef (Forall_nil_2 _))
    as (ancestors & node & Hfind & Hnode & Hanc).
  destruct (options_total ancestors node group) as [o Ho].
  { constructor; [by apply defined_everywhere_here|done]. }
  exists ancestors, node, o. split; [exact Hfind|]. split.
  - unfold OptionTree.closest, OptionTree.find. simpl.
    rewrite Hfind. simpl. exact Ho.
  - by apply options_Ok.
Qed.

Lemma OptionTree_closest_resolves_witness :
  ∃ ancestors node o,
    OptionTree.find no_sanitizer [] image_tree
      (OptionTree.PathSeq ["Image"; "Gray"; ""])
    = Ok (ancestors, OptionTree.INode node)
    ∧ OptionTree.closest no_sanitizer image_tree ["Image"; "Gray"; ""] "plot"
      = Ok (Some o)
    ∧ ∀ k, Options.kwargs o !! k
           = inherited_value (node :: ancestors) "plot" k.
Proof.
  apply (OptionTree_closest_resolves no_sanitizer image_tree
           ["Image"; "Gray"; ""] "plot").
  - assert (∃ t, image_tree = t ∧ no_shadowing t) as (t & -> & H); [|exact H].
    eexists. split; [vm_compute; reflexivity|].
    split.
    + intros c Hc. apply list_elem_of_singleton in Hc as ->.
      vm_compute. reflexivity.
    + simpl. split; [|exact I]. split; [|exact I].
      intros c Hc. by apply elem_of_nil in Hc.
  - assert (∃ t, image_tree = t ∧ defined_everywhere "plot" t)
      as (t & -> & H); [|exact H].
    eexists. split; [vm_compute; reflexivity|].
    split; [eexists; vm_compute; reflexivity|].
    split; [|exact I]. split; [|exact I]. eexists. vm_compute. reflexivity.
Defined.

(** ** OptionTree: the children that reading and assigning create *)



Lemma find_loop_leaf (sanitize_identifier : string → string)
    (path : list string) (ancestors : list OptionTree.t)
    (node : OptionTree.t) :
  OptionTree.nodes node = [] →
  OptionTree.find_loop sanitize_identifier (ancestors, OptionTree.INode node)
    path
  = Ok (ancestors, OptionTree.INode node).
Proof.
  intros Hleaf. induction path as [|segment rest IH]; [done|].
  cbn [OptionTree.find_loop]. rewrite find_step_unfold.
  unfold OptionTree.children. rewrite Hleaf. simpl. exact IH.
Qed.



(** X11: an assignment of a dictionary of Options that returns leaves the
    groups of the node and its other children as they are, and puts a new
    node in the place of the child of that name, or in the last place when
    there was none; the new node has no children, whatever the former child
    had, so that [find] from it ends in it for every path. *)
Theorem OptionTree_setattr_replaces_child
    (sanitize_identifier : string → string) (self : OptionTree.t)
    (path identifier : string) (d : gmap string Options.t)
    (self' : OptionTree.t) :
  OptionTree.__setattr__ sanitize_identifier self path identifier
    (OptionTree.SetDict d) = Ok self' →
  ∃ new,
    OptionTree.AttrTree_getitem self' (sanitize_identifier identifier) = Ok new
    ∧ OptionTree.identifier new = Some (sanitize_identifier identifier)
    ∧ OptionTree.nodes new = []
    ∧ (∀ ancestors segments,
         OptionTree.find sanitize_identifier ancestors new
           (OptionTree.PathSeq segments)
         = Ok (ancestors, OptionTree.INode new))
    ∧ OptionTree.groups self' = OptionTree.groups self
    ∧ OptionTree.children self'
      = (if bool_decide (sanitize_identifier identifier
                         ∈ OptionTree.children self)
         then OptionTree.children self
         else OptionTree.children self ++ [sanitize_identifier identifier])
    ∧ (∀ other, other ≠ sanitize_identifier identifier →
         OptionTree.AttrTree_getitem self' other
         = OptionTree.AttrTree_getitem self other).
Proof.
  intros Hset.
  destruct (setattr_Ok sanitize_identifier self path identifier d self' Hset)
    as (new & Hnew & Hid & Hleaf & Hgroups & Hchildren & Hother & _).
  exists new. split_and!; try done.
  - unfold OptionTree.AttrTree_getitem. by rewrite Hnew.
  - intros ancestors segments. by apply find_loop_leaf.
  - intros other Hne. unfold OptionTree.AttrTree_getitem.
    by rewrite (Hother other Hne).
Qed.

Lemma OptionTree_setattr_replaces_child_witness :
  ∃ new,
    OptionTree.AttrTree_getitem
      (value_of tree_AB
         (OptionTree.__setattr__ no_sanitizer tree_AB "OptionTree" "A"
            (set_plot {[ "z" := VInt 3 ]}))) (no_sanitizer "A") = Ok new
    ∧ OptionTree.identifier new = Some (no_sanitizer "A")
    ∧ OptionTree.nodes new = []
    ∧ (∀ ancestors segments,
         OptionTree.find no_sanitizer ancestors new
           (OptionTree.PathSeq segments)
         = Ok (ancestors, OptionTree.INode new))
    ∧ OptionTree.groups
        (value_of tree_AB
           (OptionTree.__setattr__ no_sanitizer tree_AB "OptionTree" "A"
              (set_plot {[ "z" := VInt 3 ]})))
      = OptionTree.groups tree_AB
    ∧ OptionTree.children
        (value_of tree_AB
           (OptionTree.__setattr__ no_sanitizer tree_AB "OptionTree" "A"
              (set_plot {[ "z" := VInt 3 ]})))
      = (if bool_decide (no_sanitizer "A" ∈ OptionTree.children tree_AB)
         then OptionTree.children tree_AB
         else OptionTree.children tree_AB ++ [no_sanitizer "A"])
    ∧ (∀ other, other ≠ no_sanitizer "A" →
         OptionTree.AttrTree_getitem
           (value_of tree_AB
              (OptionTree.__setattr__ no_sanitizer tree_AB "OptionTree" "A"
                 (set_plot {[ "z" := VInt 3 ]}))) other
         = OptionTree.AttrTree_getitem tree_AB other).
Proof.
  apply (OptionTree_setattr_replaces_child no_sanitizer tree_AB "OptionTree"
           "A" {[ "plot" := plain {[ "z" := VInt 3 ]} ]}).
  vm_compute. reflexivity.
Defined.

(** ** Compositor: the level and the window of a match *)

Section Levels.
Variable sanitize_identifier : string -> string.

Local Abbreviation slice_match_level :=
  (Compositor._slice_match_level sanitize_identifier).
Local Abbreviation match_level :=
  (Compositor.match_level sanitize_identifier).

Lemma spec_match_level_weight (spec : string * list string) (el : Element.t)
    (n : nat) :
  Compositor.spec_match_level sanitize_identifier spec el = Some n →
  n = spec_weight spec.
Proof.
  unfold Compositor.spec_match_level, spec_weight.
  destruct (negb _); [done|].
  destruct spec.2 as [|spec1 [|spec2 [|spec3 others]]]; simpl.
  - by intros [= <-].
  - case_bool_decide; [by intros [= <-]|done].
  - case_bool_decide; [|done]. case_bool_decide; [by intros [= <-]|done].
  - case_bool_decide; [by intros [= <-]|done].
Qed.

Lemma slice_match_level_loop_sum (level : nat)
    (pairs : list ((string * list string) * Element.t)) (lvl : nat) :
  Compositor._slice_match_level_loop sanitize_identifier level pairs
  = Some lvl →
  lvl = (level + list_sum (map spec_weight pairs.*1))%nat.
Proof.
  revert level. induction pairs as [|[spec el] pairs IH]; intros level.
  - simpl. intros [= <-]. lia.
  - rewrite fmap_cons.
    cbn [Compositor._slice_match_level_loop map list_sum fold_right fst].
    destruct (Compositor.spec_match_level _ spec el) as [n|] eqn:E; [|done].
    apply spec_match_level_weight in E as ->.
    intros H%IH.
    change (lvl = (level + (spec_weight spec
                            + list_sum (map spec_weight pairs.*1)))%nat).
    lia.
Qed.

Lemma slice_match_level_pattern (self : Compositor.t)
    (items : list Element.t) (lvl : nat) :
  slice_match_level self items = Some lvl →
  (length (Compositor._pattern_spec self) ≤ length items)%nat →
  lvl = pattern_level self.
Proof.
  unfold Compositor._slice_match_level. intros H%slice_match_level_loop_sum Hlen.
  rewrite fst_zip in H by done. done.
Qed.

Lemma spec_weight_bounds (spec : string * list string) :
  (1 ≤ spec_weight spec ≤ 3)%nat.
Proof.
  unfold spec_weight. destruct spec.2 as [|? [|? [|? ?]]]; lia.
Qed.

Lemma pattern_level_bounds (self : Compositor.t) :
  (length (Compositor._pattern_spec self) ≤ pattern_level self
   ≤ 3 * length (Compositor._pattern_spec self))%nat.
Proof.
  unfold pattern_level.
  induction (Compositor._pattern_spec self) as [|spec l IH]; simpl; [lia|].
  pose proof (spec_weight_bounds spec). lia.
Qed.

Lemma window_length (self : Compositor.t) (overlay : Overlay.t) (i : nat) :
  (i + length (Compositor._pattern_spec self)
   ≤ length (Overlay.values overlay))%nat →
  length (window self overlay i) = length (Compositor._pattern_spec self).
Proof. intros H. by apply slice_decompose. Qed.

(** The loop of [match_level] after the windows before the [k]-th: no
    window has matched, or the first window that matches is kept, with the
    level of the pattern. *)
Lemma match_level_fold (self : Compositor.t) (overlay : Overlay.t) (k : nat) :
  (0 < length (Compositor._pattern_spec self))%nat →
  (k + length (Compositor._pattern_spec self)
   ≤ length (Overlay.values overlay) + 1)%nat →
  let st :=
    foldl (Compositor.match_level_step sanitize_identifier self overlay
             (length (Compositor._pattern_spec self))) (0%nat, None)
          (seq 0 k) in
  (st = (0%nat, None)
   ∧ ∀ j, (j < k)%nat → slice_match_level self (window self overlay j) = None)
  ∨ (∃ i, (i < k)%nat
          ∧ st = (pattern_level self,
                  Some (i, (i + length (Compositor._pattern_spec self))%nat))
          ∧ slice_match_level self (window self overlay i)
            = Some (pattern_level self)
          ∧ ∀ j, (j < i)%nat →
                 slice_match_level self (window self overlay j) = None).
Proof.
  intros Hw. induction k as [|k IH]; intros Hk st.
  - left. split; [done|]. intros j Hj. lia.
  - subst st. rewrite seq_S, foldl_app.
    specialize (IH ltac:(lia)). cbv zeta in IH.
    set (s := foldl _ _ (seq 0 k)) in *.
    assert (foldl (Compositor.match_level_step sanitize_identifier self
                     overlay (length (Compositor._pattern_spec self)))
                  s [(0 + k)%nat]
            = match slice_match_level self (window self overlay k) with
              | None => s
              | Some lvl =>
                  if (s.1 <? lvl)%nat
                  then (lvl, Some (k, (k + length
                                         (Compositor._pattern_spec self))%nat))
                  else s
              end) as -> by done.
    pose proof (pattern_level_bounds self) as Hb.
    destruct (slice_match_level self (window self overlay k)) as [lvl|] eqn:E.
    + assert (lvl = pattern_level self) as ->.
      { apply (slice_match_level_pattern self _ _ E).
        rewrite window_length; [done|lia]. }
      destruct IH as [[-> Hnone]|(i & Hi & -> & Hlvl & Hnone)].
      * simpl. rewrite (proj2 (Nat.ltb_lt _ _)) by lia.
        right. exists k. split_and!; [lia|done|done|done].
      * simpl. rewrite Nat.ltb_irrefl.
        right. exists i. split_and!; [lia|done|done|done].
    + destruct IH as [[-> Hnone]|(i & Hi & -> & Hlvl & Hnone)].
      * left. split; [done|]. intros j Hj.
        destruct (decide (j = k)) as [->|]; [done|]. apply Hnone. lia.
      * right. exists i. split_and!; [lia|done|done|done].
Qed.

End Levels.

(** X12: whenever a compositor matches, its level is that of its pattern,
    the sum over its tuples of the number of names compared, between the
    width of the pattern and three times the width, whatever the overlay;
    so [match_level] gives the first window of the overlay that matches the
    pattern, and it gives [None] exactly when no window of the overlay
    matches or the pattern is empty. *)
Theorem Compositor_match_level_first_window
    (sanitize_identifier : string → string) (self : Compositor.t)
    (overlay : Overlay.t) :
  (∀ items lvl,
     Compositor._slice_match_level sanitize_identifier self items = Some lvl →
     (length (Compositor._pattern_spec self) ≤ length items)%nat →
     lvl = pattern_level self
     ∧ (length (Compositor._pattern_spec self) ≤ lvl
        ≤ 3 * length (Compositor._pattern_spec self))%nat)
  ∧ (∀ lvl sl,
       Compositor.match_level sanitize_identifier self overlay
       = Some (lvl, sl) →
       lvl = pattern_level self
       ∧ ∃ i, sl = Some (i, (i + length (Compositor._pattern_spec self))%nat)
              ∧ (i + length (Compositor._pattern_spec self)
                 ≤ length (Overlay.values overlay))%nat
              ∧ window_matches sanitize_identifier self overlay i
              ∧ ∀ j, (j < i)%nat →
                     ¬ window_matches sanitize_identifier self overlay j)
  ∧ (Compositor.match_level sanitize_identifier self overlay = None
     ↔ Compositor._pattern_spec self = []
       ∨ ∀ j, (j + length (Compositor._pattern_spec self)
               ≤ length (Overlay.values overlay))%nat →
              ¬ window_matches sanitize_identifier self overlay j).
Proof.
  assert (∀ j, ¬ window_matches sanitize_identifier self overlay j
               ↔ Compositor._slice_match_level sanitize_identifier self
                   (window self overlay j) = None) as Hnot.
  { intros j. unfold window_matches. rewrite <- eq_None_not_Some. done. }
  split_and!.
  - intros items lvl Hlvl Hlen.
    rewrite (slice_match_level_pattern sanitize_identifier self items lvl)
      by done.
    split; [done|apply pattern_level_bounds].
  - intros lvl sl Hm.
    destruct (match_level_Some sanitize_identifier self overlay lvl sl Hm)
      as (Hpos & Hw & _).
    unfold Compositor.match_level, Overlay.__len__ in Hm.
    destruct (_ <? _)%nat eqn:Hlen; [done|]. apply Nat.ltb_ge in Hlen.
    destruct (match_level_fold sanitize_identifier self overlay
                (length (Overlay.values overlay)
                 - length (Compositor._pattern_spec self) + 1) Hw)
      as [[Hst _]|(i & Hi & Hst & Hlvl & Hnone)]; [lia| |].
    + rewrite Hst in Hm. done.
    + rewrite Hst in Hm. simpl in Hm.
      destruct (negb _); [|done]. injection Hm as <- <-.
      split; [done|]. exists i. split_and!; [done|lia| |].
      * unfold window_matches. rewrite Hlvl. by eexists.
      * intros j Hj. by apply Hnot, Hnone.
  - unfold Compositor.match_level, Overlay.__len__.
    destruct (length (Compositor._pattern_spec self)) as [|w] eqn:Ew.
    { split; [|intros _].
      - intros _. left. by destruct (Compositor._pattern_spec self).
      - simpl.
        assert (∀ l st,
          st.1 = 0%nat →
          (foldl (Compositor.match_level_step sanitize_identifier self
                    overlay 0) st l).1 = 0%nat) as Hzero.
        { induction l as [|i l IH]; intros st Hst; [done|].
          simpl. apply IH. unfold Compositor.match_level_step.
          rewrite slice_match_level_nil
            by (by destruct (Compositor._pattern_spec self)).
          by rewrite Hst. }
        rewrite Hzero by done. done. }
    rewrite <- Ew.
    destruct (_ <? _)%nat eqn:Hlen.
    { apply Nat.ltb_lt in Hlen. split; [|done].
      intros _. right. intros j Hj. lia. }
    apply Nat.ltb_ge in Hlen.
    destruct (match_level_fold sanitize_identifier self overlay
                (length (Overlay.values overlay)
                 - length (Compositor._pattern_spec self) + 1))
      as [[Hst Hnone]|(i & Hi & Hst & Hlvl & Hnone)]; [lia|lia| |].
    + rewrite Hst. simpl. split; [|done].
      intros _. right. intros j Hj. apply Hnot, Hnone. lia.
    + rewrite Hst. simpl.
      pose proof (pattern_level_bounds self) as Hb.
      destruct (pattern_level self) as [|L] eqn:EL; [lia|]. simpl.
      split; [done|].
      intros [Hnil|Hall]; [by rewrite Hnil in Ew|].
      exfalso. apply (Hall i); [lia|].
      unfold window_matches. rewrite Hlvl. by eexists.
Qed.

(** ** Compositor: the pattern and its labels *)




(** ** Store: the lookups *)

Lemma elem_of_traversed_ids (traversed : list (option Z)) (i : Z) :
  i ∈ (list_to_set (omap (fun el => el) traversed) : gset Z)
  ↔ Some i ∈ traversed.
Proof.
  rewrite elem_of_list_to_set, list_elem_of_omap. split.
  - by intros ([j|] & Hj & [= ->]).
  - intros Hi. by exists (Some i).
Qed.

(** X14: [lookup] gives a tree exactly when the ids found in the object,
    [None] apart, are all the same id, at least one is found, and a custom
    tree is stored under it, and then it gives that tree; without any id,
    and with two different ids, it raises an [Exception], and with one id
    that no tree is stored under a [KeyError]. *)
Theorem Store_lookup_single_tree (cls : Store.t)
    (traversed : list (option Z)) :
  (∀ tree,
     Store.lookup cls traversed = Ok tree
     ↔ ∃ i, Some i ∈ traversed
            ∧ (∀ j, Some j ∈ traversed → j = i)
            ∧ Store.custom_options cls !! i = Some tree)
  ∧ ((∀ i, Some i ∉ traversed) →
     Store.lookup cls traversed
     = Err (Exception "Object does not own a custom options tree"))
  ∧ (∀ i j, Some i ∈ traversed → Some j ∈ traversed → i ≠ j →
       ∃ msg, Store.lookup cls traversed = Err (Exception msg))
  ∧ (∀ i, Some i ∈ traversed → (∀ j, Some j ∈ traversed → j = i) →
       Store.custom_options cls !! i = None →
       Store.lookup cls traversed = Err (KeyError (str i))).
Proof.
  unfold Store.lookup.
  set (ids := (list_to_set (omap (fun el => el) traversed) : gset Z)).
  assert (∀ i, i ∈ ids ↔ Some i ∈ traversed) as Hids
    by apply elem_of_traversed_ids.
  assert (∀ i, Some i ∈ traversed → (∀ j, Some j ∈ traversed → j = i) →
               ids = {[ i ]}) as Hsingle.
  { intros i Hi Hall. apply set_eq. intros j.
    rewrite elem_of_singleton, Hids. split; [apply Hall|by intros ->]. }
  destruct (Nat.eqb (size ids) 0) eqn:E0.
  { apply Nat.eqb_eq, size_empty_iff in E0.
    assert (∀ i, Some i ∉ traversed) as Hnone.
    { intros i Hi%Hids. rewrite E0 in Hi. by apply not_elem_of_empty in Hi. }
    split_and!.
    - intros tree. split; [done|]. intros (i & Hi & _). by destruct (Hnone i).
    - done.
    - intros i j Hi. by destruct (Hnone i).
    - intros i Hi. by destruct (Hnone i). }
  apply Nat.eqb_neq in E0.
  destruct (Nat.eqb (size ids) 1) eqn:E1; simpl.
  - apply Nat.eqb_eq, size_1_elem_of in E1 as [i Hi].
    apply leibniz_equiv in Hi.
    assert (Some i ∈ traversed) as Hin
      by (apply Hids; rewrite Hi; by apply elem_of_singleton).
    assert (∀ j, Some j ∈ traversed → j = i) as Hall.
    { intros j Hj%Hids. rewrite Hi in Hj. by apply elem_of_singleton in Hj. }
    rewrite Hi, elements_singleton.
    split_and!.
    + intros tree. split.
      * destruct (Store.custom_options cls !! i) as [t|] eqn:Et; [|done].
        intros [= <-]. by exists i.
      * intros (i' & Hi' & _ & Ht). rewrite (Hall i' Hi') in Ht.
        by rewrite Ht.
    + intros Hnone. by destruct (Hnone i).
    + intros a b Ha Hb Hab. apply Hall in Ha, Hb. congruence.
    + intros i' Hi' _ Ht. rewrite (Hall i' Hi') in *. by rewrite Ht.
  - apply Nat.eqb_neq in E1.
    assert (∀ i, Some i ∈ traversed → (∀ j, Some j ∈ traversed → j = i) →
                 False) as Habs.
    { intros i Hi Hall. rewrite (Hsingle i Hi Hall) in E1.
      by rewrite size_singleton in E1. }
    split_and!.
    + intros tree. split; [done|]. intros (i & Hi & Hall & _).
      by destruct (Habs i).
    + intros Hnone. destruct E0. apply size_empty_iff. intros i.
      rewrite Hids. split; [by intros ?%Hnone|by intros ?%not_elem_of_empty].
    + intros. by eexists.
    + intros i Hi Hall. by destruct (Habs i).
Qed.

(** X15: [lookup_options].  For an object without id the options come from
    the global tree, and on a global tree in which no child goes by the
    name of a group and every node defines the group, they are found, with
    the keywords of the nearest nodes; for an object whose id has a custom
    tree they come from that tree alone, whatever the global tree holds;
    and for an object whose id has no custom tree a [KeyError] that names
    the id is raised, whatever the global tree holds. *)
Theorem Store_lookup_options_cases (sanitize_identifier : string → string)
    (cls : Store.t) (obj : Store.obj) (group : string) :
  let components :=
    [Store.class_name obj; Store.group obj; Store.label obj] in
  (Store.id obj = None →
   no_shadowing (Store.options cls) →
   defined_everywhere group (Store.options cls) →
   ∃ ancestors node o,
     OptionTree.find sanitize_identifier [] (Store.options cls)
       (OptionTree.PathSeq components)
     = Ok (ancestors, OptionTree.INode node)
     ∧ Store.lookup_options sanitize_identifier cls obj group = Ok (Some o)
     ∧ ∀ k, Options.kwargs o !! k
            = inherited_value (node :: ancestors) group k)
  ∧ (∀ i tree, Store.id obj = Some i →
       Store.custom_options cls !! i = Some tree →
       Store.lookup_options sanitize_identifier cls obj group
       = OptionTree.closest sanitize_identifier tree components group)
  ∧ (∀ i, Store.id obj = Some i →
       Store.custom_options cls !! i = None →
       Store.lookup_options sanitize_identifier cls obj group
       = Err (KeyError ("No custom settings defined for object with id "
                        +:+ str i))).
Proof.
  intros components. subst components. unfold Store.lookup_options.
  split_and!.
  - intros -> Hwf Hdef.
    destruct (find_loop_invariant sanitize_identifier
                (defined_everywhere group)
                (fun n => is_Some (OptionTree.groups n !! group))
                (fun t c child => defined_everywhere_child group t child c)
                (defined_everywhere_here group)
                [Store.class_name obj; Store.group obj; Store.label obj] []
                (Store.options cls) Hwf Hdef (Forall_nil_2 _))
      as (ancestors & node & Hfind & Hnode & Hanc).
    destruct (options_total ancestors node group) as [o Ho].
    { constructor; [by apply defined_everywhere_here|done]. }
    exists ancestors, node, o. split; [exact Hfind|]. split.
    + unfold OptionTree.closest, OptionTree.find, OptionTree.segments.
      rewrite Hfind. simpl. exact Ho.
    + by apply options_Ok.
  - intros i tree -> Ht. by rewrite Ht.
  - intros i -> Ht. by rewrite Ht.
Qed.

(** * Properties of the tables *)

Lemma elem_of_every_from {A} (skip k : nat) (l : list A) (x : A) :
  x ∈ every_from skip k l → x ∈ l.
Proof.
  revert skip. induction l as [|y l IH]; intros skip; simpl; [done|].
  destruct skip as [|skip].
  - intros [->|H]%elem_of_cons; [left|right; by eapply IH].
  - intros H. right. by eapply IH.
Qed.

Lemma elem_of_slice_step {A} (step : Z) (l : list A) (x : A) :
  x ∈ slice_step step l → x ∈ l.
Proof.
  unfold slice_step. destruct (0 <? step).
  - apply elem_of_every_from.
  - intros H%elem_of_every_from. apply list_elem_of_In, in_rev in H.
    by apply list_elem_of_In.
Qed.

Lemma slice_step_nil {A} (step : Z) (l : list A) :
  slice_step step l = [] → l = [].
Proof.
  unfold slice_step. destruct (0 <? step).
  - by destruct l.
  - destruct (rev l) eqn:E; [|done]. intros _.
    apply (f_equal (@rev A)) in E. by rewrite rev_involutive in E.
Qed.

Lemma StronglySorted_filter {A} (R : A → A → Prop) (f : A → bool)
    (l : list A) :
  StronglySorted R l → StronglySorted R (List.filter f l).
Proof.
  induction 1 as [|x l Hl IH Hx]; simpl; [constructor|].
  destruct (f x); [|done]. constructor; [done|].
  rewrite Forall_forall in *. intros y Hy.
  apply Hx. apply list_elem_of_In, filter_In in Hy as [Hy _].
  by apply list_elem_of_In.
Qed.

Lemma elem_of_List_filter {A} (f : A → bool) (l : list A) (x : A) :
  x ∈ List.filter f l ↔ x ∈ l ∧ f x = true.
Proof. by rewrite !list_elem_of_In, filter_In. Qed.

Lemma filter_columns_unfold (start stop : option string) (step : option Z)
    (col_names : list string) :
  Table._filter_columns (Table.Slice start stop step) col_names
  = let cols :=
      match step with
      | Some step =>
          if step =? 0 then columns_between start stop col_names
          else slice_step step (columns_between start stop col_names)
      | None => columns_between start stop col_names
      end in
    match cols with
    | [] => Err (KeyError "No columns selected in the given slice")
    | _ :: _ => Ok cols
    end.
Proof. reflexivity. Qed.

Lemma columns_between_spec (start stop : option string)
    (col_names : list string) :
  (∀ c, c ∈ columns_between start stop col_names
        ↔ c ∈ col_names ∧ between start stop c)
  ∧ StronglySorted (fun a b => String.ltb b a = false)
                   (columns_between start stop col_names).
Proof.
  unfold columns_between, between.
  pose proof (sorted_ltb_ascending col_names) as Hs.
  destruct (Table.bound start) as [s1|], (Table.bound stop) as [s2|].
  - split; [|by do 2 apply StronglySorted_filter].
    intros c. rewrite !elem_of_List_filter, (sorted_elem_of String.ltb).
    split.
    + intros [[Hc H1] H2]. split; [done|].
      split; by intros s [= <-].
    + intros [Hc [H1 H2]]. split_and!; [done|by apply H1|by apply H2].
  - split; [|by apply StronglySorted_filter].
    intros c. rewrite !elem_of_List_filter, (sorted_elem_of String.ltb).
    split.
    + intros [Hc H1]. split; [done|]. split; [by intros s [= <-]|done].
    + intros [Hc [H1 H2]]. split; [done|by apply H1].
  - split; [|by apply StronglySorted_filter].
    intros c. rewrite !elem_of_List_filter, (sorted_elem_of String.ltb).
    split.
    + intros [Hc H2]. split; [done|]. split; [done|by intros s [= <-]].
    + intros [Hc [H1 H2]]. split; [done|by apply H2].
  - split; [|done].
    intros c. rewrite (sorted_elem_of String.ltb). split.
    + intros Hc. split; [done|]. split; intros s Hbound; discriminate Hbound.
    + by intros [Hc _].
Qed.

(** X16: the columns that a slice over the names selects.  Without a step
    they are the names strictly between the two bounds, in ascending order:
    a name that is itself a bound of the slice is not selected; a bound that
    is [None] or the empty string does not restrict; with a step, some of
    these names are selected.  The list returned is never empty: when no
    name lies between the bounds a [KeyError] is raised; and one name
    selects itself when it is a column name and raises a [KeyError]
    otherwise. *)
Theorem Table_filter_columns_between (start stop : option string)
    (step : option Z) (col_names : list string) :
  (∀ cols,
     Table._filter_columns (Table.Slice start stop None) col_names = Ok cols →
     cols ≠ []
     ∧ (∀ c, c ∈ cols ↔ c ∈ col_names ∧ between start stop c)
     ∧ StronglySorted (fun a b => String.ltb b a = false) cols
     ∧ (∀ s, Table.bound start = Some s ∨ Table.bound stop = Some s →
             s ∉ cols))
  ∧ (Table._filter_columns (Table.Slice start stop None) col_names
     = Err (KeyError "No columns selected in the given slice")
     ↔ ∀ c, c ∈ col_names → ¬ between start stop c)
  ∧ (∀ cols,
       Table._filter_columns (Table.Slice start stop step) col_names
       = Ok cols →
       cols ≠ [] ∧ ∀ c, c ∈ cols → c ∈ col_names ∧ between start stop c)
  ∧ (∀ name, name ∈ col_names →
       Table._filter_columns (Table.Name name) col_names = Ok [name])
  ∧ (∀ name, name ∉ col_names →
       ∃ msg, Table._filter_columns (Table.Name name) col_names
              = Err (KeyError msg)).
Proof.
  pose proof (columns_between_spec start stop col_names) as [Hmem Hsorted].
  split_and!.
  - intros cols. rewrite filter_columns_unfold. cbv zeta.
    destruct (columns_between start stop col_names) as [|c0 l0] eqn:El;
      [done|].
    intros [= <-]. split_and!; [done|done|done|].
    intros s Hs Hin. apply Hmem in Hin as [_ [H1 H2]].
    destruct Hs as [Hs|Hs]; [specialize (H1 s Hs)|specialize (H2 s Hs)];
      by rewrite string_ltb_irrefl in *.
  - rewrite filter_columns_unfold. cbv zeta.
    destruct (columns_between start stop col_names) as [|c0 l0] eqn:El.
    + split; [|done]. intros _ c Hc Hb.
      assert (c ∈ @nil string) as Hnil by (by apply Hmem).
      by apply elem_of_nil in Hnil.
    + split; [done|]. intros Hnone.
      destruct (Hnone c0); apply (Hmem c0); left.
  - intros cols. rewrite filter_columns_unfold. cbv zeta.
    destruct (match step with
              | Some step0 => _
              | None => _
              end) as [|c0 l0] eqn:El; [done|].
    intros [= <-]. split; [done|]. rewrite <- El. intros c Hc.
    apply Hmem.
    destruct step as [k|]; [|exact Hc].
    destruct (k =? 0); [exact Hc|]. by apply elem_of_slice_step in Hc.
  - intros name Hin. unfold Table._filter_columns.
    by rewrite bool_decide_false by (by intros H).
  - intros name Hin. unfold Table._filter_columns.
    rewrite bool_decide_true by done. by eexists.
Qed.

Lemma list_getitem_Ok {A} (l : list A) (i : Z) (a : A) :
  ItemTable.list_getitem l i = Ok a
  ↔ (0 <= i ∧ l !! Z.to_nat i = Some a)
    ∨ (i < 0 ∧ 0 <= i + Z.of_nat (length l)
       ∧ l !! Z.to_nat (i + Z.of_nat (length l)) = Some a).
Proof.
  unfold ItemTable.list_getitem.
  destruct (i <? 0) eqn:Ei.
  - apply Z.ltb_lt in Ei.
    destruct (i + Z.of_nat (length l) <? 0) eqn:Ej; simpl.
    + apply Z.ltb_lt in Ej. split; [done|]. intros [[? _]|(_ & ? & _)]; lia.
    + apply Z.ltb_ge in Ej.
      rewrite (proj2 (Z.leb_gt _ _)) by lia.
      destruct (l !! Z.to_nat (i + Z.of_nat (length l))) as [x|] eqn:E.
      * split; [intros [= <-]; by right|].
        intros [[? _]|(_ & _ & [= <-])]; [lia|done].
      * split; [done|]. intros [[? _]|(_ & _ & ?)]; [lia|done].
  - apply Z.ltb_ge in Ei. rewrite (proj2 (Z.ltb_ge _ _)) by lia. simpl.
    destruct (Z.of_nat (length l) <=? i) eqn:Ej.
    + apply Z.leb_le in Ej. split; [done|].
      intros [[_ H]|[? _]]; [|lia].
      apply lookup_lt_Some in H. lia.
    + destruct (l !! Z.to_nat i) as [x|] eqn:E.
      * split; [intros [= <-]; by left|].
        intros [[_ [= <-]]|[? _]]; [done|lia].
      * split; [done|]. intros [[_ ?]|[? _]]; [done|lia].
Qed.

(** X17: the cells of an ItemTable.  A column above 2 raises the
    [Exception] about the two columns, so that column 2 is accepted and
    gives the value of the row like column 1, and like every other column
    that is not 0; a row from the number of rows on raises a [TypeError],
    never the [Exception] about the maximum row index that the code
    formats; on a table whose number of dimensions is that of its headings
    and whose data has every heading, a row below the number of rows, down
    to minus that number, gives the dimension of the heading of the row in
    column 0 and its value in the other columns, a negative row counting
    from the last one. *)
Theorem ItemTable_cell_value_bounds {Dimension : Type}
    (self : ItemTable.t Dimension) (row col : Z) :
  (2 < col →
   ItemTable.cell_value Dimension self row col
   = Err (Exception "Only two columns available in a ItemTable."))
  ∧ (col <= 2 → ItemTable.rows Dimension self <= row →
     ItemTable.cell_value Dimension self row col
     = Err (TypeError "unsupported operand type(s) for -: 'str' and 'int'"))
  ∧ (col <= 2 → col ≠ 0 →
     ItemTable.cell_value Dimension self row col
     = ItemTable.cell_value Dimension self row 1)
  ∧ (ItemTable.ndims Dimension self
     = Z.of_nat (length (ItemTable.dim_dict Dimension self)) →
     (∀ h d, (h, d) ∈ ItemTable.dim_dict Dimension self →
             is_Some (ItemTable.data Dimension self !! h)) →
     col <= 2 →
     - ItemTable.rows Dimension self <= row < ItemTable.rows Dimension self →
     ∃ h d v,
       ItemTable.dim_dict Dimension self
         !! Z.to_nat (if row <? 0 then row + ItemTable.rows Dimension self
                      else row) = Some (h, d)
       ∧ ItemTable.data Dimension self !! h = Some v
       ∧ ItemTable.cell_value Dimension self row col
         = Ok (if col =? 0 then ItemTable.OfDimension Dimension d
               else ItemTable.OfValue Dimension v)).
Proof.
  unfold ItemTable.cell_value, ItemTable.rows. split_and!.
  - intros Hcol. by rewrite (proj2 (Z.ltb_lt 2 col)) by lia.
  - intros Hcol Hrow. rewrite (proj2 (Z.ltb_ge 2 col)) by lia.
    by rewrite (proj2 (Z.leb_le _ _)) by lia.
  - intros Hcol Hne. rewrite (proj2 (Z.ltb_ge 2 col)) by lia.
    by rewrite (proj2 (Z.eqb_neq col 0)) by lia.
  - intros Hdims Hdata Hcol Hrow.
    rewrite (proj2 (Z.ltb_ge 2 col)) by lia.
    rewrite (proj2 (Z.leb_gt _ _)) by lia.
    set (j := Z.to_nat (if row <? 0 then row + ItemTable.ndims Dimension self
                        else row)).
    destruct (lookup_lt_is_Some_2 (ItemTable.dim_dict Dimension self) j)
      as [[h d] Hj].
    { subst j. destruct (row <? 0) eqn:E;
        [apply Z.ltb_lt in E|apply Z.ltb_ge in E]; lia. }
    destruct (Hdata h d) as [v Hv]; [by eapply list_elem_of_lookup_2|].
    exists h, d, v. split_and!; [done|done|].
    assert (∀ {A} (f : string * Dimension → A),
              ItemTable.list_getitem
                (f <$> ItemTable.dim_dict Dimension self) row
              = Ok (f (h, d))) as Hget.
    { intros A f. apply list_getitem_Ok. rewrite length_fmap, <- Hdims.
      subst j. destruct (row <? 0) eqn:E;
        [apply Z.ltb_lt in E; right|apply Z.ltb_ge in E; left].
      - split_and!; [lia|lia|]. by rewrite list_lookup_fmap, Hj.
      - split; [lia|]. by rewrite list_lookup_fmap, Hj. }
    destruct (col =? 0).
    + by rewrite Hget.
    + rewrite Hget. simpl. by rewrite Hv.
Qed.

(** * Properties of the palettes *)

Section PaletteFacts.
Variable num : Type.
Variables zero one : num.
Variable linspace : num -> num -> Z -> result (list num).
Variable colormaps : gmap string (num -> value).

Local Abbreviation init := (Palette.__init__ num zero one linspace colormaps).
Local Abbreviation getitem := (Palette.__getitem__ num zero one linspace colormaps).

(** What [Palette.__init__] returns. *)
Lemma Palette_init_Ok (key : string) (values : option (list value))
    (range : option (num * num)) (samples : option Z)
    (sample_fn : option (num → num → Z → result (list num)))
    (reverse : option bool) (p : Palette.t num) :
  init key values range samples sample_fn reverse = Ok p →
  Palette.key num p = key
  ∧ Palette.range num p = default (zero, one) range
  ∧ Palette.samples num p = default 32 samples
  ∧ Palette.sample_fn num p = default linspace sample_fn
  ∧ Palette.reverse num p = default false reverse
  ∧ Palette._get_values num colormaps p = Ok (Palette.values num p).
Proof.
  unfold Palette.__init__.
  destruct (Palette._get_values _ _ _) as [vs|e] eqn:E; simpl; [|done].
  by intros [= <-].
Qed.

(** X18: indexing a constructed Palette constructs a Palette afresh with
    the key, the sampling function and the direction of the Palette, the
    bounds of the slice where it has them and those of the Palette where it
    has none, and the step of the slice, or else the number of samples of
    the Palette, as the number of samples: its values are sampled anew
    (none of the values of the Palette is kept), an integer index is a step
    without bounds, and the slice without bounds and step gives a Palette
    equal to the one indexed. *)
Theorem Palette_getitem_resamples (key : string)
    (values : option (list value)) (range : option (num * num))
    (samples : option Z)
    (sample_fn : option (num → num → Z → result (list num)))
    (reverse : option bool) (p : Palette.t num)
    (start stop : option num) (step : option Z) (n : Z) :
  init key values range samples sample_fn reverse = Ok p →
  getitem p (Palette.Slice num start stop step)
  = init key None
      (Some (default (Palette.range num p).1 start,
             default (Palette.range num p).2 stop))
      (Some (default (Palette.samples num p) step))
      (Some (Palette.sample_fn num p)) (Some (Palette.reverse num p))
  ∧ getitem p (Palette.Index num n)
    = getitem p (Palette.Slice num None None (Some n))
  ∧ getitem p (Palette.Slice num None None None) = Ok p
  ∧ (∀ p', getitem p (Palette.Slice num start stop step) = Ok p' →
       ∃ cmap ns,
         colormaps !! key = Some cmap
         ∧ Palette.sample_fn num p (Palette.range num p').1
             (Palette.range num p').2 (Palette.samples num p') = Ok ns
         ∧ Palette.values num p'
           = if Palette.reverse num p then rev (map cmap ns)
             else map cmap ns).
Proof.
  intros Hinit.
  pose proof (Palette_init_Ok _ _ _ _ _ _ _ Hinit)
    as (Hkey & Hrange & Hsamples & Hfn & Hrev & Hvalues).
  assert (∀ vs r s,
            init key vs (Some r) (Some s) (Some (Palette.sample_fn num p))
                 (Some (Palette.reverse num p))
            = init key None (Some r) (Some s)
                   (Some (Palette.sample_fn num p))
                   (Some (Palette.reverse num p))) as Hignore.
  { intros vs r s. unfold Palette.__init__, Palette._get_values. done. }
  assert (∀ a b c,
            getitem p (Palette.Slice num a b c)
            = init key None
                (Some (default (Palette.range num p).1 a,
                       default (Palette.range num p).2 b))
                (Some (default (Palette.samples num p) c))
                (Some (Palette.sample_fn num p))
                (Some (Palette.reverse num p))) as Hslice.
  { intros a b c. unfold Palette.__getitem__, Palette.__call__.
    destruct p as [k vs [r1 r2] s f rv]. simpl in *. subst k.
    apply Hignore. }
  split_and!.
  - apply Hslice.
  - rewrite Hslice. unfold Palette.__getitem__, Palette.__call__.
    destruct p as [k vs [r1 r2] s f rv]. simpl in *. subst k.
    apply Hignore.
  - rewrite Hslice. simpl.
    unfold Palette.__init__. simpl.
    destruct p as [k vs [r1 r2] s f rv]. simpl in *.
    unfold Palette._get_values in *. simpl in *. subst k.
    destruct (colormaps !! key); [|done].
    destruct (f r1 r2 s); simpl in *; [|done].
    by injection Hvalues as <-.
  - intros p'. rewrite Hslice. intros Hp'.
    pose proof (Palette_init_Ok _ _ _ _ _ _ _ Hp')
      as (Hkey' & Hrange' & Hsamples' & Hfn' & Hrev' & Hvalues').
    simpl in *. unfold Palette._get_values in Hvalues'.
    rewrite Hkey', Hfn', Hrev' in Hvalues'.
    destruct (colormaps !! key) as [cmap|]; [|done].
    destruct (Palette.range num p') as [r1 r2]. simpl.
    destruct (Palette.sample_fn num p r1 r2 (Palette.samples num p'))
      as [ns|]; simpl in *; [|done].
    injection Hvalues' as <-. by exists cmap, ns.
Qed.

End PaletteFacts.

Lemma Palette_getitem_resamples_witness :
  Palette.__getitem__ Z 0 1 example_sample_fn example_colormaps
    example_palette (Palette.Slice Z None None None)
  = Ok example_palette.
Proof.
  apply (Palette_getitem_resamples Z 0 1 example_sample_fn example_colormaps
           "grayscale" None None None None None example_palette None None
           None 0).
  reflexivity.
Defined.

(** * Further properties of the options system *)




(** ** Options: the [options] property *)

(** X20: on constructed Options the [options] property gives the keywords
    themselves when none of them is a Cycle; when some are, it gives a
    dictionary exactly when no Cycle is empty and one of them has a single
    value, the dictionary of the first values of the Cycles and of the
    other keywords, and raises an [Exception] otherwise. *)
Theorem Options_options_noncyclic (key : option string)
    (allowed : option (list string)) (kwargs : gmap string value)
    (self : Options.t) :
  Options.__init__ key allowed kwargs = Ok self →
  ((∀ k v, kwargs !! k = Some v → Cycle.is_cycle v = false) →
   Options.options self = Ok kwargs)
  ∧ ((∃ k v, kwargs !! k = Some v ∧ Cycle.is_cycle v = true) →
     ((∃ d, Options.options self = Ok d)
      ↔ (∀ k ck vs, kwargs !! k = Some (VCycle ck vs) → vs ≠ [])
        ∧ ∃ k ck v, kwargs !! k = Some (VCycle ck [v])))
  ∧ (∀ d, Options.options self = Ok d →
       ∀ k, d !! k = kwargs !! k ≫= value_at 0)
  ∧ (∀ e, Options.options self = Err e →
       e = Exception
             "The options property may only be used with non-cyclic Options.").
Proof.
  intros Hinit. apply Options_init_Ok in Hinit as [_ ->].
  unfold Options.options. simpl.
  destruct (expand_options_cases kwargs) as [Hstatic Hcyclic].
  split_and!.
  - intros Hno. by rewrite (Hstatic Hno).
  - intros Hex. destruct (Hcyclic Hex) as (Hle & (k0 & ck0 & vs0 & Hk0 & Hlen0) & _).
    split.
    + intros [d Hd].
      destruct (Options._expand_options kwargs) as [|d0 [|d1 ds]] eqn:E;
        try done.
      simpl in *. split.
      * intros k ck vs Hk ->. specialize (Hle k ck [] Hk). simpl in Hle. lia.
      * destruct vs0 as [|v [|v' vs0]]; simpl in Hlen0; try lia.
        by exists k0, ck0, v.
    + intros [Hne (k & ck & v & Hk)].
      pose proof (Hle k ck [v] Hk) as Hle1. simpl in Hle1.
      destruct (Options._expand_options kwargs) as [|d0 [|d1 ds]] eqn:E;
        simpl in *.
      * destruct vs0; [by destruct (Hne k0 ck0 [] Hk0)|done].
      * by eexists.
      * lia.
  - intros d Hd k.
    destruct (decide (filter_cycles kwargs = [])) as [Hnil|Hcyc].
    + rewrite (expand_options_static kwargs Hnil) in Hd. injection Hd as <-.
      destruct (kwargs !! k) as [v|] eqn:Ek; [|done]. simpl.
      pose proof (proj1 (filter_cycles_nil kwargs) Hnil k v Ek) as Hv.
      by destruct v.
    + destruct (Options._expand_options kwargs) as [|d0 [|d1 ds]] eqn:E;
        try done.
      injection Hd as <-.
      apply (expand_options_lookup kwargs 0 d0 k Hcyc). by rewrite E.
  - intros e. by destruct (Options._expand_options kwargs) as [|d0 [|d1 ds]];
      intros [= <-].
Qed.

Lemma Options_options_noncyclic_witness :
  Options.options (plain {[ "x" := VInt 1 ]}) = Ok {[ "x" := VInt 1 ]}.
Proof.
  apply (Options_options_noncyclic None None {[ "x" := VInt 1 ]}
           (plain {[ "x" := VInt 1 ]})).
  - reflexivity.
  - intros k v Hk. apply lookup_singleton_Some in Hk as [_ <-]. reflexivity.
Defined.

(** ** OptionTree: what an assignment ignores *)

Lemma for_each_ext {A B} (f g : A → result B) (l : list A) :
  (∀ x, x ∈ l → f x = g x) → for_each f l = for_each g l.
Proof.
  induction l as [|x l IH]; intros H; [done|].
  simpl. rewrite (H x) by left. rewrite IH; [done|].
  intros y Hy. apply H. by right.
Qed.

(** X21: an assignment looks at the assigned dictionary only under the
    names of the groups of the node it starts from, the child of that name
    or else the node: two dictionaries that agree under these names are
    assigned with the same result, so that an entry under any other name is
    ignored without an error; when that node has no groups every
    assignment of a dictionary raises a [ValueError]; and an Options object
    without key is refused with an [AttributeError]. *)
Theorem OptionTree_setattr_ignores_other_names
    (sanitize_identifier : string → string) (self : OptionTree.t)
    (path identifier : string) :
  (∀ d d',
     (∀ g, is_Some (OptionTree.groups
                      (current_node self (sanitize_identifier identifier))
                    !! g) → d !! g = d' !! g) →
     OptionTree.__setattr__ sanitize_identifier self path identifier
       (OptionTree.SetDict d)
     = OptionTree.__setattr__ sanitize_identifier self path identifier
         (OptionTree.SetDict d'))
  ∧ (∀ d,
       (sanitize_identifier identifier ∈ OptionTree.children self →
        OptionTree.groups self !! sanitize_identifier identifier = None) →
       OptionTree.groups (current_node self (sanitize_identifier identifier))
       = ∅ →
       OptionTree.__setattr__ sanitize_identifier self path identifier
         (OptionTree.SetDict d)
       = Err (ValueError "OptionTree only accepts a dictionary of Options."))
  ∧ (∀ o, Options.key o = None →
       OptionTree.__setattr__ sanitize_identifier self path identifier
         (OptionTree.SetOptions o)
       = Err (AttributeError
                "Options object needs to have a group name specified.")).
Proof.
  split_and!.
  - intros d d' Hagree. rewrite !setattr_unfold.
    destruct (_ ≫= OptionTree.item_groups) as [cg|e] eqn:Hcg; [|done].
    apply current_groups_Ok in Hcg as [-> _]. simpl.
    rewrite (for_each_ext _
               (new_group self path (sanitize_identifier identifier) d'));
      [done|].
    intros [g co] Hin%elem_of_map_to_list. unfold new_group. simpl.
    rewrite (Hagree g); [done|by eexists].
  - intros d Hfree Hempty. rewrite setattr_unfold.
    rewrite current_groups_total by done. simpl.
    by rewrite Hempty, map_to_list_empty.
  - intros o Hkey. unfold OptionTree.__setattr__. by rewrite Hkey.
Qed.

(** ** Store: the registered plots *)

Lemma Options_init_allowing (l : list string) :
  Options.__init__ None (Some l) ∅ = Ok (allowing l).
Proof. unfold Options.__init__. reflexivity. Qed.

Lemma opt_groups_Ok (item : Store.default_item) (style_opts : list string) :
  Store.style_opts (Store.plot item) = Some style_opts →
  Store.opt_groups item
  = Ok (Store.name item, registered_groups item style_opts).
Proof.
  intros Hs. unfold Store.opt_groups. rewrite Hs. simpl.
  rewrite !Options_init_allowing. simpl.
  rewrite orb_true_r. reflexivity.
Qed.

Lemma store_groups_items :
  map_to_list store_groups
  = [("style", plain ∅); ("norm", plain ∅); ("plot", plain ∅)].
Proof. vm_compute. reflexivity. Qed.

(** Calling the empty Options with the allow-list and the keywords of
    Options that allow them gives these Options. *)
Lemma Options_call_allowing (l : list string) :
  Options.__call__ (plain ∅) (stored_keywords l) ∅ = Ok (allowing l).
Proof.
  unfold Options.__call__.
  assert (match stored_keywords l with
          | Some l' => Some l'
          | None => Options.allowed_keywords (plain ∅)
          end = stored_keywords l) as -> by (by destruct (stored_keywords l)).
  change (dict_update (Options.kwargs (plain ∅)) ∅)
    with (∅ : gmap string value).
  change (Options.key (plain ∅)) with (@None string).
  destruct (Options_init_accepted None (stored_keywords l) ∅)
    as (o & -> & Hkw & Hkey & Hopts & Hal).
  { intros _ k [v Hk]. by rewrite lookup_empty in Hk. }
  f_equal. destruct o as [a k kw os]. simpl in *. subst.
  unfold allowing. f_equal.
  apply (stored_keywords_fixed (Some l)).
Qed.

Lemma Options_call_norm :
  Options.__call__ (plain ∅) (Some ["axiswise"; "framewise"]) norm_defaults
  = Ok (Options.mk (Some ["axiswise"; "framewise"]) None norm_defaults
                   [norm_defaults]).
Proof. vm_compute. reflexivity. Qed.

Lemma assoc_set_fresh {A} (k : string) (a : A) (l : list (string * A)) :
  k ∉ l.*1 → OptionTree.assoc_set k a l = l ++ [(k, a)].
Proof.
  induction l as [|[k' a'] l IH]; intros Hk; [done|].
  simpl. rewrite fmap_cons in Hk. apply not_elem_of_cons in Hk as [Hne Hk].
  rewrite (proj2 (String.eqb_neq k k')) by done. by rewrite IH.
Qed.

(** Storing the groups of a registered type under a new name on the root
    under construction. *)
Lemma setattr_registered (sanitize_identifier : string → string)
    (nodes : list (string * OptionTree.t)) (path : string)
    (item : Store.default_item) (style_opts : list string) :
  sanitize_identifier (Store.name item) ∉ nodes.*1 →
  OptionTree.__setattr__ sanitize_identifier
    (OptionTree.Node None store_groups nodes false) path (Store.name item)
    (OptionTree.SetDict (registered_groups item style_opts))
  = Ok (OptionTree.Node None store_groups
          (nodes ++ [(sanitize_identifier (Store.name item),
                      registered_node sanitize_identifier item style_opts)])
          false).
Proof.
  intros Hnew. rewrite setattr_unfold.
  unfold OptionTree.children. cbn [OptionTree.nodes].
  rewrite bool_decide_false by done.
  cbn [mbind result_bind OptionTree.item_groups OptionTree.groups].
  rewrite store_groups_items.
  cbn [for_each]. unfold new_group. cbn [fst snd].
  change (registered_groups item style_opts !! "style")
    with (Some (allowing style_opts)).
  change (registered_groups item style_opts !! "norm")
    with (Some (Options.mk (Some ["axiswise"; "framewise"]) None
                  norm_defaults [norm_defaults])).
  change (registered_groups item style_opts !! "plot")
    with (Some (allowing
                  (List.filter (fun k => negb (bool_decide (k ∈ ["name"])))
                               (Store.params (Store.plot item))))).
  assert (∀ g o,
            is_Some (store_groups !! g) →
            Options.__call__ (plain ∅) (Options.allowed_keywords o)
              (Options.kwargs o) = Ok o →
            OptionTree._inherited_options
              (OptionTree.Node None store_groups nodes false) path
              (sanitize_identifier (Store.name item)) g o = Ok o) as Hinh.
  { intros g o Hg Hcall. unfold OptionTree._inherited_options.
    cbn [OptionTree._instantiated negb mbind result_bind OptionTree.groups].
    rewrite bool_decide_false by (intros H; by apply H, elem_of_dom).
    unfold OptionTree.children. cbn [OptionTree.nodes].
    rewrite bool_decide_false by done.
    cbn [mbind result_bind OptionTree.item_groups OptionTree.groups].
    destruct Hg as [co Hco]. rewrite Hco.
    assert (co = plain ∅) as ->.
    { unfold store_groups in Hco.
      apply lookup_insert_Some in Hco as [[_ <-]|[_ Hco]]; [done|].
      apply lookup_insert_Some in Hco as [[_ <-]|[_ Hco]]; [done|].
      by apply lookup_singleton_Some in Hco as [_ <-]. }
    cbn [mbind result_bind]. by rewrite Hcall. }
  cbv beta iota.
  rewrite Hinh by (by eexists || apply Options_call_allowing).
  cbn [mbind result_bind].
  rewrite Hinh by (by eexists || apply Options_call_norm).
  cbn [mbind result_bind].
  rewrite Hinh by (by eexists || apply Options_call_allowing).
  cbn [mbind result_bind]. unfold OptionTree.AttrTree_setattr.
  cbn [OptionTree.nodes OptionTree.identifier OptionTree.groups
       OptionTree._instantiated].
  rewrite assoc_set_fresh by done. reflexivity.
Qed.

Lemma init_items_fold (sanitize_identifier : string → string)
    (items : list Store.default_item) (nodes : list (string * OptionTree.t)) :
  NoDup (nodes.*1
         ++ map (fun item => sanitize_identifier (Store.name item)) items) →
  foldl (fun acc (item : string * gmap string Options.t) =>
           self ← acc;
           OptionTree.__setattr__ sanitize_identifier self
             (OptionTree.path [] self) item.1 (OptionTree.SetDict item.2))
        (Ok (OptionTree.Node None store_groups nodes false))
        (map path_item items)
  = Ok (OptionTree.Node None store_groups
          (nodes
           ++ map (fun item =>
                     (sanitize_identifier (Store.name item),
                      registered_node sanitize_identifier item
                        (style_opts_of item))) items)
          false).
Proof.
  revert nodes. induction items as [|item items IH]; intros nodes Hnd.
  - simpl. by rewrite app_nil_r.
  - cbn [map foldl mbind result_bind path_item fst snd].
    rewrite setattr_registered.
    + rewrite IH.
      * by rewrite <- app_assoc.
      * rewrite fmap_app. cbn [fmap list_fmap fst].
        rewrite <- app_assoc. exact Hnd.
    + apply NoDup_app in Hnd as (_ & Hdisj & _).
      intros Hin. apply (Hdisj _ Hin). left.
Qed.

Lemma insert_sorted_fst {A B} (lt : A → A → bool) (x : A * B)
    (l : list (A * B)) :
  (insert_sorted (fun a b => lt a.1 b.1) x l).*1
  = insert_sorted lt x.1 l.*1.
Proof.
  induction l as [|y l IH]; [done|].
  simpl. destruct (lt y.1 x.1); [|done].
  rewrite !fmap_cons. by rewrite IH.
Qed.

Lemma sorted_fst {A B} (lt : A → A → bool) (l : list (A * B)) :
  (sorted (fun a b => lt a.1 b.1) l).*1 = sorted lt l.*1.
Proof.
  induction l as [|x l IH]; [done|].
  change ((insert_sorted (fun a b => lt a.1 b.1) x
             (sorted (fun a b => lt a.1 b.1) l)).*1
          = insert_sorted lt x.1 (sorted lt l.*1)).
  by rewrite insert_sorted_fst, IH.
Qed.

Lemma assoc_NoDup {A} (k : string) (a : A) (l : list (string * A)) :
  NoDup l.*1 → (k, a) ∈ l → OptionTree.assoc k l = Some a.
Proof.
  induction l as [|[k' a'] l IH]; intros Hnd Hin;
    [by apply elem_of_nil in Hin|].
  rewrite fmap_cons in Hnd. apply NoDup_cons in Hnd as [Hk' Hnd].
  simpl. apply elem_of_cons in Hin as [[= -> ->]|Hin].
  - by rewrite String.eqb_refl.
  - destruct (String.eqb k k') eqn:E; [|by apply IH].
    apply String.eqb_eq in E as ->. destruct Hk'.
    apply list_elem_of_fmap. by exists (k', a).
Qed.

(** X22: [register_plots] on plotting classes that all have [style_opts],
    for classes whose sanitized names differ, never fails: it gives a
    constructed tree with the three groups [style], [plot] and [norm] at
    the root and one child per class name, in the ascending order of the
    names; whatever the [isinstance] test gives for the class, the child has
    the three groups: [plot] allows the parameters of the plotting class
    but [name], [style] allows its style keywords, both without keywords
    of their own, and [norm] holds [framewise] and [axiswise], both false,
    and allows these two.  When a plotting class has no [style_opts] an
    [AttributeError] is raised. *)
Theorem Store_register_plots_nodes (sanitize_identifier : string → string)
    (defaults : list Store.default_item) :
  ((∀ item, item ∈ defaults →
            is_Some (Store.style_opts (Store.plot item))) →
   NoDup (map (fun item => sanitize_identifier (Store.name item)) defaults) →
   ∃ tree names,
     Store.register_plots sanitize_identifier defaults = Ok tree
     ∧ OptionTree._instantiated tree = true
     ∧ OptionTree.groups tree = store_groups
     ∧ OptionTree.children tree = map sanitize_identifier names
     ∧ names ≡ₚ map Store.name defaults
     ∧ StronglySorted (fun a b => String.ltb a b = true) names
     ∧ ∀ item style_opts,
         item ∈ defaults →
         Store.style_opts (Store.plot item) = Some style_opts →
         OptionTree.AttrTree_getitem tree
           (sanitize_identifier (Store.name item))
         = Ok (registered_node sanitize_identifier item style_opts))
  ∧ ((∃ item, item ∈ defaults ∧ Store.style_opts (Store.plot item) = None) →
     Store.register_plots sanitize_identifier defaults
     = Err (AttributeError "style_opts")).
Proof.
  split.
  - intros Hstyle Hnd.
    assert (NoDup (map Store.name defaults)) as Hnames.
    { rewrite <- (map_map Store.name sanitize_identifier) in Hnd.
      by apply (NoDup_fmap_1 sanitize_identifier) in Hnd. }
    unfold Store.register_plots.
    rewrite (for_each_map _ path_item).
    2: { intros item Hitem. destruct (Hstyle item Hitem) as [so Hso].
         rewrite (opt_groups_Ok item so Hso). unfold path_item, style_opts_of.
         by rewrite Hso. }
    cbn [mbind result_bind]. rewrite !Options_init_plain.
    cbn [mbind result_bind]. fold store_groups.
    assert (NoDup (map path_item defaults).*1) as Hnd1.
    { change ((map path_item defaults).*1)
        with (map fst (map path_item defaults)).
      by rewrite map_map. }
    rewrite dict_of_pairs_list_to_map by done.
    set (sorted_items :=
           sorted (fun a b : string * gmap string Options.t =>
                     String.ltb a.1 b.1)
                  (map_to_list (list_to_map (map path_item defaults)
                                : gmap string (gmap string Options.t)))).
    assert (sorted_items ≡ₚ map path_item defaults) as Hperm.
    { subst sorted_items. rewrite (sorted_perm _).
      by apply map_to_list_to_map. }
    destruct (Permutation_map_inv path_item _ Hperm)
      as (items & Hitems & Hperm').
    unfold OptionTree.__init__with_items. rewrite Hitems.
    assert (NoDup (map (fun item => sanitize_identifier (Store.name item))
                       items)) as Hnd2.
    { assert (map (fun item => sanitize_identifier (Store.name item)) items
              ≡ₚ map (fun item => sanitize_identifier (Store.name item))
                     defaults) as ->; [|done].
      symmetry. by apply Permutation_map. }
    rewrite (init_items_fold sanitize_identifier items []) by done.
    cbn [mbind result_bind app OptionTree.identifier OptionTree.groups
         OptionTree.nodes].
    eexists _, (map Store.name items). split; [reflexivity|].
    split_and!.
    + done.
    + done.
    + unfold OptionTree.children. cbn [OptionTree.nodes].
      change ((map _ items).*1)
        with (map fst (map (fun item =>
                              (sanitize_identifier (Store.name item),
                               registered_node sanitize_identifier item
                                 (style_opts_of item))) items)).
      by rewrite !map_map.
    + symmetry. by apply Permutation_map.
    + assert (map Store.name items
              = sorted String.ltb
                  (map_to_list (list_to_map (map path_item defaults)
                                : gmap string (gmap string Options.t))).*1)
        as ->.
      { rewrite <- sorted_fst. fold sorted_items. rewrite Hitems.
        change ((map path_item items).*1)
          with (map fst (map path_item items)).
        by rewrite map_map. }
      apply sorted_ltb_strict, NoDup_fst_map_to_list.
    + intros item so Hitem Hso.
      unfold OptionTree.AttrTree_getitem. cbn [OptionTree.nodes].
      rewrite (assoc_NoDup (sanitize_identifier (Store.name item))
                 (registered_node sanitize_identifier item so)); [done| |].
      * change ((map _ items).*1)
          with (map fst (map (fun item =>
                                (sanitize_identifier (Store.name item),
                                 registered_node sanitize_identifier item
                                   (style_opts_of item))) items)).
        by rewrite map_map.
      * apply list_elem_of_In, in_map_iff. exists item. split.
        -- unfold style_opts_of. by rewrite Hso.
        -- apply list_elem_of_In. rewrite <- Hperm'. exact Hitem.
  - intros (item & Hitem & Hnone).
    unfold Store.register_plots.
    rewrite (for_each_Err _ _ item (AttributeError "style_opts")); [done|done| |].
    + unfold Store.opt_groups. by rewrite Hnone.
    + intros item' _. unfold Store.opt_groups.
      destruct (Store.style_opts (Store.plot item')) as [so|]; [|by left].
      right. cbn [mbind result_bind]. rewrite !Options_init_allowing.
      cbn [mbind result_bind]. by rewrite orb_true_r.
Qed.

Lemma Store_register_plots_nodes_witness :
  ∃ tree names,
    Store.register_plots no_sanitizer example_defaults = Ok tree
    ∧ OptionTree._instantiated tree = true
    ∧ OptionTree.groups tree = store_groups
    ∧ OptionTree.children tree = map no_sanitizer names
    ∧ names ≡ₚ map Store.name example_defaults
    ∧ StronglySorted (fun a b => String.ltb a b = true) names
    ∧ ∀ item style_opts,
        item ∈ example_defaults →
        Store.style_opts (Store.plot item) = Some style_opts →
        OptionTree.AttrTree_getitem tree (no_sanitizer (Store.name item))
        = Ok (registered_node no_sanitizer item style_opts).
Proof.
  apply (Store_register_plots_nodes no_sanitizer example_defaults).
  - intros item Hitem. apply elem_of_cons in Hitem as [->|Hitem].
    + eexists. reflexivity.
    + apply list_elem_of_singleton in Hitem as ->. eexists. reflexivity.
  - change (NoDup ["Image"; "Overlay"]). apply NoDup_cons. split.
    + intros H. apply list_elem_of_singleton in H. discriminate H.
    + apply NoDup_singleton.
Defined.
